(** * Map of Anime: similarity graph, community detection, layout serializer

    A shallow embedding of the data-processing scripts of the repository
    (scripts/compute-similarity-metadata.js, the label-propagation and
    recommendation variants of the similarity script, and
    scripts/generate-layout-hierarchical.js), with the properties the
    specification states about them.

    Conventions of the embedding.
    - JavaScript numbers that the scripts compute with (scores, weights,
      coordinates) are exact rationals [Q]; identifiers and years are
      integers [Z]; a tag rank is AniList's relevance percentage, a
      non-negative integer [N].
    - A JavaScript [Map]/[Set] keeps insertion order and the scripts iterate
      over them, so they are association lists / duplicate-free lists in
      insertion order (module [JsMap]).
    - A missing optional list field behaves in every use as the empty list
      ([x?.length > 0], [x || []]), so it is modelled as [[]]; missing scalar
      fields are [None]. *)

From Stdlib Require Import String.
From Stdlib Require Import List ZArith NArith QArith Qround Bool Lia Lqa.
From Stdlib Require Import Permutation.
Import ListNotations.

Local Open Scope Q_scope.

(** ** Small numeric helpers *)

Definition QofNat (n : nat) : Q := inject_Z (Z.of_nat n).
Definition QofN (n : N) : Q := inject_Z (Z.of_N n).

(** [x < y] on JavaScript numbers, as a boolean. *)
Definition Qltb (x y : Q) : bool := negb (Qle_bool y x).

(** ** Insertion-ordered maps and sets (JavaScript [Map] and [Set]) *)

Module JsMap.
Section WithKey.
Context {K V : Type} (eqb : K -> K -> bool).

(** [m.get(k)] *)
Fixpoint get (m : list (K * V)) (k : K) : option V :=
  match m with
  | [] => None
  | (k', v) :: r => if eqb k' k then Some v else get r k
  end.

(** [m.has(k)] *)
Definition has (m : list (K * V)) (k : K) : bool :=
  match get m k with Some _ => true | None => false end.

(** [m.set(k, v)]: an existing key keeps its position, a new key goes last. *)
Fixpoint set (m : list (K * V)) (k : K) (v : V) : list (K * V) :=
  match m with
  | [] => [(k, v)]
  | (k', v') :: r => if eqb k' k then (k', v) :: r else (k', v') :: set r k v
  end.

(** [new Map(entries)] *)
Definition of_entries (l : list (K * V)) : list (K * V) :=
  fold_left (fun m kv => set m (fst kv) (snd kv)) l [].

(** [m.keys()] *)
Definition keys (m : list (K * V)) : list K := map fst m.
End WithKey.

Section WithElem.
Context {A : Type} (eqb : A -> A -> bool).

(** [arr.includes(x)] / [set.has(x)] *)
Definition includes (l : list A) (x : A) : bool := existsb (eqb x) l.

(** [s.add(x)] *)
Definition add (s : list A) (x : A) : list A :=
  if includes s x then s else s ++ [x].

(** [new Set(arr)]: first occurrences, in order. *)
Definition set_of (l : list A) : list A := fold_left add l [].
End WithElem.
End JsMap.

(** ** Metadata-mode similarity (scripts/compute-similarity-metadata.js) *)

(** An entry of [anime.tags]. The rank is AniList's relevance of the tag
    for the item, a percentage between 0 and 100. *)
Record Tag := mkTag {
  tag_name : string;
  tag_rank : N;
  isMediaSpoiler : bool
}.

Record Anime := mkAnime {
  anime_id : Z;
  title : string;
  genres : list string;
  tags : list Tag;
  studios : list Z;          (* studios.nodes[*].id *)
  staff : list Z;            (* staff.edges[*].node.id *)
  format : option string;
  seasonYear : option Z;
  relations : list Z;        (* relations.edges[*].node.id *)
  popularity : Z
}.

Section Jaccard.
Context {A : Type} (eqb : A -> A -> bool).

(** [jaccardSimilarity(setA, setB)] *)
Definition jaccardSimilarity (setA setB : list A) : Q :=
  if ((length setA =? 0)%nat && (length setB =? 0)%nat)%bool then 0
  else
    let intersection := filter (fun item => JsMap.includes eqb setB item) setA in
    let union := JsMap.set_of eqb (setA ++ setB) in
    QofNat (length intersection) / QofNat (length union).
End Jaccard.

(** [tagMap.get(tag) || 0] *)
Definition rank_or_0 (m : list (string * N)) (tag : string) : N :=
  match JsMap.get String.eqb m tag with Some r => r | None => 0%N end.

(** One turn of the loop of [tagSimilarity] over [allTags]; the state is
    [(totalWeight, matchWeight)]. *)
Definition tag_step (tagMapA tagMapB : list (string * N))
    (st : N * N) (tag : string) : N * N :=
  let '(totalWeight, matchWeight) := st in
  let rankA := rank_or_0 tagMapA tag in
  let rankB := rank_or_0 tagMapB tag in
  let maxRank := N.max rankA rankB in
  let totalWeight := (totalWeight + maxRank)%N in
  if ((0 <? rankA)%N && (0 <? rankB)%N)%bool
  then (totalWeight, (matchWeight + N.min rankA rankB)%N)
  else (totalWeight, matchWeight).

(** [tagSimilarity(tagsA, tagsB)] *)
Definition tagSimilarity (tagsA tagsB : list Tag) : Q :=
  let tagMapA := JsMap.of_entries String.eqb (map (fun t => (tag_name t, tag_rank t)) tagsA) in
  let tagMapB := JsMap.of_entries String.eqb (map (fun t => (tag_name t, tag_rank t)) tagsB) in
  let allTags := JsMap.set_of String.eqb (JsMap.keys tagMapA ++ JsMap.keys tagMapB) in
  let '(totalWeight, matchWeight) :=
    fold_left (tag_step tagMapA tagMapB) allTags (0%N, 0%N) in
  if (0 <? totalWeight)%N then QofN matchWeight / QofN totalWeight else 0.

(** The pair [(similarity, weights)] that [computeAnimeSimilarity]
    accumulates, one block of the function at a time. *)
Definition Acc : Type := Q * Q.

Definition add_factor (acc : Acc) (sim weight : Q) : Acc :=
  (fst acc + sim * weight, snd acc + weight).

Definition nonempty {A : Type} (l : list A) : bool := (0 <? length l)%nat.

(** 1. Genre similarity (weight: 3.0) *)
Definition genre_block (animeA animeB : Anime) (acc : Acc) : Acc :=
  if (nonempty (genres animeA) && nonempty (genres animeB))%bool
  then add_factor acc (jaccardSimilarity String.eqb (genres animeA) (genres animeB)) 3
  else acc.

(** 2. Tag similarity (weight: 2.5) *)
Definition tag_block (animeA animeB : Anime) (acc : Acc) : Acc :=
  if (nonempty (tags animeA) && nonempty (tags animeB))%bool
  then
    let tagsA := filter (fun t => negb (isMediaSpoiler t)) (tags animeA) in
    let tagsB := filter (fun t => negb (isMediaSpoiler t)) (tags animeB) in
    if (nonempty tagsA && nonempty tagsB)%bool
    then add_factor acc (tagSimilarity tagsA tagsB) (5 # 2)
    else acc
  else acc.

(** 3. Studio similarity (weight: 1.5) *)
Definition studio_block (animeA animeB : Anime) (acc : Acc) : Acc :=
  let studiosA := studios animeA in
  let studiosB := studios animeB in
  if (nonempty studiosA && nonempty studiosB)%bool
  then add_factor acc (jaccardSimilarity Z.eqb studiosA studiosB) (3 # 2)
  else acc.

(** 4. Staff similarity (weight: 1.0) *)
Definition staff_block (animeA animeB : Anime) (acc : Acc) : Acc :=
  let staffA := staff animeA in
  let staffB := staff animeB in
  if (nonempty staffA && nonempty staffB)%bool
  then add_factor acc (jaccardSimilarity Z.eqb staffA staffB) 1
  else acc.

(** Truthiness of an optional string / number field. *)
Definition truthy_string (s : option string) : bool :=
  match s with Some s => negb (String.eqb s EmptyString) | None => false end.
Definition truthy_number (z : option Z) : bool :=
  match z with Some z => negb (z =? 0)%Z | None => false end.

Definition option_string_eqb (a b : option string) : bool :=
  match a, b with
  | Some x, Some y => String.eqb x y
  | None, None => true
  | _, _ => false
  end.

(** 5. Format match (weight: 0.5) *)
Definition format_block (animeA animeB : Anime) (acc : Acc) : Acc :=
  if (truthy_string (format animeA) && truthy_string (format animeB)
      && option_string_eqb (format animeA) (format animeB))%bool
  then (fst acc + (1 # 2), snd acc + (1 # 2))
  else acc.

(** 6. Season proximity (weight: 0.3) *)
Definition season_block (animeA animeB : Anime) (acc : Acc) : Acc :=
  match seasonYear animeA, seasonYear animeB with
  | Some yearA, Some yearB =>
      if (negb (yearA =? 0)%Z && negb (yearB =? 0)%Z)%bool then
        let yearDiff := Z.abs (yearA - yearB) in
        if (yearDiff <=? 2)%Z then
          let seasonSim := (3 - inject_Z yearDiff) / 3 in
          add_factor acc seasonSim (3 # 10)
        else acc
      else acc
  | _, _ => acc
  end.

(** 7. Direct relations (weight: 2.0) *)
Definition relation_block (animeA animeB : Anime) (acc : Acc) : Acc :=
  let relationsA := relations animeA in
  if JsMap.includes Z.eqb relationsA (anime_id animeB)
  then (fst acc + 2, snd acc + 2)
  else acc.

(** The pair [(similarity, weights)] when the season block is reached:
    the genre, tag, studio, staff and format blocks have run. *)
Definition factors_before_season (animeA animeB : Anime) : Acc :=
  format_block animeA animeB
    (staff_block animeA animeB
       (studio_block animeA animeB
          (tag_block animeA animeB (genre_block animeA animeB (0, 0))))).

Definition similarity_and_weights (animeA animeB : Anime) : Acc :=
  relation_block animeA animeB
    (season_block animeA animeB
      (format_block animeA animeB
        (staff_block animeA animeB
          (studio_block animeA animeB
            (tag_block animeA animeB
              (genre_block animeA animeB (0, 0))))))).

(** [computeAnimeSimilarity(animeA, animeB)] *)
Definition computeAnimeSimilarity (animeA animeB : Anime) : Q :=
  let '(similarity, weights) := similarity_and_weights animeA animeB in
  if Qltb 0 weights then similarity / weights else 0.

Record Edge := mkEdge {
  source : Z;
  target : Z;
  weight : Q
}.

(** The default threshold of the script. *)
Definition MIN_SIMILARITY : Q := 1 # 4.

(** The inner loop of [computeSimilarities]: [animeA] against every later
    item. The threshold is a parameter; the script fixes it to
    [MIN_SIMILARITY]. *)
Fixpoint similarities_from (threshold : Q) (animeA : Anime) (rest : list Anime)
    : list Edge :=
  match rest with
  | [] => []
  | animeB :: rest' =>
      let similarity := computeAnimeSimilarity animeA animeB in
      if Qle_bool threshold similarity
      then mkEdge (anime_id animeA) (anime_id animeB) similarity
             :: similarities_from threshold animeA rest'
      else similarities_from threshold animeA rest'
  end.

(** [computeSimilarities(animeList)]: all pairs [i < j], in loop order. *)
Fixpoint computeSimilarities (threshold : Q) (animeList : list Anime) : list Edge :=
  match animeList with
  | [] => []
  | animeA :: rest =>
      similarities_from threshold animeA rest ++ computeSimilarities threshold rest
  end.

Record Node := mkNode {
  node_id : Z;
  node_title : string;
  node_genres : list string;
  node_popularity : Z;
  node_format : option string;
  node_seasonYear : option Z
}.

Record Graph := mkGraph {
  nodes : list Node;
  edges : list Edge
}.

(** [buildGraph(animeList, edges)] *)
Definition buildGraph (animeList : list Anime) (edges : list Edge) : Graph :=
  let nodes := map (fun anime =>
      mkNode (anime_id anime) (title anime) (genres anime) (popularity anime)
             (format anime) (seasonYear anime)) animeList in
  let nodeIds := fold_left (fun s edge =>
      JsMap.add Z.eqb (JsMap.add Z.eqb s (source edge)) (target edge)) edges [] in
  let connectedNodes := filter (fun node => JsMap.includes Z.eqb nodeIds (node_id node)) nodes in
  mkGraph connectedNodes edges.

(** ** Genre communities ([detectCommunities] of the metadata script) *)

Module GenreCommunities.

(** Primary genres to create distinct communities *)
Definition primaryGenres : list string :=
  [ "Action"; "Adventure"; "Comedy"; "Drama"; "Fantasy";
    "Horror"; "Mystery"; "Psychological"; "Romance"; "Sci-Fi";
    "Slice of Life"; "Sports"; "Supernatural"; "Thriller"; "Mecha" ]%string.

(** [primaryGenres.forEach(genre => { genreToCommunity.set(genre, communityId);
    communityId++ })]: the map and the counter after the loop. *)
Definition assign_ids : list (string * nat) * nat :=
  fold_left (fun st genre =>
               let '(genreToCommunity, communityId) := st in
               (JsMap.set String.eqb genreToCommunity genre communityId, S communityId))
            primaryGenres ([], 0%nat).

Definition genreToCommunity : list (string * nat) := fst assign_ids.

(** Default community for others *)
Definition defaultCommunity : nat := snd assign_ids.

(** [for (const genre of node.genres) if (genreToCommunity.has(genre)) ... break] *)
Fixpoint first_matching (node_genres : list string) : option nat :=
  match node_genres with
  | [] => None
  | genre :: rest =>
      if JsMap.has String.eqb genreToCommunity genre
      then JsMap.get String.eqb genreToCommunity genre
      else first_matching rest
  end.

(** The value the loop over [graph.nodes] stores in [node.community]. *)
Definition community_of (node_genres : list string) : nat :=
  if nonempty node_genres then
    match first_matching node_genres with
    | Some c => c
    | None => defaultCommunity
    end
  else defaultCommunity.

(** [detectCommunities(graph)], the part that labels the nodes: every node
    paired with its community, in node order. *)
Definition detectCommunities (graph : Graph) : list (Node * nat) :=
  map (fun node => (node, community_of (node_genres node))) (nodes graph).

(** The specification's reading of the rule: walk the priority list and take the
    first canonical genre that the item possesses. *)
Fixpoint priority_first (priority : list string) (k : nat) (node_genres : list string)
    : option nat :=
  match priority with
  | [] => None
  | genre :: rest =>
      if JsMap.includes String.eqb node_genres genre then Some k
      else priority_first rest (S k) node_genres
  end.

End GenreCommunities.

(** ** Label propagation ([detectCommunities] of the user-overlap script) *)

Module LabelPropagation.

(** A community label is a node id; [None] is JavaScript's [undefined],
    which [communities.get] returns for an id that is not a node. *)
Definition Label : Type := option Z.

Definition label_eqb (a b : Label) : bool :=
  match a, b with
  | Some x, Some y => (x =? y)%Z
  | None, None => true
  | _, _ => false
  end.

(** An entry of an adjacency list: [{ id, weight }]. *)
Record Neighbor := mkNeighbor {
  nb_id : Z;
  nb_weight : Q
}.

Definition Adjacency : Type := list (Z * list Neighbor).
Definition Communities : Type := list (Z * Label).

(** [graph.nodes.forEach(node => adjacency.set(node.id, []))] *)
Definition adjacency_init (nodes : list Node) : Adjacency :=
  fold_left (fun adjacency node => JsMap.set Z.eqb adjacency (node_id node) [])
            nodes [].

(** [adjacency.get(k).push(x)]; [None] when [k] is not a key (the script
    throws there). *)
Definition push (adjacency : Adjacency) (k : Z) (x : Neighbor) : option Adjacency :=
  match JsMap.get Z.eqb adjacency k with
  | Some l => Some (JsMap.set Z.eqb adjacency k (l ++ [x]))
  | None => None
  end.

Definition add_edge (adjacency : option Adjacency) (edge : Edge) : option Adjacency :=
  match adjacency with
  | None => None
  | Some adj =>
      match push adj (source edge) (mkNeighbor (target edge) (weight edge)) with
      | None => None
      | Some adj' => push adj' (target edge) (mkNeighbor (source edge) (weight edge))
      end
  end.

(** Create adjacency list *)
Definition build_adjacency (graph : Graph) : option Adjacency :=
  fold_left add_edge (edges graph) (Some (adjacency_init (nodes graph))).

(** Initialize each node with its own community *)
Definition communities_init (nodes : list Node) : Communities :=
  fold_left (fun communities node =>
               JsMap.set Z.eqb communities (node_id node) (Some (node_id node)))
            nodes [].

(** [communities.get(id)] *)
Definition label_of (communities : Communities) (id : Z) : Label :=
  match JsMap.get Z.eqb communities id with
  | Some l => l
  | None => None
  end.

(** [communityWeights.get(comm) || 0] *)
Definition weight_or_0 (communityWeights : list (Label * Q)) (comm : Label) : Q :=
  match JsMap.get label_eqb communityWeights comm with
  | Some w => w
  | None => 0
  end.

(** Count community weights: one turn of [neighbors.forEach]. *)
Definition count_step (communities : Communities)
    (communityWeights : list (Label * Q)) (neighbor : Neighbor) : list (Label * Q) :=
  let comm := label_of communities (nb_id neighbor) in
  let currentWeight := weight_or_0 communityWeights comm in
  JsMap.set label_eqb communityWeights comm (currentWeight + nb_weight neighbor).

Definition count_weights (communities : Communities) (neighbors : list Neighbor)
    : list (Label * Q) :=
  fold_left (count_step communities) neighbors [].

(** Find most common community: one turn of the loop over
    [communityWeights], with state [(maxWeight, bestCommunity)]. *)
Definition best_step (st : Q * Label) (entry : Label * Q) : Q * Label :=
  let '(maxWeight, bestCommunity) := st in
  let '(comm, weight) := entry in
  if Qltb maxWeight weight then (weight, comm) else (maxWeight, bestCommunity).

Definition find_best (communityWeights : list (Label * Q)) (current : Label)
    : Q * Label :=
  fold_left best_step communityWeights (0, current).

Definition best_community (communities : Communities) (neighbors : list Neighbor)
    (current : Label) : Label :=
  snd (find_best (count_weights communities neighbors) current).

(** [adjacency.get(node.id)]; every node id was set by [adjacency_init]. *)
Definition neighbors_of (adjacency : Adjacency) (id : Z) : list Neighbor :=
  match JsMap.get Z.eqb adjacency id with
  | Some l => l
  | None => []
  end.

(** The body of [for (const node of graph.nodes)]; the state is
    [(communities, changed)]. *)
Definition update_node (adjacency : Adjacency) (st : Communities * bool)
    (node : Node) : Communities * bool :=
  let '(communities, changed) := st in
  let neighbors := neighbors_of adjacency (node_id node) in
  if (length neighbors =? 0)%nat then st
  else
    let current := label_of communities (node_id node) in
    let bestCommunity := best_community communities neighbors current in
    if negb (label_eqb bestCommunity current)
    then (JsMap.set Z.eqb communities (node_id node) bestCommunity, true)
    else st.

(** One turn of the [while] loop: [changed = false], then the [for]. *)
Definition sweep (adjacency : Adjacency) (nodes : list Node)
    (communities : Communities) : Communities * bool :=
  fold_left (update_node adjacency) nodes (communities, false).

Definition maxIterations : nat := 10.

(** [while (changed && iterations < maxIterations)], entered with
    [changed = true]; [remaining] is [maxIterations - iterations]. The
    result is the final labelling and the value of [iterations]. *)
Fixpoint propagate (adjacency : Adjacency) (nodes : list Node)
    (remaining : nat) (communities : Communities) (iterations : nat)
    : Communities * nat :=
  match remaining with
  | O => (communities, iterations)
  | S remaining' =>
      let '(communities', changed) := sweep adjacency nodes communities in
      if changed
      then propagate adjacency nodes remaining' communities' (S iterations)
      else (communities', S iterations)
  end.

(** Assign community to nodes: labels are renumbered [0, 1, ...] in order
    of first use. The state is [(communityIds, communityId, assigned)]. *)
Definition renumber (communities : Communities) (nodes : list Node)
    : list (Node * option nat) :=
  let '(_, _, assigned) :=
    fold_left (fun st node =>
                 let '(communityIds, communityId, assigned) := st in
                 let comm := label_of communities (node_id node) in
                 if JsMap.has label_eqb communityIds comm
                 then (communityIds, communityId,
                       assigned ++ [(node, JsMap.get label_eqb communityIds comm)])
                 else (JsMap.set label_eqb communityIds comm communityId,
                       S communityId,
                       assigned ++ [(node, Some communityId)]))
              nodes ([], 0%nat, []) in
  assigned.

(** [detectCommunities(graph)]: [None] when an edge names an id that is
    not a node (the script throws), else every node with its community. *)
Definition detectCommunities (graph : Graph) : option (list (Node * option nat)) :=
  match build_adjacency graph with
  | None => None
  | Some adjacency =>
      let '(communities, _) :=
        propagate adjacency (nodes graph) maxIterations
                  (communities_init (nodes graph)) 0 in
      Some (renumber communities (nodes graph))
  end.

(** The labelling after [k] turns of the loop. *)
Fixpoint after_sweeps (adjacency : Adjacency) (nodes : list Node)
    (k : nat) (communities : Communities) : Communities :=
  match k with
  | O => communities
  | S k' => after_sweeps adjacency nodes k' (fst (sweep adjacency nodes communities))
  end.

(** Total weight of the votes for one label, in vote order. *)
Fixpoint total_weight (votes : list (Label * Q)) (l : Label) : Q :=
  match votes with
  | [] => 0
  | (c, w) :: rest =>
      if label_eqb c l then w + total_weight rest l else total_weight rest l
  end.

(** The votes an item sees: its neighbours' current labels with the
    weights of the connecting edges, in adjacency order. *)
Definition votes_of (communities : Communities) (neighbors : list Neighbor)
    : list (Label * Q) :=
  map (fun neighbor => (label_of communities (nb_id neighbor), nb_weight neighbor))
      neighbors.

End LabelPropagation.

(** ** The graph library used by the recommendation script

    [graphology]'s undirected simple graph, as far as the script uses it:
    nodes and edges in insertion order, an edge between two keys found from
    either end. Operations that throw in the library return [None]. *)

Module Graphology.

Record Attributes := mkAttributes {
  attr_title : string;
  attr_genres : list string;
  attr_popularity : Z
}.

Record UGraph := mkUGraph {
  g_nodes : list (Z * Attributes);
  g_edges : list (Z * Z * Q)       (* source, target, weight *)
}.

Definition empty : UGraph := mkUGraph [] [].

Definition joins (a b : Z) (e : Z * Z * Q) : bool :=
  let '(s, t, _) := e in
  (((s =? a)%Z && (t =? b)%Z) || ((s =? b)%Z && (t =? a)%Z))%bool.

Definition hasNode (g : UGraph) (k : Z) : bool :=
  existsb (fun n => (fst n =? k)%Z) (g_nodes g).

Definition hasEdge (g : UGraph) (a b : Z) : bool :=
  existsb (joins a b) (g_edges g).

(** [graph.addNode(key, attributes)] throws on an existing key. *)
Definition addNode (g : UGraph) (k : Z) (attrs : Attributes) : option UGraph :=
  if hasNode g k then None
  else Some (mkUGraph (g_nodes g ++ [(k, attrs)]) (g_edges g)).

(** [graph.addEdge(a, b, { weight })] throws when an end is missing or
    the two keys are already joined. *)
Definition addEdge (g : UGraph) (a b : Z) (w : Q) : option UGraph :=
  if (hasNode g a && hasNode g b && negb (hasEdge g a b))%bool
  then Some (mkUGraph (g_nodes g) (g_edges g ++ [(a, b, w)]))
  else None.

(** [graph.getEdgeAttribute(a, b, 'weight')] *)
Definition getEdgeWeight (g : UGraph) (a b : Z) : option Q :=
  match find (joins a b) (g_edges g) with
  | Some (_, _, w) => Some w
  | None => None
  end.

(** [graph.setEdgeAttribute(a, b, 'weight', w)] *)
Definition setEdgeWeight (g : UGraph) (a b : Z) (w : Q) : UGraph :=
  mkUGraph (g_nodes g)
           (map (fun e => if joins a b e then (fst (fst e), snd (fst e), w) else e)
                (g_edges g)).

(** [graph.degree(k)]: a self-loop counts for both of its ends. *)
Definition degree (g : UGraph) (k : Z) : nat :=
  fold_left (fun d e =>
               let '(s, t, _) := e in
               (d + (if (s =? k)%Z then 1 else 0) + (if (t =? k)%Z then 1 else 0))%nat)
            (g_edges g) 0%nat.

(** [graph.dropNode(k)]: the node goes, and its edges with it. *)
Definition dropNode (g : UGraph) (k : Z) : UGraph :=
  mkUGraph (filter (fun n => negb (fst n =? k)%Z) (g_nodes g))
           (filter (fun e => let '(s, t, _) := e in
                             negb ((s =? k)%Z || (t =? k)%Z)) (g_edges g)).

End Graphology.

(** ** Recommendation-mode graph ([buildRecommendationGraph], [graphToJSON]) *)

Module Recommendation.
Import Graphology.

(** An entry of [anime.recommendations.edges]. *)
Record RecEdge := mkRecEdge {
  rating : option Z;                 (* edge.node.rating *)
  mediaRecommendation : option Z     (* edge.node.mediaRecommendation.id *)
}.

Record RecAnime := mkRecAnime {
  rec_id : Z;
  rec_attributes : Attributes;
  recommendations : list RecEdge
}.

Definition MIN_RATING : Z := 0.

(** [Math.max(1, rating / 100)] *)
Definition rec_weight (rating : Z) : Q :=
  let r := inject_Z rating / 100 in
  if Qltb 1 r then r else 1.

(** The body of [anime.recommendations.edges.forEach]. *)
Definition add_recommendation (animeIds : list Z) (anime : RecAnime)
    (graph : UGraph) (edge : RecEdge) : UGraph :=
  match mediaRecommendation edge with
  | None => graph
  | Some recId =>
      if (recId =? 0)%Z then graph
      else
        let rating := match rating edge with Some r => r | None => 0%Z end in
        if (rating <? MIN_RATING)%Z then graph
        else if (JsMap.includes Z.eqb animeIds recId
                 && hasNode graph (rec_id anime) && hasNode graph recId)%bool
        then
          if negb (hasEdge graph (rec_id anime) recId)
          then
            match addEdge graph (rec_id anime) recId (rec_weight rating) with
            | Some graph' => graph'
            | None => graph              (* catch (error) {} *)
            end
          else
            match getEdgeWeight graph (rec_id anime) recId with
            | Some existingWeight =>
                let newWeight := rec_weight rating in
                if Qltb existingWeight newWeight
                then setEdgeWeight graph (rec_id anime) recId newWeight
                else graph
            | None => graph
            end
        else graph
  end.

(** Add all anime as nodes; [None] when the library throws on a repeated id. *)
Definition add_all_nodes (animeList : list RecAnime) : option UGraph :=
  fold_left (fun graph anime =>
               match graph with
               | None => None
               | Some g => addNode g (rec_id anime) (rec_attributes anime)
               end)
            animeList (Some empty).

(** Add edges based on recommendations *)
Definition add_all_edges (animeList : list RecAnime) (graph : UGraph) : UGraph :=
  let animeIds := map rec_id animeList in
  fold_left (fun g anime =>
               fold_left (add_recommendation animeIds anime) (recommendations anime) g)
            animeList graph.

(** Remove isolated nodes (nodes with no connections) *)
Definition remove_isolated (graph : UGraph) : UGraph :=
  let isolatedNodes :=
    map fst (filter (fun n => (degree graph (fst n) =? 0)%nat) (g_nodes graph)) in
  fold_left dropNode isolatedNodes graph.

(** [buildRecommendationGraph(animeList)] *)
Definition buildRecommendationGraph (animeList : list RecAnime) : option UGraph :=
  match add_all_nodes animeList with
  | None => None
  | Some graph => Some (remove_isolated (add_all_edges animeList graph))
  end.

Record JsonNode := mkJsonNode {
  json_id : Z;
  json_attributes : Attributes
}.

(** [graphToJSON(graph)]: the emitted [{ nodes, edges }]. *)
Definition graphToJSON (graph : UGraph) : list JsonNode * list Edge :=
  (map (fun n => mkJsonNode (fst n) (snd n)) (g_nodes graph),
   map (fun e => let '(s, t, w) := e in mkEdge s t w) (g_edges graph)).

End Recommendation.

(** ** Hierarchical layout (scripts/generate-layout-hierarchical.js) *)

Module Layout.

Record LayoutNode := mkLayoutNode {
  ln_id : Z;
  clusterId : Z;
  tier : nat;
  x : Q;
  y : Q;
  hue : Q
}.

(** A node of [graph.json] as the layout reads it. *)
Record GraphNode := mkGraphNode {
  gn_id : Z;
  community : Z
}.

(** [map[comm].push(node)], creating the list on first use. *)
Definition push_member (map : list (Z * list GraphNode)) (node : GraphNode)
    : list (Z * list GraphNode) :=
  let comm := community node in
  match JsMap.get Z.eqb map comm with
  | None => JsMap.set Z.eqb map comm [node]
  | Some members => JsMap.set Z.eqb map comm (members ++ [node])
  end.

(** [buildCommunityMap()] *)
Definition buildCommunityMap (graph_nodes : list GraphNode) : list (Z * list GraphNode) :=
  fold_left push_member graph_nodes [].

(** [this.nodesByCommunity[clusterId] || []] *)
Definition members_of (nodesByCommunity : list (Z * list GraphNode)) (c : Z)
    : list GraphNode :=
  match JsMap.get Z.eqb nodesByCommunity c with
  | Some members => members
  | None => []
  end.

(** [Math.min(nodesPerCommunity, Math.ceil(members.length / 50))] with
    [nodesPerCommunity = Math.pow(2, currentTier + 1)]. *)
Definition subgroups (currentTier : nat) (members : list GraphNode) : nat :=
  Nat.min (2 ^ (currentTier + 1)) ((length members + 49) / 50).

Section Random.
(** The generator behind [Math.random()]: a hidden state and the draw
    that advances it. The scripts pass no seed; the state is ambient. *)
Variable G : Type.
Variable random : G -> Q * G.

(** The first [n] values the generator returns from a state. *)
Fixpoint draws (n : nat) (g : G) : list Q :=
  match n with
  | O => []
  | S n' => let '(r, g') := random g in r :: draws n' g'
  end.

(** [for (let i = 0; i < subgroups; i++)]: [n] turns are left. *)
Fixpoint spawn (currentTier : nat) (parentNode : LayoutNode) (i : Z) (n : nat)
    (g : G) : list LayoutNode * G :=
  match n with
  | O => ([], g)
  | S n' =>
      let nodeId := (clusterId parentNode * 1000 + i)%Z in
      let '(r1, g1) := random g in
      let '(r2, g2) := random g1 in
      let node := mkLayoutNode nodeId (clusterId parentNode) currentTier
                    (x parentNode + (r1 - (1 # 2)) * 50)
                    (y parentNode + (r2 - (1 # 2)) * 50)
                    (hue parentNode) in
      let '(rest, g') := spawn currentTier parentNode (i + 1) n' g2 in
      (node :: rest, g')
  end.

(** [subdivideNodes(oldNodes)] *)
Fixpoint subdivideNodes (currentTier : nat)
    (nodesByCommunity : list (Z * list GraphNode))
    (oldNodes : list LayoutNode) (g : G) : list LayoutNode * G :=
  match oldNodes with
  | [] => ([], g)
  | parentNode :: rest =>
      let members := members_of nodesByCommunity (clusterId parentNode) in
      let '(children, g1) :=
        spawn currentTier parentNode 0 (subgroups currentTier members) g in
      let '(others, g2) := subdivideNodes currentTier nodesByCommunity rest g1 in
      (children ++ others, g2)
  end.
End Random.

(** How many children a subdivision creates: a function of the inputs. *)
Definition children_count (currentTier : nat)
    (nodesByCommunity : list (Z * list GraphNode)) (oldNodes : list LayoutNode) : nat :=
  fold_right (fun parentNode acc =>
                (subgroups currentTier
                   (members_of nodesByCommunity (clusterId parentNode)) + acc)%nat)
             0%nat oldNodes.

(** *** Normalization to world space ([main]) *)

(** A JavaScript number: finite, or one of the three special values. *)
Inductive JsNum :=
| Fin (q : Q)
| PosInf
| NegInf
| NaN.

Definition Qminb (p q : Q) : Q := if Qle_bool p q then p else q.
Definition Qmaxb (p q : Q) : Q := if Qle_bool p q then q else p.

(** [Math.min(a, b)] *)
Definition js_min (a b : JsNum) : JsNum :=
  match a, b with
  | NaN, _ | _, NaN => NaN
  | NegInf, _ | _, NegInf => NegInf
  | PosInf, v | v, PosInf => v
  | Fin p, Fin q => Fin (Qminb p q)
  end.

(** [Math.max(a, b)] *)
Definition js_max (a b : JsNum) : JsNum :=
  match a, b with
  | NaN, _ | _, NaN => NaN
  | PosInf, _ | _, PosInf => PosInf
  | NegInf, v | v, NegInf => v
  | Fin p, Fin q => Fin (Qmaxb p q)
  end.

(** [a - b] *)
Definition js_sub (a b : JsNum) : JsNum :=
  match a, b with
  | NaN, _ | _, NaN => NaN
  | Fin p, Fin q => Fin (p - q)
  | PosInf, PosInf | NegInf, NegInf => NaN
  | PosInf, _ | _, NegInf => PosInf
  | NegInf, _ | _, PosInf => NegInf
  end.

Definition Qzero (q : Q) : bool := Qeq_bool q 0.

(** The infinity with the sign of [p * q] for non-zero [p], [q]. *)
Definition inf_of_sign (positive : bool) : JsNum :=
  if positive then PosInf else NegInf.

(** [a / b]; a zero divisor here is a difference [max - min], hence [+0]. *)
Definition js_div (a b : JsNum) : JsNum :=
  match a, b with
  | NaN, _ | _, NaN => NaN
  | Fin p, Fin q =>
      if Qzero q then
        if Qzero p then NaN else inf_of_sign (Qltb 0 p)
      else Fin (p / q)
  | Fin _, _ => Fin 0
  | PosInf, Fin q => inf_of_sign (Qle_bool 0 q)
  | NegInf, Fin q => inf_of_sign (negb (Qle_bool 0 q))
  | _, _ => NaN
  end.

(** [a * b] *)
Definition js_mul (a b : JsNum) : JsNum :=
  match a, b with
  | NaN, _ | _, NaN => NaN
  | Fin p, Fin q => Fin (p * q)
  | Fin p, PosInf | PosInf, Fin p =>
      if Qzero p then NaN else inf_of_sign (Qltb 0 p)
  | Fin p, NegInf | NegInf, Fin p =>
      if Qzero p then NaN else inf_of_sign (negb (Qltb 0 p))
  | PosInf, PosInf | NegInf, NegInf => PosInf
  | PosInf, NegInf | NegInf, PosInf => NegInf
  end.

(** [Math.round(a)]: to the nearest integer, halves upwards. *)
Definition js_round (a : JsNum) : JsNum :=
  match a with
  | Fin q => Fin (inject_Z (Qfloor (q + (1 # 2))))
  | v => v
  end.

(** A graph node after [finalizeLayout]. *)
Record Positioned := mkPositioned {
  pos_id : Z;
  pos_x : Q;
  pos_y : Q
}.

Record Box := mkBox {
  minX : JsNum; maxX : JsNum;
  minY : JsNum; maxY : JsNum
}.

(** One turn of the bounding-box loop of [main]. *)
Definition box_step (b : Box) (node : Positioned) : Box :=
  mkBox (js_min (minX b) (Fin (pos_x node)))
        (js_max (maxX b) (Fin (pos_x node)))
        (js_min (minY b) (Fin (pos_y node)))
        (js_max (maxY b) (Fin (pos_y node))).

(** The bounding-box loop of [main], from [Infinity] / [-Infinity]. *)
Definition bounding_box (nodes : list Positioned) : Box :=
  fold_left box_step nodes (mkBox PosInf NegInf PosInf NegInf).

Definition scale : Q := 20000.

(** [Math.round(((v - min) / range) * scale)] *)
Definition normalize (v : Q) (min range : JsNum) : JsNum :=
  js_round (js_mul (js_div (js_sub (Fin v) min) range) (Fin scale)).

(** The [x] and [y] fields of [output.nodes], in node order. *)
Definition serialize_coordinates (nodes : list Positioned) : list (JsNum * JsNum) :=
  let b := bounding_box nodes in
  let rangeX := js_sub (maxX b) (minX b) in
  let rangeY := js_sub (maxY b) (minY b) in
  map (fun node => (normalize (pos_x node) (minX b) rangeX,
                    normalize (pos_y node) (minY b) rangeY))
      nodes.

(** What the specification asks of a serialized coordinate: a finite
    integer between [0] and [worldScale]. *)
Definition in_world (v : JsNum) : Prop :=
  exists z : Z, v = Fin (inject_Z z) /\ (0 <= z <= 20000)%Z.

End Layout.

(** ** Predicates and sample inputs used by the properties *)

(** The invariant every block of [computeAnimeSimilarity] keeps: the
    accumulated similarity stays between [0] and the accumulated weight. *)
Definition bounded_acc (acc : Acc) : Prop := 0 <= fst acc /\ fst acc <= snd acc.

(** The attribute collections of an item are duplicate-free sets. *)
Definition duplicate_free (a : Anime) : Prop :=
  NoDup (genres a) /\ NoDup (map tag_name (tags a))
  /\ NoDup (studios a) /\ NoDup (staff a).

(** The item with its spoiler tags removed / with no tags / with no
    season year. *)
Definition with_tags (a : Anime) (ts : list Tag) : Anime :=
  mkAnime (anime_id a) (title a) (genres a) ts (studios a) (staff a)
          (format a) (seasonYear a) (relations a) (popularity a).

Definition without_spoilers (a : Anime) : Anime :=
  with_tags a (filter (fun t => negb (isMediaSpoiler t)) (tags a)).

Definition without_tags (a : Anime) : Anime := with_tags a [].

Definition without_seasonYear (a : Anime) : Anime :=
  mkAnime (anime_id a) (title a) (genres a) (tags a) (studios a) (staff a)
          (format a) None (relations a) (popularity a).

Module Samples.
Local Open Scope string_scope.

(** Two items that share genres, format and season year. *)
Definition drama_a : Anime :=
  mkAnime 1 "A" ["Action"; "Drama"] [] [] [] (Some "TV") (Some 2020%Z) [] 100.
Definition drama_b : Anime :=
  mkAnime 2 "B" ["Action"; "Drama"] [] [] [] (Some "TV") (Some 2020%Z) [] 90.

(** A sequel that lists its prequel, while the prequel does not list it. *)
Definition sequel : Anime :=
  mkAnime 1 "Sequel" ["Action"] [] [] [] None None [2%Z] 100.
Definition prequel : Anime :=
  mkAnime 2 "Prequel" ["Romance"] [] [] [] None None [] 90.

(** Same genre, ten years apart / one year apart. *)
Definition show_2020 : Anime :=
  mkAnime 1 "New" ["Action"] [] [] [] None (Some 2020%Z) [] 100.
Definition show_2010 : Anime :=
  mkAnime 2 "Old" ["Action"] [] [] [] None (Some 2010%Z) [] 90.
Definition show_2021 : Anime :=
  mkAnime 3 "Newer" ["Action"] [] [] [] None (Some 2021%Z) [] 80.

(** Tags, some of them spoilers. *)
Definition spoiled : Anime :=
  mkAnime 1 "S" ["Action"]
          [mkTag "Time Loop" 90 true; mkTag "Revenge" 70 true] [] [] None None [] 100.
Definition tagged : Anime :=
  mkAnime 2 "T" ["Action"]
          [mkTag "Revenge" 80 false; mkTag "Time Loop" 60 true; mkTag "Swords" 40 false]
          [] [] None None [] 90.
End Samples.

Module RecSamples.
Import Graphology Recommendation.
Local Open Scope string_scope.

(** Three items: the first recommends the second (rating 40) and an item
    outside the list; the third recommends nothing and nobody recommends it. *)
Definition rec_list : list RecAnime :=
  [ mkRecAnime 1 (mkAttributes "One" ["Action"] 100)
               [mkRecEdge (Some 40%Z) (Some 2%Z); mkRecEdge (Some 5%Z) (Some 99%Z)];
    mkRecAnime 2 (mkAttributes "Two" ["Drama"] 90) [];
    mkRecAnime 3 (mkAttributes "Three" [] 80) [] ].

(** The same three items in metadata mode, with one edge. *)
Definition meta_list : list Anime :=
  [ mkAnime 1 "One" ["Action"] [] [] [] None None [] 100;
    mkAnime 2 "Two" ["Action"] [] [] [] None None [] 90;
    mkAnime 3 "Three" ["Drama"] [] [] [] None None [] 80 ].
End RecSamples.

Module LayoutSamples.
Import Layout.

(** A graph with a single node, and one whose two nodes sit on a
    vertical line. *)
Definition single : list Positioned := [mkPositioned 1 5 7].
Definition vertical : list Positioned :=
  [mkPositioned 1 0 0; mkPositioned 2 0 10].
Definition spread : list Positioned :=
  [mkPositioned 1 (-3) 0; mkPositioned 2 1 10; mkPositioned 3 5 4].

(** A generator that returns the same number forever. *)
Definition constant_random (g : Q) : Q * Q := (g, g).

(** One community of 120 members and its tier-0 node. *)
Definition members120 : list GraphNode :=
  map (fun i => mkGraphNode (Z.of_nat i) 7) (seq 0 120).
Definition byCommunity : list (Z * list GraphNode) := buildCommunityMap members120.
Definition parent : LayoutNode := mkLayoutNode 7 7 0 100 200 180.

(** A generator that replays a finite tape of numbers, then zeros. *)
Definition tape_random (g : list Q) : Q * list Q :=
  match g with
  | [] => (0, [])
  | r :: rest => (r, rest)
  end.

(** Six draws of 1/4, then other numbers. *)
Definition tape : list Q :=
  [1 # 4; 1 # 4; 1 # 4; 1 # 4; 1 # 4; 1 # 4; 9 # 10; 1 # 3].
End LayoutSamples.

(** The box after the loop has seen a non-empty list of nodes: finite
    bounds that enclose every coordinate seen. *)
Definition encloses (b : Layout.Box) (seen : list Layout.Positioned) : Prop :=
  exists m M m' M',
    b = Layout.mkBox (Layout.Fin m) (Layout.Fin M) (Layout.Fin m') (Layout.Fin M')
    /\ (forall n, In n seen ->
          m <= Layout.pos_x n <= M /\ m' <= Layout.pos_y n <= M').

Module LpSamples.
Import LabelPropagation.

(** A path 1 - 2 - 3 whose edges are listed from the far end. *)
Definition lp_nodes : list Node :=
  [ mkNode 1 "One" [] 0 None None;
    mkNode 2 "Two" [] 0 None None;
    mkNode 3 "Three" [] 0 None None ].

Definition lp_graph : Graph :=
  mkGraph lp_nodes [mkEdge 2 3 (1 # 2); mkEdge 1 2 (1 # 2)].

Definition lp_adjacency : Adjacency :=
  match build_adjacency lp_graph with
  | Some adjacency => adjacency
  | None => []
  end.

(** The labelling when the first turn of the loop reaches node 2: node 1
    has just taken the label of its only neighbour. *)
Definition lp_before_node2 : Communities :=
  fst (update_node lp_adjacency (communities_init lp_nodes, false)
                   (mkNode 1 "One" [] 0 None None)).
(** The votes node 2 sees at that moment. *)
Definition lp_votes_node2 : list (Label * Q) :=
  votes_of lp_before_node2 (neighbors_of lp_adjacency 2).
End LpSamples.

(** ** Further predicates on items *)

(** Two items that carry the same attributes (the ids and the relation
    lists may differ). *)
Definition same_attributes (a b : Anime) : Prop :=
  genres a = genres b /\ tags a = tags b /\ studios a = studios b
  /\ staff a = staff b /\ format a = format b /\ seasonYear a = seasonYear b.

(** Every tag that is not a spoiler has a positive rank. *)
Definition positive_ranks (a : Anime) : Prop :=
  forall t, In t (tags a) -> isMediaSpoiler t = false -> (0 < tag_rank t)%N.

(** The pair of ids an edge joins. *)
Definition endpoints (e : Edge) : Z * Z := (source e, target e).

(** ** Further notions for label propagation *)

(** The entries that one edge contributes to the adjacency list of [k]:
    the far end when [k] is the source, and the far end when [k] is the
    target (both for a loop). *)
Definition incident (k : Z) (e : Edge) : list LabelPropagation.Neighbor :=
  (if (source e =? k)%Z
   then [LabelPropagation.mkNeighbor (target e) (weight e)] else [])
  ++ (if (target e =? k)%Z
      then [LabelPropagation.mkNeighbor (source e) (weight e)] else []).

(** Every edge of the graph joins two of its nodes. *)
Definition edges_closed (graph : Graph) : Prop :=
  forall e, In e (edges graph) ->
            In (source e) (map node_id (nodes graph))
            /\ In (target e) (map node_id (nodes graph)).

(** Every node of [ids] carries the id of a node of [ids] as its label. *)
Definition labels_within (ids : list Z) (communities : LabelPropagation.Communities)
    : Prop :=
  forall k, In k ids ->
            exists j, In j ids /\ LabelPropagation.label_of communities k = Some j.

(** The label a node carries in a labelling. *)
Definition node_label (communities : LabelPropagation.Communities) (node : Node)
    : LabelPropagation.Label :=
  LabelPropagation.label_of communities (node_id node).

(** The state of the renumbering loop of [detectCommunities] after the
    nodes [processed]: the map numbers the labels met so far 0, 1, ... in
    order of first occurrence, and every processed node is paired with the
    number of its label. *)
Definition renumbered (communities : LabelPropagation.Communities)
    (processed : list Node)
    (st : list (LabelPropagation.Label * nat) * nat * list (Node * option nat)) : Prop :=
  let '(communityIds, communityId, assigned) := st in
  communityId = length communityIds
  /\ map snd communityIds = seq 0 communityId
  /\ JsMap.keys communityIds
     = JsMap.set_of LabelPropagation.label_eqb (map (node_label communities) processed)
  /\ assigned
     = map (fun node => (node, JsMap.get LabelPropagation.label_eqb communityIds
                                         (node_label communities node)))
           processed.

(** ** User-overlap similarity (the script that runs label propagation)

    [computeSimilarities] and [buildGraph] of the script whose
    [detectCommunities] is the label propagation above. [animeUsers] is the
    list of the values of the input object, in key order. *)

Module UserOverlap.

Record AnimeUsers := mkAnimeUsers {
  au_id : Z;
  au_title : string;
  au_genres : list string;
  au_popularity : Z;
  users : list Z
}.

(** An emitted edge: [{ source, target, weight, sharedUsers }]. *)
Record OverlapEdge := mkOverlapEdge {
  edge_of : Edge;
  sharedUsers : nat
}.

(** [jaccardSimilarity(setA, setB)] of this script has no guard for two
    empty lists: [0 / 0] is NaN, here [None]. *)
Definition jaccardSimilarity (setA setB : list Z) : option Q :=
  let intersection := filter (fun item => JsMap.includes Z.eqb setB item) setA in
  let union := JsMap.set_of Z.eqb (setA ++ setB) in
  if (length union =? 0)%nat then None
  else Some (QofNat (length intersection) / QofNat (length union)).

Definition MIN_SIMILARITY : Q := 1 # 20.
Definition MIN_SHARED_USERS : nat := 10.

(** [similarity >= MIN_SIMILARITY]; a comparison with NaN is false. *)
Definition reaches (similarity : option Q) : bool :=
  match similarity with
  | Some s => Qle_bool MIN_SIMILARITY s
  | None => false
  end.

(** The inner loop: [animeA] against every later item. *)
Fixpoint similarities_from (animeA : AnimeUsers) (rest : list AnimeUsers)
    : list OverlapEdge :=
  match rest with
  | [] => []
  | animeB :: rest' =>
      let usersA := users animeA in
      let usersB := users animeB in
      (* Skip anime with too few users *)
      if (length usersB <? 20)%nat then similarities_from animeA rest'
      else
        let similarity := jaccardSimilarity usersA usersB in
        let shared := length (filter (fun u => JsMap.includes Z.eqb usersB u) usersA) in
        if (reaches similarity && (MIN_SHARED_USERS <=? shared)%nat)%bool
        then mkOverlapEdge
               (mkEdge (au_id animeA) (au_id animeB)
                       (match similarity with Some s => s | None => 0 end))
               shared
             :: similarities_from animeA rest'
        else similarities_from animeA rest'
  end.

(** [computeSimilarities(animeUsers)] *)
Fixpoint computeSimilarities (animeUsers : list AnimeUsers) : list OverlapEdge :=
  match animeUsers with
  | [] => []
  | animeA :: rest =>
      (* Skip anime with too few users *)
      if (length (users animeA) <? 20)%nat then computeSimilarities rest
      else similarities_from animeA rest ++ computeSimilarities rest
  end.

(** [buildGraph(animeUsers, edges)]; the graph is the one label
    propagation reads, so its edges are seen through [edge_of]. *)
Definition buildGraph (animeUsers : list AnimeUsers) (edges : list OverlapEdge) : Graph :=
  let nodes := map (fun anime =>
      mkNode (au_id anime) (au_title anime) (au_genres anime) (au_popularity anime)
             None None) animeUsers in
  let nodeIds := fold_left (fun s edge =>
      JsMap.add Z.eqb (JsMap.add Z.eqb s (source edge)) (target edge))
      (map edge_of edges) [] in
  let connectedNodes := filter (fun node => JsMap.includes Z.eqb nodeIds (node_id node)) nodes in
  mkGraph connectedNodes (map edge_of edges).

End UserOverlap.

Module OverlapSamples.
Import UserOverlap.

(** Three items: two with the same 20 users, one with a single user. *)
Definition crowd : list Z := map Z.of_nat (seq 1 20).
Definition overlap_list : list AnimeUsers :=
  [ mkAnimeUsers 1 "One" [] 100 crowd;
    mkAnimeUsers 2 "Two" [] 90 [99%Z];
    mkAnimeUsers 3 "Three" [] 80 crowd ].

(** The one edge they give. *)
Definition overlap_edge : OverlapEdge := mkOverlapEdge (mkEdge 1 3 (20 # 20)) 20.
End OverlapSamples.

(** ** Further notions for the recommendation graph *)

(** [edge.node.rating || 0] *)
Definition rating_or_0 (edge : Recommendation.RecEdge) : Z :=
  match Recommendation.rating edge with Some r => r | None => 0%Z end.

(** No two edges of the list join the same two keys (in either order). *)
Definition simple_edges (es : list (Z * Z * Q)) : Prop :=
  ForallOrdPairs (fun e1 e2 => Graphology.joins (fst (fst e1)) (snd (fst e1)) e2 = false) es.

(** The keys [a] and [b] are joined by an edge of weight at least [w0]. *)
Definition joined_at_least (g : Graphology.UGraph) (a b : Z) (w0 : Q) : Prop :=
  exists s t w, In (s, t, w) (Graphology.g_edges g)
                /\ Graphology.joins a b (s, t, w) = true /\ w0 <= w.

(** What the edge loop keeps true of the graph, for the item list [l]:
    the nodes are the listed items, every edge joins two nodes, no pair is
    joined twice, and every weight is the weight of a listed rating. *)
Definition rec_invariant (l : list Recommendation.RecAnime) (g : Graphology.UGraph) : Prop :=
  Graphology.g_nodes g
  = map (fun a => (Recommendation.rec_id a, Recommendation.rec_attributes a)) l
  /\ (forall s t w, In (s, t, w) (Graphology.g_edges g) ->
        Graphology.hasNode g s = true /\ Graphology.hasNode g t = true)
  /\ simple_edges (Graphology.g_edges g)
  /\ (forall s t w, In (s, t, w) (Graphology.g_edges g) ->
        exists a e, In a l /\ In e (Recommendation.recommendations a)
                    /\ w = Recommendation.rec_weight (rating_or_0 e)).

(** ** More of the hierarchical layout: edges between layout nodes, and the
    split of a community's members over its layout nodes *)

Module LayoutGraph.
Import Layout.

(** An edge of [graph.json] as the layout reads it: an object
    [{ source, target, weight }], or an array [[source, target, weight]]. *)
Inductive InputEdge :=
| ObjectEdge (e : Edge)
| ArrayEdge (s t : Z) (w : Q).

(** [{ source: sourceLayoutNodes[0], target: targetLayoutNodes[0], weight }] *)
Record LayoutEdge := mkLayoutEdge {
  le_source : LayoutNode;
  le_target : LayoutNode;
  le_weight : Q
}.

(** The two ids an input edge names. *)
Definition edge_ids (edge : InputEdge) : Z * Z :=
  match edge with
  | ObjectEdge e => (source e, target e)
  | ArrayEdge s t _ => (s, t)
  end.

(** [edge.weight || 0.5]; an array has no [weight] property. *)
Definition edge_weight (edge : InputEdge) : Q :=
  match edge with
  | ObjectEdge e => if Qeq_bool (weight e) 0 then 1 # 2 else weight e
  | ArrayEdge _ _ _ => 1 # 2
  end.

(** [this.graph.nodes.find(n => n.id === id || String(n.id) === String(id))] *)
Definition find_node (graph_nodes : list GraphNode) (id : Z) : option GraphNode :=
  find (fun n => (gn_id n =? id)%Z) graph_nodes.

(** The body of [this.graph.edges.forEach] in [createEdges]. *)
Definition createEdge (graph_nodes : list GraphNode) (nodes : list LayoutNode)
    (edges : list LayoutEdge) (edge : InputEdge) : list LayoutEdge :=
  let '(sourceComm, targetComm) := edge_ids edge in
  match find_node graph_nodes sourceComm, find_node graph_nodes targetComm with
  | Some sourceNode, Some targetNode =>
      let sourceCommunity := community sourceNode in
      let targetCommunity := community targetNode in
      if (sourceCommunity =? targetCommunity)%Z then edges
      else
        let sourceLayoutNodes :=
          filter (fun n => (clusterId n =? sourceCommunity)%Z) nodes in
        let targetLayoutNodes :=
          filter (fun n => (clusterId n =? targetCommunity)%Z) nodes in
        match sourceLayoutNodes, targetLayoutNodes with
        | s :: _, t :: _ => edges ++ [mkLayoutEdge s t (edge_weight edge)]
        | _, _ => edges
        end
  | _, _ => edges
  end.

(** [createEdges(nodes)] *)
Definition createEdges (graph_nodes : list GraphNode) (graph_edges : list InputEdge)
    (nodes : list LayoutNode) : list LayoutEdge :=
  fold_left (createEdge graph_nodes nodes) graph_edges [].

(** [members.slice(start, stop)] for [start <= stop]. *)
Definition slice {A : Type} (start stop : nat) (l : list A) : list A :=
  firstn (stop - start) (skipn start l).

(** [Math.ceil(a / b)] for a positive [b]. *)
Definition ceil_div (a b : nat) : nat := (a + b - 1) / b.

(** The members that [finalizeLayout] gives to one layout node:
    [layoutNodes] is the whole list, [earlier] the nodes before this one
    (its index among the nodes of its community is the number of earlier
    nodes of that community). The node itself is in [layoutNodes], so the
    divisor is positive. *)
Definition assigned_members (nodesByCommunity : list (Z * list GraphNode))
    (layoutNodes earlier : list LayoutNode) (layoutNode : LayoutNode) : list GraphNode :=
  let members := members_of nodesByCommunity (clusterId layoutNode) in
  let inCommunity :=
    filter (fun n => (clusterId n =? clusterId layoutNode)%Z) layoutNodes in
  let nodesPerLayoutNode := ceil_div (length members) (length inCommunity) in
  let layoutNodeIndex :=
    length (filter (fun n => (clusterId n =? clusterId layoutNode)%Z) earlier) in
  let startIdx := (layoutNodeIndex * nodesPerLayoutNode)%nat in
  slice startIdx (startIdx + nodesPerLayoutNode) members.

(** [layoutNodes.forEach] of [finalizeLayout]: every layout node with its
    assigned members. *)
Fixpoint assignments (nodesByCommunity : list (Z * list GraphNode))
    (layoutNodes earlier rest : list LayoutNode) : list (LayoutNode * list GraphNode) :=
  match rest with
  | [] => []
  | layoutNode :: rest' =>
      (layoutNode, assigned_members nodesByCommunity layoutNodes earlier layoutNode)
      :: assignments nodesByCommunity layoutNodes (earlier ++ [layoutNode]) rest'
  end.

Definition member_assignments (nodesByCommunity : list (Z * list GraphNode))
    (layoutNodes : list LayoutNode) : list (LayoutNode * list GraphNode) :=
  assignments nodesByCommunity layoutNodes [] layoutNodes.

(** The [x] and [y] that [main] writes for one node. *)
Definition serialized_x (nodes : list Positioned) (node : Positioned) : JsNum :=
  let b := bounding_box nodes in
  normalize (pos_x node) (minX b) (js_sub (maxX b) (minX b)).

Definition serialized_y (nodes : list Positioned) (node : Positioned) : JsNum :=
  let b := bounding_box nodes in
  normalize (pos_y node) (minY b) (js_sub (maxY b) (minY b)).

End LayoutGraph.

Module LayoutGraphSamples.
Import Layout LayoutGraph.

(** A generator whose every state returns a number in [0, 1). *)
Definition alternating_random (b : bool) : Q * bool :=
  (if b then 1 # 4 else 3 # 4, negb b).

(** Four graph nodes in two communities and one layout node for each. *)
Definition graph_nodes : list GraphNode :=
  [mkGraphNode 1 7; mkGraphNode 2 7; mkGraphNode 3 8; mkGraphNode 4 8].
Definition layout_nodes : list LayoutNode :=
  [mkLayoutNode 7 7 0 0 0 0; mkLayoutNode 8 8 0 10 10 180].
Definition graph_edges : list InputEdge :=
  [ObjectEdge (mkEdge 1 2 (1 # 2)); ObjectEdge (mkEdge 2 3 0); ArrayEdge 4 1 (3 # 4);
   ObjectEdge (mkEdge 1 99 1)].
End LayoutGraphSamples.

(** [child] is what [subdivideNodes] makes of [parentNode] at its [i]-th
    turn, for some pair of draws in [0, 1): the id, cluster, tier and hue
    are fixed, the position lies within 25 of the parent's on each axis. *)
Definition jittered_child (currentTier : nat) (parentNode : Layout.LayoutNode) (i : Z)
    (child : Layout.LayoutNode) : Prop :=
  Layout.ln_id child = (Layout.clusterId parentNode * 1000 + i)%Z
  /\ Layout.clusterId child = Layout.clusterId parentNode
  /\ Layout.tier child = currentTier
  /\ Layout.hue child = Layout.hue parentNode
  /\ Layout.x parentNode - 25 <= Layout.x child < Layout.x parentNode + 25
  /\ Layout.y parentNode - 25 <= Layout.y child < Layout.y parentNode + 25.

(** * Properties *)

(** ** Facts about the helpers *)

Lemma Qltb_lt (x y : Q) : Qltb x y = true <-> x < y.
Proof.
  unfold Qltb. rewrite negb_true_iff. split; intro H.
  - apply Qnot_le_lt. intro Hle. apply Qle_bool_iff in Hle. congruence.
  - destruct (Qle_bool y x) eqn:E; [|reflexivity].
    apply Qle_bool_iff in E. exfalso. apply (Qlt_not_le _ _ H E).
Qed.

Lemma Qltb_ge (x y : Q) : Qltb x y = false <-> y <= x.
Proof.
  unfold Qltb. rewrite negb_false_iff. apply Qle_bool_iff.
Qed.

Lemma QofNat_nonneg (n : nat) : 0 <= QofNat n.
Proof.
  unfold QofNat, Qle. simpl. lia.
Qed.

Lemma QofNat_le (a b : nat) : (a <= b)%nat -> QofNat a <= QofNat b.
Proof.
  intro H. unfold QofNat. rewrite <- Zle_Qle. lia.
Qed.

Lemma QofN_le (a b : N) : (a <= b)%N -> QofN a <= QofN b.
Proof.
  intro H. unfold QofN. rewrite <- Zle_Qle. lia.
Qed.

Lemma Qdiv_le_1 (a b : Q) : 0 <= a -> a <= b -> a / b <= 1.
Proof.
  intros Ha Hab.
  destruct (Qlt_le_dec 0 b) as [Hb | Hb].
  - apply Qle_shift_div_r; [exact Hb | lra].
  - assert (Hb0 : b == 0) by lra.
    rewrite Hb0. unfold Qdiv, Qinv. simpl. lra.
Qed.

Lemma Qdiv_nonneg (a b : Q) : 0 <= a -> 0 <= b -> 0 <= a / b.
Proof.
  intros Ha Hb.
  destruct (Qlt_le_dec 0 b) as [Hb' | Hb'].
  - apply Qle_shift_div_l; [exact Hb' | lra].
  - assert (Hb0 : b == 0) by lra.
    rewrite Hb0. unfold Qdiv, Qinv. simpl. lra.
Qed.

Section SetFacts.
Context {A : Type} (eqb : A -> A -> bool).
Hypothesis eqb_spec : forall x y, reflect (x = y) (eqb x y).

Lemma includes_In (l : list A) (x : A) : JsMap.includes eqb l x = true <-> In x l.
Proof.
  unfold JsMap.includes. rewrite existsb_exists. split.
  - intros [y [Hy He]]. destruct (eqb_spec x y); [subst; assumption | discriminate].
  - intro H. exists x. split; [assumption|]. destruct (eqb_spec x x); congruence.
Qed.

Lemma add_In (s : list A) (x y : A) : In y (JsMap.add eqb s x) <-> In y s \/ y = x.
Proof.
  unfold JsMap.add. destruct (JsMap.includes eqb s x) eqn:E.
  - apply includes_In in E. split; [tauto | intros [H | ->]; assumption].
  - rewrite in_app_iff. simpl. intuition congruence.
Qed.

Lemma add_NoDup (s : list A) (x : A) : NoDup s -> NoDup (JsMap.add eqb s x).
Proof.
  intro H. unfold JsMap.add. destruct (JsMap.includes eqb s x) eqn:E; [assumption|].
  apply NoDup_app; [assumption | constructor; [intros [] | constructor] |].
  intros a Ha [<- | []].
  apply includes_In in Ha. congruence.
Qed.

Lemma fold_add_In (l acc : list A) (y : A) :
  In y (fold_left (JsMap.add eqb) l acc) <-> In y acc \/ In y l.
Proof.
  revert acc. induction l as [| x l IH]; intro acc; simpl.
  - tauto.
  - rewrite IH, add_In. intuition congruence.
Qed.

Lemma fold_add_NoDup (l acc : list A) :
  NoDup acc -> NoDup (fold_left (JsMap.add eqb) l acc).
Proof.
  revert acc. induction l as [| x l IH]; intros acc H; simpl.
  - assumption.
  - apply IH, add_NoDup, H.
Qed.

Lemma set_of_In (l : list A) (y : A) : In y (JsMap.set_of eqb l) <-> In y l.
Proof.
  unfold JsMap.set_of. rewrite fold_add_In. simpl. tauto.
Qed.

Lemma set_of_NoDup (l : list A) : NoDup (JsMap.set_of eqb l).
Proof.
  apply fold_add_NoDup. constructor.
Qed.

(** On a duplicate-free first argument the intersection is no larger than
    the union, so the coefficient lies in [[0, 1]]. *)
Lemma jaccardSimilarity_range (setA setB : list A) :
  NoDup setA ->
  0 <= jaccardSimilarity eqb setA setB /\ jaccardSimilarity eqb setA setB <= 1.
Proof.
  intro HA. unfold jaccardSimilarity.
  destruct ((length setA =? 0)%nat && (length setB =? 0)%nat)%bool; [lra|].
  assert (Hlen : (length (filter (fun item => JsMap.includes eqb setB item) setA)
                  <= length (JsMap.set_of eqb (setA ++ setB)))%nat).
  { apply Nat.le_trans with (length setA).
    - apply filter_length_le.
    - apply NoDup_incl_length; [assumption|].
      intros a Ha. apply set_of_In, in_or_app. left. exact Ha. }
  split.
  - apply Qdiv_nonneg; apply QofNat_nonneg.
  - apply Qdiv_le_1; [apply QofNat_nonneg | apply QofNat_le, Hlen].
Qed.
End SetFacts.

(** ** Metadata similarity: range of the score *)

Lemma tag_step_match_le_total (tagMapA tagMapB : list (string * N))
    (st : N * N) (tag : string) :
  (snd st <= fst st)%N ->
  (snd (tag_step tagMapA tagMapB st tag) <= fst (tag_step tagMapA tagMapB st tag))%N.
Proof.
  destruct st as [totalWeight matchWeight]. unfold tag_step. simpl. intro H.
  destruct ((0 <? rank_or_0 tagMapA tag)%N && (0 <? rank_or_0 tagMapB tag)%N)%bool;
    simpl; lia.
Qed.

Lemma tag_loop_match_le_total (tagMapA tagMapB : list (string * N))
    (allTags : list string) (st : N * N) :
  (snd st <= fst st)%N ->
  (snd (fold_left (tag_step tagMapA tagMapB) allTags st)
   <= fst (fold_left (tag_step tagMapA tagMapB) allTags st))%N.
Proof.
  revert st. induction allTags as [| tag rest IH]; intros st H; simpl.
  - exact H.
  - apply IH, tag_step_match_le_total, H.
Qed.

Lemma tagSimilarity_range (tagsA tagsB : list Tag) :
  0 <= tagSimilarity tagsA tagsB /\ tagSimilarity tagsA tagsB <= 1.
Proof.
  unfold tagSimilarity.
  set (tagMapA := JsMap.of_entries String.eqb _).
  set (tagMapB := JsMap.of_entries String.eqb _).
  set (allTags := JsMap.set_of String.eqb _).
  pose proof (tag_loop_match_le_total tagMapA tagMapB allTags (0%N, 0%N)) as H.
  destruct (fold_left (tag_step tagMapA tagMapB) allTags (0%N, 0%N))
    as [totalWeight matchWeight].
  simpl in H. specialize (H (N.le_refl _)).
  destruct (0 <? totalWeight)%N; [|lra].
  assert (H0 : forall n, 0 <= QofN n).
  { intro n. unfold QofN, Qle. simpl. lia. }
  split.
  - apply Qdiv_nonneg; apply H0.
  - apply Qdiv_le_1; [apply H0 | apply QofN_le, H].
Qed.

Lemma add_factor_bounded (acc : Acc) (sim w : Q) :
  0 <= sim -> sim <= 1 -> 0 <= w -> bounded_acc acc -> bounded_acc (add_factor acc sim w).
Proof.
  intros H0 H1 Hw [Ha Hb]. unfold bounded_acc, add_factor. simpl. split.
  - assert (0 <= sim * w) by (apply Qmult_le_0_compat; assumption). lra.
  - assert (sim * w <= 1 * w) by (apply Qmult_le_compat_r; assumption). lra.
Qed.

Lemma genre_block_bounded (a b : Anime) (acc : Acc) :
  NoDup (genres a) -> bounded_acc acc -> bounded_acc (genre_block a b acc).
Proof.
  intros Hd H. unfold genre_block.
  destruct (nonempty (genres a) && nonempty (genres b))%bool; [|exact H].
  destruct (jaccardSimilarity_range String.eqb String.eqb_spec (genres a) (genres b) Hd).
  apply add_factor_bounded; try assumption. lra.
Qed.

Lemma tag_block_bounded (a b : Anime) (acc : Acc) :
  bounded_acc acc -> bounded_acc (tag_block a b acc).
Proof.
  intro H. unfold tag_block.
  destruct (nonempty (tags a) && nonempty (tags b))%bool; [|exact H].
  match goal with |- bounded_acc (if ?c then _ else _) => destruct c end; [|exact H].
  match goal with |- context [tagSimilarity ?ta ?tb] =>
    destruct (tagSimilarity_range ta tb) end.
  apply add_factor_bounded; try assumption. lra.
Qed.

Lemma studio_block_bounded (a b : Anime) (acc : Acc) :
  NoDup (studios a) -> bounded_acc acc -> bounded_acc (studio_block a b acc).
Proof.
  intros Hd H. unfold studio_block.
  destruct (nonempty (studios a) && nonempty (studios b))%bool; [|exact H].
  destruct (jaccardSimilarity_range Z.eqb Z.eqb_spec (studios a) (studios b) Hd).
  apply add_factor_bounded; try assumption. lra.
Qed.

Lemma staff_block_bounded (a b : Anime) (acc : Acc) :
  NoDup (staff a) -> bounded_acc acc -> bounded_acc (staff_block a b acc).
Proof.
  intros Hd H. unfold staff_block.
  destruct (nonempty (staff a) && nonempty (staff b))%bool; [|exact H].
  destruct (jaccardSimilarity_range Z.eqb Z.eqb_spec (staff a) (staff b) Hd).
  apply add_factor_bounded; try assumption. lra.
Qed.

Lemma format_block_bounded (a b : Anime) (acc : Acc) :
  bounded_acc acc -> bounded_acc (format_block a b acc).
Proof.
  intros [H0 H1]. unfold format_block.
  match goal with |- bounded_acc (if ?c then _ else _) => destruct c end;
    unfold bounded_acc; simpl; split; lra.
Qed.

Lemma season_block_bounded (a b : Anime) (acc : Acc) :
  bounded_acc acc -> bounded_acc (season_block a b acc).
Proof.
  intro H. unfold season_block.
  destruct (seasonYear a) as [ya|]; [|exact H].
  destruct (seasonYear b) as [yb|]; [|exact H].
  destruct (negb (ya =? 0)%Z && negb (yb =? 0)%Z)%bool; [|exact H].
  destruct (Z.leb_spec (Z.abs (ya - yb)) 2) as [Hd | Hd]; [|exact H].
  assert (Hq : 0 <= inject_Z (Z.abs (ya - yb)) <= 2).
  { split; [change 0 with (inject_Z 0) | change 2 with (inject_Z 2)];
      rewrite <- Zle_Qle; lia. }
  apply add_factor_bounded; try assumption; try lra.
  - apply Qle_shift_div_l; lra.
  - apply Qle_shift_div_r; lra.
Qed.

Lemma relation_block_bounded (a b : Anime) (acc : Acc) :
  bounded_acc acc -> bounded_acc (relation_block a b acc).
Proof.
  intros [H0 H1]. unfold relation_block.
  destruct (JsMap.includes Z.eqb (relations a) (anime_id b));
    unfold bounded_acc; simpl; split; lra.
Qed.

Lemma similarity_and_weights_bounded (a b : Anime) :
  NoDup (genres a) -> NoDup (studios a) -> NoDup (staff a) ->
  bounded_acc (similarity_and_weights a b).
Proof.
  intros Hg Hs Hf. unfold similarity_and_weights.
  apply relation_block_bounded, season_block_bounded, format_block_bounded,
    staff_block_bounded; [exact Hf|].
  apply studio_block_bounded; [exact Hs|].
  apply tag_block_bounded, genre_block_bounded; [exact Hg|].
  unfold bounded_acc. simpl. lra.
Qed.

Lemma computeAnimeSimilarity_le_1 (a b : Anime) :
  duplicate_free a -> computeAnimeSimilarity a b <= 1.
Proof.
  intros (Hg & _ & Hs & Hf). unfold computeAnimeSimilarity.
  pose proof (similarity_and_weights_bounded a b Hg Hs Hf) as [H0 H1].
  destruct (similarity_and_weights a b) as [similarity weights]. simpl in *.
  destruct (Qltb 0 weights) eqn:E; [|lra].
  apply Qltb_lt in E. apply Qle_shift_div_r; lra.
Qed.

Lemma similarities_from_weight (threshold : Q) (a : Anime) (rest : list Anime) (e : Edge) :
  In e (similarities_from threshold a rest) ->
  exists b, In b rest /\ weight e = computeAnimeSimilarity a b
            /\ source e = anime_id a /\ target e = anime_id b.
Proof.
  induction rest as [| b rest IH]; simpl; [intros []|].
  destruct (Qle_bool threshold (computeAnimeSimilarity a b)).
  - intros [<- | H].
    + exists b. simpl. auto.
    + destruct (IH H) as [b' [Hb' Hw]]. exists b'. auto.
  - intro H. destruct (IH H) as [b' [Hb' Hw]]. exists b'. auto.
Qed.

Lemma computeSimilarities_weight (threshold : Q) (animeList : list Anime) (e : Edge) :
  In e (computeSimilarities threshold animeList) ->
  exists a b, In a animeList /\ In b animeList
              /\ weight e = computeAnimeSimilarity a b.
Proof.
  induction animeList as [| a rest IH]; simpl; [intros []|].
  rewrite in_app_iff. intros [H | H].
  - destruct (similarities_from_weight _ _ _ _ H) as [b [Hb [Hw _]]].
    exists a, b. auto.
  - destruct (IH H) as [a' [b' [Ha' [Hb' Hw]]]]. exists a', b'. auto.
Qed.

(** C2. In metadata mode, for items whose genres, tags, studio ids and
    staff ids are duplicate-free sets, the similarity score never exceeds
    1, and so neither does the weight of any edge that
    [computeSimilarities] emits, at any threshold. *)
Theorem C2_score_at_most_one :
  (forall a b : Anime,
      duplicate_free a -> duplicate_free b -> computeAnimeSimilarity a b <= 1)
  /\ (forall (threshold : Q) (animeList : list Anime) (e : Edge),
         Forall duplicate_free animeList ->
         In e (computeSimilarities threshold animeList) ->
         weight e <= 1).
Proof.
  split.
  - intros a b Ha _. apply computeAnimeSimilarity_le_1, Ha.
  - intros threshold animeList e Hall He.
    destruct (computeSimilarities_weight _ _ _ He) as [a [b [Ha [_ ->]]]].
    apply computeAnimeSimilarity_le_1.
    rewrite Forall_forall in Hall. apply Hall, Ha.
Qed.

Ltac solve_NoDup :=
  repeat (constructor; [simpl; intuition discriminate |]); constructor.

Lemma C2_score_at_most_one_witness :
  computeAnimeSimilarity Samples.drama_a Samples.drama_b <= 1
  /\ weight (mkEdge 1 2 (computeAnimeSimilarity Samples.drama_a Samples.drama_b)) <= 1.
Proof.
  assert (Ha : duplicate_free Samples.drama_a).
  { unfold duplicate_free; simpl; repeat split; solve_NoDup. }
  assert (Hb : duplicate_free Samples.drama_b).
  { unfold duplicate_free; simpl; repeat split; solve_NoDup. }
  split.
  - apply (proj1 C2_score_at_most_one); assumption.
  - apply (proj2 C2_score_at_most_one MIN_SIMILARITY
                 [Samples.drama_a; Samples.drama_b]).
    + constructor; [exact Ha | constructor; [exact Hb | constructor]].
    + left. reflexivity.
Defined.

(** ** Metadata similarity: the direct-relation factor looks one way *)

(** C1. Symmetry fails on the direct-relation factor: the function looks
    up the second item in the first item's relation list only. For a
    sequel that lists its prequel while the prequel does not list the
    sequel, the score is 2/5 one way and 0 the other way, and whether the
    pair becomes an edge at the default threshold depends on the order of
    the two items in the input. *)
Theorem C1_relation_factor_one_sided :
  computeAnimeSimilarity Samples.sequel Samples.prequel == 2 # 5
  /\ computeAnimeSimilarity Samples.prequel Samples.sequel == 0
  /\ ~ (computeAnimeSimilarity Samples.sequel Samples.prequel
        == computeAnimeSimilarity Samples.prequel Samples.sequel)
  /\ length (computeSimilarities MIN_SIMILARITY [Samples.sequel; Samples.prequel]) = 1%nat
  /\ computeSimilarities MIN_SIMILARITY [Samples.prequel; Samples.sequel] = [].
Proof.
  repeat split; try reflexivity.
  vm_compute. discriminate.
Qed.

(** Apart from that factor the function is symmetric on sets: if each of
    the two items lists the other exactly when the other lists it, and the
    genre, studio and staff lists have no duplicates, the two scores are
    equal. *)

Section SymmetricJaccard.
Context {A : Type} (eqb : A -> A -> bool).
Hypothesis eqb_spec : forall x y, reflect (x = y) (eqb x y).

Lemma intersection_length_sym (l1 l2 : list A) :
  NoDup l1 -> NoDup l2 ->
  length (filter (fun item => JsMap.includes eqb l2 item) l1)
  = length (filter (fun item => JsMap.includes eqb l1 item) l2).
Proof.
  intros H1 H2. apply Permutation_length, NoDup_Permutation.
  - apply NoDup_filter, H1.
  - apply NoDup_filter, H2.
  - intro x. rewrite !filter_In, !(includes_In eqb eqb_spec). tauto.
Qed.

Lemma union_length_sym (l1 l2 : list A) :
  length (JsMap.set_of eqb (l1 ++ l2)) = length (JsMap.set_of eqb (l2 ++ l1)).
Proof.
  apply Permutation_length, NoDup_Permutation;
    try apply (set_of_NoDup eqb eqb_spec).
  intro x. rewrite !(set_of_In eqb eqb_spec), !in_app_iff. tauto.
Qed.

Lemma jaccardSimilarity_sym (l1 l2 : list A) :
  NoDup l1 -> NoDup l2 -> jaccardSimilarity eqb l1 l2 = jaccardSimilarity eqb l2 l1.
Proof.
  intros H1 H2. unfold jaccardSimilarity.
  rewrite (andb_comm (length l1 =? 0)%nat), (intersection_length_sym l1 l2 H1 H2),
    (union_length_sym l1 l2).
  reflexivity.
Qed.
End SymmetricJaccard.

Lemma tag_step_swap (mA mB : list (string * N)) (st : N * N) (tag : string) :
  tag_step mA mB st tag = tag_step mB mA st tag.
Proof.
  destruct st as [t m]. unfold tag_step.
  rewrite (N.max_comm (rank_or_0 mA tag)), (N.min_comm (rank_or_0 mA tag)),
    (andb_comm (0 <? rank_or_0 mA tag)%N).
  reflexivity.
Qed.

Lemma tag_step_commute (mA mB : list (string * N)) (st : N * N) (t1 t2 : string) :
  tag_step mA mB (tag_step mA mB st t1) t2 = tag_step mA mB (tag_step mA mB st t2) t1.
Proof.
  destruct st as [t m]. unfold tag_step.
  destruct ((0 <? rank_or_0 mA t1)%N && (0 <? rank_or_0 mB t1)%N)%bool,
           ((0 <? rank_or_0 mA t2)%N && (0 <? rank_or_0 mB t2)%N)%bool;
    f_equal; lia.
Qed.

Lemma tag_loop_permutation (mA mB : list (string * N)) (l l' : list string) :
  Permutation l l' ->
  forall st, fold_left (tag_step mA mB) l st = fold_left (tag_step mA mB) l' st.
Proof.
  induction 1 as [| x l l' _ IH | x y l | l l' l'' _ IH1 _ IH2]; intro st; simpl.
  - reflexivity.
  - apply IH.
  - rewrite tag_step_commute. reflexivity.
  - rewrite IH1. apply IH2.
Qed.

Lemma tag_loop_swap (mA mB : list (string * N)) (l : list string) (st : N * N) :
  fold_left (tag_step mA mB) l st = fold_left (tag_step mB mA) l st.
Proof.
  revert st. induction l as [| t l IH]; intro st; simpl; [reflexivity|].
  rewrite tag_step_swap. apply IH.
Qed.

Lemma tagSimilarity_sym (tagsA tagsB : list Tag) :
  tagSimilarity tagsA tagsB = tagSimilarity tagsB tagsA.
Proof.
  unfold tagSimilarity.
  set (mA := JsMap.of_entries String.eqb (map _ tagsA)).
  set (mB := JsMap.of_entries String.eqb (map _ tagsB)).
  rewrite (tag_loop_swap mB mA).
  rewrite (tag_loop_permutation mA mB
             (JsMap.set_of String.eqb (JsMap.keys mB ++ JsMap.keys mA))
             (JsMap.set_of String.eqb (JsMap.keys mA ++ JsMap.keys mB))).
  - reflexivity.
  - apply NoDup_Permutation; try apply (set_of_NoDup String.eqb String.eqb_spec).
    intro x. rewrite !(set_of_In String.eqb String.eqb_spec), !in_app_iff. tauto.
Qed.

Lemma option_string_eqb_sym (a b : option string) :
  option_string_eqb a b = option_string_eqb b a.
Proof.
  destruct a, b; simpl; try reflexivity. apply String.eqb_sym.
Qed.

Lemma season_block_sym (a b : Anime) (acc : Acc) :
  season_block a b acc = season_block b a acc.
Proof.
  unfold season_block.
  destruct (seasonYear a) as [ya|], (seasonYear b) as [yb|]; try reflexivity.
  rewrite (andb_comm (negb (ya =? 0)%Z)).
  replace (Z.abs (yb - ya)) with (Z.abs (ya - yb)) by lia.
  reflexivity.
Qed.

(** The score does not depend on the order of the two items when the
    relation factor is two-sided or absent (each item lists the other, or
    neither does) and the genre, studio and staff lists have no
    duplicates. *)
Lemma similarity_symmetric_when_relations_mutual (a b : Anime) :
  NoDup (genres a) -> NoDup (genres b) ->
  NoDup (studios a) -> NoDup (studios b) ->
  NoDup (staff a) -> NoDup (staff b) ->
  JsMap.includes Z.eqb (relations a) (anime_id b)
  = JsMap.includes Z.eqb (relations b) (anime_id a) ->
  computeAnimeSimilarity a b = computeAnimeSimilarity b a.
Proof.
  intros Hga Hgb Hsa Hsb Hfa Hfb Hrel.
  assert (Hgenre : forall acc, genre_block a b acc = genre_block b a acc).
  { intro acc. unfold genre_block.
    rewrite (andb_comm (nonempty (genres a))),
      (jaccardSimilarity_sym String.eqb String.eqb_spec _ _ Hga Hgb).
    reflexivity. }
  assert (Htag : forall acc, tag_block a b acc = tag_block b a acc).
  { intro acc. unfold tag_block.
    rewrite (andb_comm (nonempty (tags a))),
      (andb_comm (nonempty (filter _ (tags a)))), tagSimilarity_sym.
    reflexivity. }
  assert (Hstudio : forall acc, studio_block a b acc = studio_block b a acc).
  { intro acc. unfold studio_block.
    rewrite (andb_comm (nonempty (studios a))),
      (jaccardSimilarity_sym Z.eqb Z.eqb_spec _ _ Hsa Hsb).
    reflexivity. }
  assert (Hstaff : forall acc, staff_block a b acc = staff_block b a acc).
  { intro acc. unfold staff_block.
    rewrite (andb_comm (nonempty (staff a))),
      (jaccardSimilarity_sym Z.eqb Z.eqb_spec _ _ Hfa Hfb).
    reflexivity. }
  assert (Hformat : forall acc, format_block a b acc = format_block b a acc).
  { intro acc. unfold format_block.
    rewrite (andb_comm (truthy_string (format a))), option_string_eqb_sym.
    reflexivity. }
  assert (Hrelation : forall acc, relation_block a b acc = relation_block b a acc).
  { intro acc. unfold relation_block. rewrite Hrel. reflexivity. }
  unfold computeAnimeSimilarity, similarity_and_weights.
  rewrite Hrelation, season_block_sym, Hformat, Hstaff, Hstudio, Htag, Hgenre.
  reflexivity.
Qed.

(** ** Metadata similarity: threshold monotonicity *)

Lemma similarities_from_filter (lo hi : Q) (a : Anime) (rest : list Anime) :
  lo <= hi ->
  similarities_from hi a rest
  = filter (fun e => Qle_bool hi (weight e)) (similarities_from lo a rest).
Proof.
  intro Hle. induction rest as [| b rest IH]; simpl; [reflexivity|].
  destruct (Qle_bool hi (computeAnimeSimilarity a b)) eqn:Ehi.
  - assert (Elo : Qle_bool lo (computeAnimeSimilarity a b) = true).
    { apply Qle_bool_iff. apply Qle_bool_iff in Ehi. eapply Qle_trans; eassumption. }
    rewrite Elo. simpl. rewrite Ehi, IH. reflexivity.
  - destruct (Qle_bool lo (computeAnimeSimilarity a b)); simpl.
    + rewrite Ehi. exact IH.
    + exact IH.
Qed.

Lemma computeSimilarities_filter (lo hi : Q) (animeList : list Anime) :
  lo <= hi ->
  computeSimilarities hi animeList
  = filter (fun e => Qle_bool hi (weight e)) (computeSimilarities lo animeList).
Proof.
  intro Hle. induction animeList as [| a rest IH]; simpl; [reflexivity|].
  rewrite filter_app, <- IH, <- (similarities_from_filter lo hi a rest Hle).
  reflexivity.
Qed.

(** C8. For a fixed item list, the edges emitted at a higher threshold are
    among the edges emitted at any lower threshold (they are exactly those
    of the lower run whose weight reaches the higher threshold), so raising
    the threshold never increases the edge count. *)
Theorem C8_threshold_monotone (lo hi : Q) (animeList : list Anime) :
  lo <= hi ->
  incl (computeSimilarities hi animeList) (computeSimilarities lo animeList)
  /\ (length (computeSimilarities hi animeList)
      <= length (computeSimilarities lo animeList))%nat.
Proof.
  intro Hle. rewrite (computeSimilarities_filter lo hi animeList Hle). split.
  - apply incl_filter.
  - apply filter_length_le.
Qed.

Lemma C8_threshold_monotone_witness :
  incl (computeSimilarities (1 # 2) [Samples.sequel; Samples.prequel; Samples.show_2010])
       (computeSimilarities (1 # 4) [Samples.sequel; Samples.prequel; Samples.show_2010])
  /\ (length (computeSimilarities (1 # 2)
                [Samples.sequel; Samples.prequel; Samples.show_2010])
      <= length (computeSimilarities (1 # 4)
                   [Samples.sequel; Samples.prequel; Samples.show_2010]))%nat.
Proof.
  apply (C8_threshold_monotone (1 # 4) (1 # 2)). vm_compute. discriminate.
Defined.

(** ** Metadata similarity: the season-year factor *)

Lemma relation_block_shift (a b : Anime) (acc : Acc) (s w : Q) :
  fst (relation_block a b (fst acc + s, snd acc + w)) == fst (relation_block a b acc) + s
  /\ snd (relation_block a b (fst acc + s, snd acc + w)) == snd (relation_block a b acc) + w.
Proof.
  unfold relation_block.
  destruct (JsMap.includes Z.eqb (relations a) (anime_id b)); simpl; split; lra.
Qed.

Lemma season_block_far (a b : Anime) (yearA yearB : Z) (acc : Acc) :
  seasonYear a = Some yearA -> seasonYear b = Some yearB ->
  (2 < Z.abs (yearA - yearB))%Z ->
  season_block a b acc = acc.
Proof.
  intros Ha Hb Hd. unfold season_block. rewrite Ha, Hb.
  destruct (negb (yearA =? 0)%Z && negb (yearB =? 0)%Z)%bool; [|reflexivity].
  destruct (Z.leb_spec (Z.abs (yearA - yearB)) 2); [lia | reflexivity].
Qed.

Lemma season_block_near (a b : Anime) (yearA yearB : Z) (acc : Acc) :
  seasonYear a = Some yearA -> seasonYear b = Some yearB ->
  yearA <> 0%Z -> yearB <> 0%Z ->
  (Z.abs (yearA - yearB) <= 2)%Z ->
  season_block a b acc
  = (fst acc + (3 - inject_Z (Z.abs (yearA - yearB))) / 3 * (3 # 10), snd acc + (3 # 10)).
Proof.
  intros Ha Hb Hna Hnb Hd. unfold season_block. rewrite Ha, Hb.
  destruct (Z.eqb_spec yearA 0); [contradiction|].
  destruct (Z.eqb_spec yearB 0); [contradiction|]. simpl.
  destruct (Z.leb_spec (Z.abs (yearA - yearB)) 2); [reflexivity | lia].
Qed.

Lemma season_block_missing (a b : Anime) (acc : Acc) :
  seasonYear a = None \/ seasonYear a = Some 0%Z
  \/ seasonYear b = None \/ seasonYear b = Some 0%Z ->
  season_block a b acc = acc.
Proof.
  unfold season_block.
  intros [H | [H | [H | H]]]; rewrite H;
    destruct (seasonYear a) as [ya |], (seasonYear b) as [yb |];
    try reflexivity; try discriminate;
    cbn [Z.eqb negb andb]; try reflexivity.
  destruct (negb (ya =? 0)%Z); reflexivity.
Qed.

(** C7 (as the code has it). The season block changes the accumulated
    pair in one case only: both items carry a (non-zero) season year and
    the years are at most 2 apart. Its value is then [(3 - d) / 3] for a
    difference of [d] years, and its weight 0.3 joins the denominator.
    When the years are more than 2 apart, and when one side has no season
    year, the block leaves the pair as it is: the factor is out of
    numerator and denominator alike, the accumulated pair is the one of
    the other six blocks, and the score is the one of the pair without
    season years. *)
Theorem C7_season_factor_within_two_years (a b : Anime) :
  (forall yearA yearB,
      seasonYear a = Some yearA -> seasonYear b = Some yearB ->
      yearA <> 0%Z -> yearB <> 0%Z ->
      ((Z.abs (yearA - yearB) <= 2)%Z ->
         (forall acc,
             season_block a b acc
             = (fst acc + (3 - inject_Z (Z.abs (yearA - yearB))) / 3 * (3 # 10),
                snd acc + (3 # 10)))
         /\ similarity_and_weights a b
            = relation_block a b
                (fst (factors_before_season a b)
                 + (3 - inject_Z (Z.abs (yearA - yearB))) / 3 * (3 # 10),
                 snd (factors_before_season a b) + (3 # 10))
         /\ fst (similarity_and_weights a b)
            == fst (similarity_and_weights (without_seasonYear a) b)
               + (3 - inject_Z (Z.abs (yearA - yearB))) / 3 * (3 # 10)
         /\ snd (similarity_and_weights a b)
            == snd (similarity_and_weights (without_seasonYear a) b) + (3 # 10))
      /\ ((2 < Z.abs (yearA - yearB))%Z ->
         (forall acc, season_block a b acc = acc)
         /\ similarity_and_weights a b = relation_block a b (factors_before_season a b)
         /\ similarity_and_weights a b = similarity_and_weights (without_seasonYear a) b
         /\ computeAnimeSimilarity a b = computeAnimeSimilarity (without_seasonYear a) b))
  /\ (seasonYear a = None \/ seasonYear a = Some 0%Z
      \/ seasonYear b = None \/ seasonYear b = Some 0%Z ->
      (forall acc, season_block a b acc = acc)
      /\ similarity_and_weights a b = relation_block a b (factors_before_season a b)
      /\ similarity_and_weights a b
         = similarity_and_weights (without_seasonYear a) (without_seasonYear b)
      /\ computeAnimeSimilarity a b
         = computeAnimeSimilarity (without_seasonYear a) (without_seasonYear b)).
Proof.
  assert (Hwithout : forall c acc, season_block (without_seasonYear a) c acc = acc)
    by reflexivity.
  assert (Hsame : similarity_and_weights (without_seasonYear a) b
                  = relation_block a b (factors_before_season a b)).
  { unfold similarity_and_weights. rewrite Hwithout. reflexivity. }
  assert (Hboth : similarity_and_weights (without_seasonYear a) (without_seasonYear b)
                  = relation_block a b (factors_before_season a b)).
  { unfold similarity_and_weights. rewrite Hwithout. reflexivity. }
  split.
  - intros yearA yearB Ha Hb Hna Hnb. split; intro Hd.
    + assert (Hnear : forall acc,
                 season_block a b acc
                 = (fst acc + (3 - inject_Z (Z.abs (yearA - yearB))) / 3 * (3 # 10),
                    snd acc + (3 # 10)))
        by (intro acc; apply (season_block_near a b yearA yearB acc Ha Hb Hna Hnb Hd)).
      assert (E : similarity_and_weights a b
                  = relation_block a b
                      (fst (factors_before_season a b)
                       + (3 - inject_Z (Z.abs (yearA - yearB))) / 3 * (3 # 10),
                       snd (factors_before_season a b) + (3 # 10))).
      { unfold similarity_and_weights. fold (factors_before_season a b).
        rewrite Hnear. reflexivity. }
      split; [exact Hnear|]. split; [exact E|].
      rewrite E, Hsame. apply relation_block_shift.
    + assert (Hfar : forall acc, season_block a b acc = acc)
        by (intro acc; apply (season_block_far a b yearA yearB acc Ha Hb Hd)).
      assert (E : similarity_and_weights a b
                  = relation_block a b (factors_before_season a b)).
      { unfold similarity_and_weights. fold (factors_before_season a b).
        rewrite Hfar. reflexivity. }
      split; [exact Hfar|]. split; [exact E|].
      split; [rewrite E, Hsame; reflexivity|].
      unfold computeAnimeSimilarity. rewrite E, Hsame. reflexivity.
  - intro Hmissing.
    assert (Hnone : forall acc, season_block a b acc = acc)
      by (intro acc; apply season_block_missing, Hmissing).
    assert (E : similarity_and_weights a b
                = relation_block a b (factors_before_season a b)).
    { unfold similarity_and_weights. fold (factors_before_season a b).
      rewrite Hnone. reflexivity. }
    split; [exact Hnone|]. split; [exact E|].
    split; [rewrite E, Hboth; reflexivity|].
    unfold computeAnimeSimilarity. rewrite E, Hboth. reflexivity.
Qed.

Lemma C7_season_factor_within_two_years_witness :
  (fst (similarity_and_weights Samples.show_2020 Samples.show_2021)
     == fst (similarity_and_weights (without_seasonYear Samples.show_2020) Samples.show_2021)
        + (3 - inject_Z (Z.abs (2020 - 2021))) / 3 * (3 # 10)
   /\ snd (similarity_and_weights Samples.show_2020 Samples.show_2021)
     == snd (similarity_and_weights (without_seasonYear Samples.show_2020) Samples.show_2021)
        + (3 # 10))
  /\ (similarity_and_weights Samples.show_2020 Samples.show_2010
      = similarity_and_weights (without_seasonYear Samples.show_2020) Samples.show_2010
      /\ computeAnimeSimilarity Samples.show_2020 Samples.show_2010
         = computeAnimeSimilarity (without_seasonYear Samples.show_2020) Samples.show_2010)
  /\ (similarity_and_weights Samples.show_2020 Samples.prequel
      = relation_block Samples.show_2020 Samples.prequel
          (factors_before_season Samples.show_2020 Samples.prequel)
      /\ computeAnimeSimilarity Samples.show_2020 Samples.prequel
         = computeAnimeSimilarity (without_seasonYear Samples.show_2020)
             (without_seasonYear Samples.prequel)).
Proof.
  split; [|split].
  - apply (proj1 (proj1 (C7_season_factor_within_two_years
                           Samples.show_2020 Samples.show_2021) 2020%Z 2021%Z
                    eq_refl eq_refl ltac:(discriminate) ltac:(discriminate))).
    simpl. lia.
  - apply (proj2 (proj1 (C7_season_factor_within_two_years
                           Samples.show_2020 Samples.show_2010) 2020%Z 2010%Z
                    eq_refl eq_refl ltac:(discriminate) ltac:(discriminate))).
    simpl. lia.
  - apply (proj2 (C7_season_factor_within_two_years Samples.show_2020 Samples.prequel)).
    right. right. left. reflexivity.
Defined.

(** C7 as stated fails: two items of the same genre whose season years
    are ten years apart score 3/3 = 1; the weight 0.3 is not in the
    denominator (which is 3, not 3.3). *)
Lemma C7_far_years_counterexample :
  seasonYear Samples.show_2020 = Some 2020%Z
  /\ seasonYear Samples.show_2010 = Some 2010%Z
  /\ snd (similarity_and_weights Samples.show_2020 Samples.show_2010) == 3
  /\ ~ (snd (similarity_and_weights Samples.show_2020 Samples.show_2010)
        == snd (similarity_and_weights (without_seasonYear Samples.show_2020)
                                       Samples.show_2010) + (3 # 10))
  /\ computeAnimeSimilarity Samples.show_2020 Samples.show_2010 == 1.
Proof.
  repeat split; try reflexivity.
  vm_compute. discriminate.
Qed.

(** ** Metadata similarity: spoiler tags *)

Lemma filter_idempotent {A : Type} (f : A -> bool) (l : list A) :
  filter f (filter f l) = filter f l.
Proof.
  induction l as [| x l IH]; simpl; [reflexivity|].
  destruct (f x) eqn:E; simpl; [rewrite E, IH|]; auto.
Qed.

Lemma nonempty_filter {A : Type} (f : A -> bool) (l : list A) :
  nonempty (filter f l) = true -> nonempty l = true.
Proof.
  destruct l; simpl; [discriminate | reflexivity].
Qed.

Lemma filter_all_spoilers (ts : list Tag) :
  forallb isMediaSpoiler ts = true ->
  filter (fun t => negb (isMediaSpoiler t)) ts = [].
Proof.
  induction ts as [| t ts IH]; simpl; [reflexivity|].
  intro H. apply andb_true_iff in H as [Ht Hts]. rewrite Ht. simpl. auto.
Qed.

Lemma tag_block_without_spoilers (a b : Anime) (acc : Acc) :
  tag_block a b acc = tag_block (without_spoilers a) (without_spoilers b) acc.
Proof.
  unfold tag_block, without_spoilers, with_tags. cbn [tags].
  rewrite !filter_idempotent.
  set (tagsA := filter (fun t => negb (isMediaSpoiler t)) (tags a)).
  set (tagsB := filter (fun t => negb (isMediaSpoiler t)) (tags b)).
  destruct (nonempty tagsA) eqn:EA, (nonempty tagsB) eqn:EB; simpl.
  - rewrite (nonempty_filter _ _ EA), (nonempty_filter _ _ EB). reflexivity.
  - destruct (nonempty (tags a) && nonempty (tags b))%bool; reflexivity.
  - destruct (nonempty (tags a) && nonempty (tags b))%bool; reflexivity.
  - destruct (nonempty (tags a) && nonempty (tags b))%bool; reflexivity.
Qed.

Lemma tag_block_all_spoilers (a b : Anime) (acc : Acc) :
  forallb isMediaSpoiler (tags a) = true \/ forallb isMediaSpoiler (tags b) = true ->
  tag_block a b acc = acc.
Proof.
  intro H. unfold tag_block.
  destruct (nonempty (tags a) && nonempty (tags b))%bool; [|reflexivity].
  destruct H as [H | H]; rewrite (filter_all_spoilers _ H); simpl;
    [|rewrite andb_false_r]; reflexivity.
Qed.

(** C9. The tag factor is computed on the tags that are not marked as
    spoilers: the accumulated pair and the score of two items are those of
    the same items with their spoiler tags removed. If all tags of one of
    the items are spoilers, the tag factor and its weight 2.5 are left out
    of numerator and denominator, exactly as if that item had no tags. *)
Theorem C9_spoiler_tags_ignored (a b : Anime) :
  similarity_and_weights a b
    = similarity_and_weights (without_spoilers a) (without_spoilers b)
  /\ computeAnimeSimilarity a b
    = computeAnimeSimilarity (without_spoilers a) (without_spoilers b)
  /\ (forallb isMediaSpoiler (tags a) = true ->
      tag_block a b = (fun acc => acc)
      /\ similarity_and_weights a b = similarity_and_weights (without_tags a) b
      /\ computeAnimeSimilarity a b = computeAnimeSimilarity (without_tags a) b)
  /\ (forallb isMediaSpoiler (tags b) = true ->
      tag_block a b = (fun acc => acc)
      /\ similarity_and_weights a b = similarity_and_weights a (without_tags b)
      /\ computeAnimeSimilarity a b = computeAnimeSimilarity a (without_tags b)).
Proof.
  assert (E1 : similarity_and_weights a b
               = similarity_and_weights (without_spoilers a) (without_spoilers b)).
  { unfold similarity_and_weights.
    change (genre_block (without_spoilers a) (without_spoilers b))
      with (genre_block a b).
    rewrite <- tag_block_without_spoilers. reflexivity. }
  split; [exact E1|]. split; [unfold computeAnimeSimilarity; rewrite E1; reflexivity|].
  assert (Hno_a : forall acc, tag_block (without_tags a) b acc = acc) by reflexivity.
  assert (Hno_b : forall acc, tag_block a (without_tags b) acc = acc).
  { intro acc. unfold tag_block, without_tags, with_tags. cbn [tags].
    simpl. rewrite andb_false_r. reflexivity. }
  split; intro H.
  - assert (Hid : forall acc, tag_block a b acc = acc)
      by (intro acc; apply tag_block_all_spoilers; left; exact H).
    assert (E : similarity_and_weights a b = similarity_and_weights (without_tags a) b).
    { unfold similarity_and_weights. rewrite Hid, Hno_a. reflexivity. }
    split; [|split; [exact E | unfold computeAnimeSimilarity; rewrite E; reflexivity]].
    unfold tag_block.
    destruct (nonempty (tags a) && nonempty (tags b))%bool; [|reflexivity].
    rewrite (filter_all_spoilers _ H). reflexivity.
  - assert (Hid : forall acc, tag_block a b acc = acc)
      by (intro acc; apply tag_block_all_spoilers; right; exact H).
    assert (E : similarity_and_weights a b = similarity_and_weights a (without_tags b)).
    { unfold similarity_and_weights. rewrite Hid, Hno_b. reflexivity. }
    split; [|split; [exact E | unfold computeAnimeSimilarity; rewrite E; reflexivity]].
    unfold tag_block.
    destruct (nonempty (tags a) && nonempty (tags b))%bool; [|reflexivity].
    rewrite (filter_all_spoilers _ H). simpl. rewrite andb_false_r. reflexivity.
Qed.

Lemma C9_spoiler_tags_ignored_witness :
  (tag_block Samples.spoiled Samples.tagged = (fun acc => acc)
   /\ similarity_and_weights Samples.spoiled Samples.tagged
      = similarity_and_weights (without_tags Samples.spoiled) Samples.tagged
   /\ computeAnimeSimilarity Samples.spoiled Samples.tagged
      = computeAnimeSimilarity (without_tags Samples.spoiled) Samples.tagged)
  /\ (tag_block Samples.tagged Samples.spoiled = (fun acc => acc)
      /\ similarity_and_weights Samples.tagged Samples.spoiled
         = similarity_and_weights Samples.tagged (without_tags Samples.spoiled)
      /\ computeAnimeSimilarity Samples.tagged Samples.spoiled
         = computeAnimeSimilarity Samples.tagged (without_tags Samples.spoiled)).
Proof.
  split.
  - apply (proj1 (proj2 (proj2 (C9_spoiler_tags_ignored Samples.spoiled Samples.tagged)))).
    reflexivity.
  - apply (proj2 (proj2 (proj2 (C9_spoiler_tags_ignored Samples.tagged Samples.spoiled)))).
    reflexivity.
Defined.

(** ** Genre communities *)

Section MapFacts.
Context {K V : Type} (eqb : K -> K -> bool).
Hypothesis eqb_spec : forall x y, reflect (x = y) (eqb x y).

Lemma get_Some_In_keys (m : list (K * V)) (k : K) (v : V) :
  JsMap.get eqb m k = Some v -> In k (JsMap.keys m).
Proof.
  induction m as [| [k' v'] m IH]; simpl; [discriminate|].
  destruct (eqb_spec k' k); [auto | intro H; right; exact (IH H)].
Qed.

Lemma has_In_keys (m : list (K * V)) (k : K) :
  JsMap.has eqb m k = true -> In k (JsMap.keys m).
Proof.
  unfold JsMap.has. destruct (JsMap.get eqb m k) eqn:E; [|discriminate].
  intros _. eapply get_Some_In_keys, E.
Qed.

Lemma get_set_same (m : list (K * V)) (k : K) (v : V) :
  JsMap.get eqb (JsMap.set eqb m k v) k = Some v.
Proof.
  induction m as [| [k' v'] m IH]; simpl.
  - destruct (eqb_spec k k); congruence.
  - destruct (eqb_spec k' k) as [E | E]; simpl.
    + destruct (eqb_spec k' k); congruence.
    + destruct (eqb_spec k' k); [contradiction | exact IH].
Qed.

Lemma get_set_other (m : list (K * V)) (k k' : K) (v : V) :
  k <> k' -> JsMap.get eqb (JsMap.set eqb m k v) k' = JsMap.get eqb m k'.
Proof.
  intro Hne. induction m as [| [k0 v0] m IH]; simpl.
  - destruct (eqb_spec k k'); [contradiction | reflexivity].
  - destruct (eqb_spec k0 k) as [E | E]; simpl.
    + subst k0. destruct (eqb_spec k k'); [contradiction | reflexivity].
    + destruct (eqb_spec k0 k'); [reflexivity | exact IH].
Qed.
End MapFacts.

Lemma genreToCommunity_keys :
  JsMap.keys GenreCommunities.genreToCommunity = GenreCommunities.primaryGenres.
Proof. reflexivity. Qed.

Lemma genreToCommunity_index (k : nat) (g : string) :
  nth_error GenreCommunities.primaryGenres k = Some g ->
  JsMap.get String.eqb GenreCommunities.genreToCommunity g = Some k.
Proof.
  intro H.
  do 15 (destruct k as [| k]; [injection H as <-; reflexivity |]).
  destruct k; discriminate.
Qed.

Lemma not_primary_no_entry (g : string) :
  ~ In g GenreCommunities.primaryGenres ->
  JsMap.has String.eqb GenreCommunities.genreToCommunity g = false.
Proof.
  intro H.
  destruct (JsMap.has String.eqb GenreCommunities.genreToCommunity g) eqn:E;
    [|reflexivity].
  exfalso. apply H. rewrite <- genreToCommunity_keys.
  apply (has_In_keys String.eqb String.eqb_spec), E.
Qed.

Lemma first_matching_skips (pre rest : list string) :
  (forall h, In h pre -> ~ In h GenreCommunities.primaryGenres) ->
  GenreCommunities.first_matching (pre ++ rest) = GenreCommunities.first_matching rest.
Proof.
  induction pre as [| h pre IH]; intro H; [reflexivity|].
  change (GenreCommunities.first_matching ((h :: pre) ++ rest))
    with (if JsMap.has String.eqb GenreCommunities.genreToCommunity h
          then JsMap.get String.eqb GenreCommunities.genreToCommunity h
          else GenreCommunities.first_matching (pre ++ rest)).
  rewrite (not_primary_no_entry h) by (apply H; left; reflexivity).
  apply IH. intros h' Hh'. apply H. right. exact Hh'.
Qed.

(** C5 (as the code has it). GenreAssignment walks the item's own genre
    list and stops at the first genre that is one of the fifteen canonical
    genres; the item's community is the position of that genre in the
    canonical list. An item none of whose genres is canonical (in
    particular an item without genres) goes to the default community 15.
    The community is a function of the genre list alone. *)
Theorem C5_first_canonical_genre_of_item (node_genres : list string) :
  (forall (pre post : list string) (g : string) (k : nat),
      node_genres = pre ++ g :: post ->
      (forall h, In h pre -> ~ In h GenreCommunities.primaryGenres) ->
      nth_error GenreCommunities.primaryGenres k = Some g ->
      GenreCommunities.community_of node_genres = k)
  /\ ((forall h, In h node_genres -> ~ In h GenreCommunities.primaryGenres) ->
      GenreCommunities.community_of node_genres = 15%nat
      /\ GenreCommunities.defaultCommunity = 15%nat).
Proof.
  split.
  - intros pre post g k -> Hpre Hk.
    unfold GenreCommunities.community_of.
    assert (Hne : nonempty (pre ++ g :: post) = true).
    { unfold nonempty. rewrite length_app. simpl. apply Nat.ltb_lt. lia. }
    rewrite Hne, (first_matching_skips pre (g :: post) Hpre).
    pose proof (genreToCommunity_index k g Hk) as Hget.
    change (GenreCommunities.first_matching (g :: post))
      with (if JsMap.has String.eqb GenreCommunities.genreToCommunity g
            then JsMap.get String.eqb GenreCommunities.genreToCommunity g
            else GenreCommunities.first_matching post).
    unfold JsMap.has. rewrite Hget. reflexivity.
  - intro Hnone. split; [|reflexivity].
    unfold GenreCommunities.community_of.
    destruct (nonempty node_genres); [|reflexivity].
    rewrite <- (app_nil_r node_genres), (first_matching_skips node_genres [] Hnone).
    reflexivity.
Qed.

Lemma C5_first_canonical_genre_of_item_witness :
  GenreCommunities.community_of ["Isekai"; "Drama"; "Action"]%string = 3%nat
  /\ (GenreCommunities.community_of ["Isekai"; "Ecchi"]%string = 15%nat
      /\ GenreCommunities.defaultCommunity = 15%nat).
Proof.
  split.
  - apply (proj1 (C5_first_canonical_genre_of_item ["Isekai"; "Drama"; "Action"]%string)
                 ["Isekai"%string] ["Action"%string] "Drama"%string 3%nat).
    + reflexivity.
    + simpl. intros h [<- | []]. intuition discriminate.
    + reflexivity.
  - apply (proj2 (C5_first_canonical_genre_of_item ["Isekai"; "Ecchi"]%string)).
    simpl. intros h [<- | [<- | []]]; intuition discriminate.
Defined.

(** C5 as stated fails: an item with genres Drama, Action possesses
    Action, the first genre of the priority list, yet it is put in the
    community of Drama (3), the first canonical genre of its own list. *)
Lemma C5_priority_order_counterexample :
  In "Action"%string ["Drama"; "Action"]%string
  /\ nth_error GenreCommunities.primaryGenres 0 = Some "Action"%string
  /\ GenreCommunities.priority_first GenreCommunities.primaryGenres 0
       ["Drama"; "Action"]%string = Some 0%nat
  /\ GenreCommunities.community_of ["Drama"; "Action"]%string = 3%nat
  /\ GenreCommunities.community_of ["Drama"; "Action"]%string <> 0%nat.
Proof.
  repeat split; try reflexivity.
  - right. left. reflexivity.
  - discriminate.
Qed.

(** ** No isolated node is emitted *)

Lemma nodeIds_In (es : list Edge) (acc : list Z) (k : Z) :
  In k (fold_left (fun s edge =>
                     JsMap.add Z.eqb (JsMap.add Z.eqb s (source edge)) (target edge))
                  es acc)
  <-> In k acc \/ exists e, In e es /\ (source e = k \/ target e = k).
Proof.
  revert acc. induction es as [| e es IH]; intro acc; simpl.
  - split; [auto | intros [H | [e [[] _]]]; exact H].
  - rewrite IH, !(add_In Z.eqb Z.eqb_spec). split.
    + intros [[[H | H] | H] | [e' [He' Hk]]]; eauto 6.
    + intros [H | [e' [[<- | He'] [Hk | Hk]]]]; eauto 6.
Qed.

Lemma buildGraph_connected (animeList : list Anime) (es : list Edge) (n : Node) :
  In n (nodes (buildGraph animeList es)) ->
  exists e, In e (edges (buildGraph animeList es))
            /\ (source e = node_id n \/ target e = node_id n).
Proof.
  unfold buildGraph. simpl. intro H.
  apply filter_In in H as [_ H].
  apply (includes_In Z.eqb Z.eqb_spec) in H.
  apply nodeIds_In in H as [[] | H]. exact H.
Qed.

Lemma degree_fold_zero (k : Z) (es : list (Z * Z * Q)) (d : nat) :
  fold_left (fun d e =>
               let '(s, t, _) := e in
               (d + (if (s =? k)%Z then 1 else 0) + (if (t =? k)%Z then 1 else 0))%nat)
            es d = 0%nat ->
  d = 0%nat /\ forall s t w, In (s, t, w) es -> s <> k /\ t <> k.
Proof.
  revert d. induction es as [| [[s t] w] es IH]; intros d H; simpl in *.
  - split; [exact H | intros ? ? ? []].
  - apply IH in H as [Hd Hes].
    destruct (Z.eqb_spec s k), (Z.eqb_spec t k); try lia.
    split; [lia|].
    intros s' t' w' [E | Hin]; [injection E as <- <- <-; auto | eauto].
Qed.

Lemma degree_fold_positive (k : Z) (es : list (Z * Z * Q)) (d : nat) :
  fold_left (fun d e =>
               let '(s, t, _) := e in
               (d + (if (s =? k)%Z then 1 else 0) + (if (t =? k)%Z then 1 else 0))%nat)
            es d <> 0%nat ->
  d <> 0%nat \/ exists s t w, In (s, t, w) es /\ (s = k \/ t = k).
Proof.
  revert d. induction es as [| [[s t] w] es IH]; intros d H; simpl in *.
  - left. exact H.
  - destruct (Z.eqb_spec s k) as [Es | Es]; [right; exists s, t, w; auto|].
    destruct (Z.eqb_spec t k) as [Et | Et]; [right; exists s, t, w; auto|].
    destruct (IH _ H) as [Hd | (s' & t' & w' & Hin & Hk)].
    + left. lia.
    + right. exists s', t', w'. auto.
Qed.

Lemma degree_positive (g : Graphology.UGraph) (k : Z) :
  Graphology.degree g k <> 0%nat ->
  exists s t w, In (s, t, w) (Graphology.g_edges g) /\ (s = k \/ t = k).
Proof.
  unfold Graphology.degree. intro H.
  apply degree_fold_positive in H as [H | H]; [contradiction | exact H].
Qed.

Lemma degree_zero_no_edge (g : Graphology.UGraph) (k : Z) (s t : Z) (w : Q) :
  Graphology.degree g k = 0%nat -> In (s, t, w) (Graphology.g_edges g) ->
  s <> k /\ t <> k.
Proof.
  unfold Graphology.degree. intros H Hin.
  apply degree_fold_zero in H as [_ H]. eapply H, Hin.
Qed.

Lemma dropNodes_nodes (ks : list Z) (g : Graphology.UGraph) (n : Z * Graphology.Attributes) :
  In n (Graphology.g_nodes (fold_left Graphology.dropNode ks g))
  <-> In n (Graphology.g_nodes g) /\ ~ In (fst n) ks.
Proof.
  revert g. induction ks as [| k ks IH]; intro g; simpl.
  - tauto.
  - rewrite IH. unfold Graphology.dropNode. simpl. rewrite filter_In.
    destruct (Z.eqb_spec (fst n) k); simpl; intuition congruence.
Qed.

Lemma dropNodes_edges (ks : list Z) (g : Graphology.UGraph) (s t : Z) (w : Q) :
  In (s, t, w) (Graphology.g_edges (fold_left Graphology.dropNode ks g))
  <-> In (s, t, w) (Graphology.g_edges g) /\ ~ In s ks /\ ~ In t ks.
Proof.
  revert g. induction ks as [| k ks IH]; intro g; simpl.
  - tauto.
  - rewrite IH. unfold Graphology.dropNode. simpl. rewrite filter_In.
    destruct (Z.eqb_spec s k), (Z.eqb_spec t k); simpl; intuition congruence.
Qed.

Lemma remove_isolated_connected (g : Graphology.UGraph) (n : Z * Graphology.Attributes) :
  In n (Graphology.g_nodes (Recommendation.remove_isolated g)) ->
  exists s t w, In (s, t, w) (Graphology.g_edges (Recommendation.remove_isolated g))
                /\ (s = fst n \/ t = fst n).
Proof.
  unfold Recommendation.remove_isolated.
  set (isolated := map fst (filter _ (Graphology.g_nodes g))).
  intro H. apply dropNodes_nodes in H as [Hn Hkeep].
  assert (Hiso : forall k, In k isolated -> Graphology.degree g k = 0%nat).
  { intros k Hk. apply in_map_iff in Hk as [m [<- Hm]].
    apply filter_In in Hm as [_ Hm]. apply Nat.eqb_eq, Hm. }
  assert (Hdeg : Graphology.degree g (fst n) <> 0%nat).
  { intro Hz. apply Hkeep. apply in_map_iff. exists n. split; [reflexivity|].
    apply filter_In. split; [exact Hn | apply Nat.eqb_eq, Hz]. }
  destruct (degree_positive g (fst n) Hdeg) as (s & t & w & Hin & Hk).
  exists s, t, w. split; [|exact Hk].
  apply dropNodes_edges. split; [exact Hin|].
  split; intro Hbad; apply Hiso in Hbad;
    destruct (degree_zero_no_edge g _ s t w Hbad Hin); congruence.
Qed.

(** C10. In both modes the emitted graph has no isolated node. Metadata
    mode: every node [buildGraph] keeps is the source or the target of one
    of the edges. Recommendation mode: whenever [buildRecommendationGraph]
    returns a graph, every node that [graphToJSON] emits for it is the
    source or the target of one of the emitted edges. *)
Theorem C10_every_node_has_an_edge :
  (forall (animeList : list Anime) (es : list Edge) (n : Node),
      In n (nodes (buildGraph animeList es)) ->
      exists e, In e (edges (buildGraph animeList es))
                /\ (source e = node_id n \/ target e = node_id n))
  /\ (forall (animeList : list Recommendation.RecAnime) (g : Graphology.UGraph)
             (n : Recommendation.JsonNode),
         Recommendation.buildRecommendationGraph animeList = Some g ->
         In n (fst (Recommendation.graphToJSON g)) ->
         exists e, In e (snd (Recommendation.graphToJSON g))
                   /\ (source e = Recommendation.json_id n
                       \/ target e = Recommendation.json_id n)).
Proof.
  split.
  - apply buildGraph_connected.
  - intros animeList g n Hg Hn.
    unfold Recommendation.buildRecommendationGraph in Hg.
    destruct (Recommendation.add_all_nodes animeList) as [g0|]; [|discriminate].
    injection Hg as <-.
    unfold Recommendation.graphToJSON in *. simpl in *.
    apply in_map_iff in Hn as [m [<- Hm]].
    destruct (remove_isolated_connected _ m Hm) as (s & t & w & Hin & Hk).
    exists (mkEdge s t w). split; [|exact Hk].
    apply in_map_iff. exists (s, t, w). split; [reflexivity | exact Hin].
Qed.

Lemma C10_every_node_has_an_edge_witness :
  (exists e, In e (edges (buildGraph RecSamples.meta_list
                             (computeSimilarities MIN_SIMILARITY RecSamples.meta_list)))
             /\ (source e = 1%Z \/ target e = 1%Z))
  /\ (exists g, Recommendation.buildRecommendationGraph RecSamples.rec_list = Some g
                /\ length (fst (Recommendation.graphToJSON g)) = 2%nat
                /\ exists e, In e (snd (Recommendation.graphToJSON g))
                             /\ (source e = 2%Z \/ target e = 2%Z)).
Proof.
  split.
  - apply (proj1 C10_every_node_has_an_edge RecSamples.meta_list
                 (computeSimilarities MIN_SIMILARITY RecSamples.meta_list)
                 (mkNode 1 "One" ["Action"%string] 100 None None)).
    left. reflexivity.
  - eexists. split; [reflexivity|]. split; [reflexivity|].
    apply (proj2 C10_every_node_has_an_edge RecSamples.rec_list _
                 (Recommendation.mkJsonNode 2
                    (Graphology.mkAttributes "Two" ["Drama"%string] 90))).
    + reflexivity.
    + right. left. reflexivity.
Defined.

(** ** Normalization to world space *)

Lemma Qminb_spec (p q : Q) :
  (Layout.Qminb p q = p \/ Layout.Qminb p q = q)
  /\ Layout.Qminb p q <= p /\ Layout.Qminb p q <= q.
Proof.
  unfold Layout.Qminb. destruct (Qle_bool p q) eqn:E.
  - apply Qle_bool_iff in E. repeat split; auto; lra.
  - apply (Qltb_lt q p) in E || (assert (q < p) by (apply Qltb_lt; unfold Qltb; rewrite E; reflexivity)).
    repeat split; auto; lra.
Qed.

Lemma Qmaxb_spec (p q : Q) :
  (Layout.Qmaxb p q = p \/ Layout.Qmaxb p q = q)
  /\ p <= Layout.Qmaxb p q /\ q <= Layout.Qmaxb p q.
Proof.
  unfold Layout.Qmaxb. destruct (Qle_bool p q) eqn:E.
  - apply Qle_bool_iff in E. repeat split; auto; lra.
  - assert (q < p) by (apply Qltb_lt; unfold Qltb; rewrite E; reflexivity).
    repeat split; auto; lra.
Qed.

Lemma box_step_first (node : Layout.Positioned) :
  encloses (Layout.box_step (Layout.mkBox Layout.PosInf Layout.NegInf Layout.PosInf Layout.NegInf)
                     node) [node].
Proof.
  exists (Layout.pos_x node), (Layout.pos_x node), (Layout.pos_y node), (Layout.pos_y node).
  split; [reflexivity|].
  intros n [<- | []]. lra.
Qed.

Lemma box_step_encloses (b : Layout.Box) (seen : list Layout.Positioned)
    (node : Layout.Positioned) :
  encloses b seen -> encloses (Layout.box_step b node) (seen ++ [node]).
Proof.
  intros (m & M & m' & M' & -> & H).
  unfold Layout.box_step. simpl.
  exists (Layout.Qminb m (Layout.pos_x node)), (Layout.Qmaxb M (Layout.pos_x node)),
         (Layout.Qminb m' (Layout.pos_y node)), (Layout.Qmaxb M' (Layout.pos_y node)).
  split; [reflexivity|].
  destruct (Qminb_spec m (Layout.pos_x node)) as (_ & ? & ?).
  destruct (Qmaxb_spec M (Layout.pos_x node)) as (_ & ? & ?).
  destruct (Qminb_spec m' (Layout.pos_y node)) as (_ & ? & ?).
  destruct (Qmaxb_spec M' (Layout.pos_y node)) as (_ & ? & ?).
  intros n Hn. apply in_app_iff in Hn as [Hn | [<- | []]].
  - destruct (H n Hn) as [[? ?] [? ?]]. repeat split; lra.
  - repeat split; lra.
Qed.

Lemma box_loop_encloses (rest seen : list Layout.Positioned) (b : Layout.Box) :
  encloses b seen -> encloses (fold_left Layout.box_step rest b) (seen ++ rest).
Proof.
  revert seen b. induction rest as [| node rest IH]; intros seen b H; simpl.
  - rewrite app_nil_r. exact H.
  - replace (seen ++ node :: rest) with ((seen ++ [node]) ++ rest)
      by (rewrite <- app_assoc; reflexivity).
    apply IH, box_step_encloses, H.
Qed.

Lemma bounding_box_encloses (nodes : list Layout.Positioned) :
  nodes <> [] -> encloses (Layout.bounding_box nodes) nodes.
Proof.
  destruct nodes as [| node rest]; [congruence | intros _].
  change (Layout.bounding_box (node :: rest))
    with (fold_left Layout.box_step rest
            (Layout.box_step (Layout.mkBox Layout.PosInf Layout.NegInf
                                    Layout.PosInf Layout.NegInf) node)).
  apply (box_loop_encloses rest [node]), box_step_first.
Qed.

Lemma normalize_in_world (v m M : Q) :
  m <= v <= M -> ~ M - m == 0 ->
  Layout.in_world (Layout.normalize v (Layout.Fin m) (Layout.Fin (M - m))).
Proof.
  intros [Hlo Hhi] Hne.
  unfold Layout.normalize, Layout.js_round, Layout.js_mul, Layout.js_div,
    Layout.js_sub, Layout.Qzero.
  destruct (Qeq_bool (M - m) 0) eqn:E; [apply Qeq_bool_iff in E; contradiction|].
  assert (Hpos : 0 < M - m).
  { destruct (Qlt_le_dec 0 (M - m)) as [Hlt | Hle]; [exact Hlt|].
    exfalso. apply Hne. lra. }
  set (t := (v - m) / (M - m)).
  assert (Ht0 : 0 <= t) by (apply Qle_shift_div_l; [exact Hpos | lra]).
  assert (Ht1 : t <= 1) by (apply Qle_shift_div_r; [exact Hpos | lra]).
  exists (Qfloor (t * Layout.scale + (1 # 2))). split; [reflexivity|].
  unfold Layout.scale. split.
  - change 0%Z with (Qfloor 0). apply Qfloor_resp_le. lra.
  - assert (Hle : t * 20000 + (1 # 2) <= 20000 + (1 # 2)) by lra.
    apply Qfloor_resp_le in Hle.
    replace (Qfloor (20000 + (1 # 2))) with 20000%Z in Hle by reflexivity.
    exact Hle.
Qed.

(** Away from the degenerate case the serializer does what the
    specification asks: on an axis along which two nodes differ, every
    coordinate is an integer between 0 and 20000. *)
Lemma serialize_in_world_when_spread (nodes : list Layout.Positioned) :
  (forall x y, In (x, y) (Layout.serialize_coordinates nodes) ->
     (exists n1 n2, In n1 nodes /\ In n2 nodes
                    /\ ~ Layout.pos_x n1 == Layout.pos_x n2) ->
     Layout.in_world x)
  /\ (forall x y, In (x, y) (Layout.serialize_coordinates nodes) ->
     (exists n1 n2, In n1 nodes /\ In n2 nodes
                    /\ ~ Layout.pos_y n1 == Layout.pos_y n2) ->
     Layout.in_world y).
Proof.
  assert (Hbox : nodes <> [] -> encloses (Layout.bounding_box nodes) nodes)
    by apply bounding_box_encloses.
  unfold Layout.serialize_coordinates.
  split; intros x y Hin (n1 & n2 & H1 & H2 & Hne);
    (assert (Hnn : nodes <> []) by (destruct nodes; [destruct H1 | discriminate]));
    destruct (Hbox Hnn) as (m & M & m' & M' & Eb & Hall); rewrite Eb in Hin;
    simpl in Hin;
    apply in_map_iff in Hin as [n [E Hn]]; injection E as <- <-;
    destruct (Hall n Hn) as [Hx Hy];
    destruct (Hall n1 H1) as [Hx1 Hy1]; destruct (Hall n2 H2) as [Hx2 Hy2];
    apply normalize_in_world; try assumption; intro Hz; apply Hne; lra.
Qed.

Lemma Qminb_same (p q v : Q) : p == v -> q == v -> Layout.Qminb p q == v.
Proof.
  intros Hp Hq. destruct (Qminb_spec p q) as ([-> | ->] & _); assumption.
Qed.

Lemma Qmaxb_same (p q v : Q) : p == v -> q == v -> Layout.Qmaxb p q == v.
Proof.
  intros Hp Hq. destruct (Qmaxb_spec p q) as ([-> | ->] & _); assumption.
Qed.

Lemma box_loop_flat_x (rest : list Layout.Positioned) (b : Layout.Box) (v : Q) :
  (forall n, In n rest -> Layout.pos_x n == v) ->
  (exists m M, Layout.minX b = Layout.Fin m /\ Layout.maxX b = Layout.Fin M
               /\ m == v /\ M == v) ->
  exists m M, Layout.minX (fold_left Layout.box_step rest b) = Layout.Fin m
              /\ Layout.maxX (fold_left Layout.box_step rest b) = Layout.Fin M
              /\ m == v /\ M == v.
Proof.
  revert b. induction rest as [| node rest IH]; intros b Hall Hb; [exact Hb|].
  cbn [fold_left]. apply IH; [intros n Hn; apply Hall; right; exact Hn|].
  destruct Hb as (m & M & Em & EM & Hm & HM).
  assert (Hnode : Layout.pos_x node == v) by (apply Hall; left; reflexivity).
  exists (Layout.Qminb m (Layout.pos_x node)), (Layout.Qmaxb M (Layout.pos_x node)).
  unfold Layout.box_step. cbn [Layout.minX Layout.maxX]. rewrite Em, EM.
  repeat split; [apply Qminb_same | apply Qmaxb_same]; assumption.
Qed.

Lemma box_loop_flat_y (rest : list Layout.Positioned) (b : Layout.Box) (v : Q) :
  (forall n, In n rest -> Layout.pos_y n == v) ->
  (exists m M, Layout.minY b = Layout.Fin m /\ Layout.maxY b = Layout.Fin M
               /\ m == v /\ M == v) ->
  exists m M, Layout.minY (fold_left Layout.box_step rest b) = Layout.Fin m
              /\ Layout.maxY (fold_left Layout.box_step rest b) = Layout.Fin M
              /\ m == v /\ M == v.
Proof.
  revert b. induction rest as [| node rest IH]; intros b Hall Hb; [exact Hb|].
  cbn [fold_left]. apply IH; [intros n Hn; apply Hall; right; exact Hn|].
  destruct Hb as (m & M & Em & EM & Hm & HM).
  assert (Hnode : Layout.pos_y node == v) by (apply Hall; left; reflexivity).
  exists (Layout.Qminb m (Layout.pos_y node)), (Layout.Qmaxb M (Layout.pos_y node)).
  unfold Layout.box_step. cbn [Layout.minY Layout.maxY]. rewrite Em, EM.
  repeat split; [apply Qminb_same | apply Qmaxb_same]; assumption.
Qed.

Lemma normalize_flat (v m M : Q) (w : Q) :
  v == w -> m == w -> M == w ->
  Layout.normalize v (Layout.Fin m) (Layout.js_sub (Layout.Fin M) (Layout.Fin m))
  = Layout.NaN.
Proof.
  intros Hv Hm HM.
  unfold Layout.normalize, Layout.js_sub, Layout.js_div, Layout.Qzero.
  assert (E1 : Qeq_bool (M - m) 0 = true) by (apply Qeq_bool_iff; lra).
  assert (E2 : Qeq_bool (v - m) 0 = true) by (apply Qeq_bool_iff; lra).
  rewrite E1, E2. reflexivity.
Qed.

(** In the degenerate case the serializer yields NaN: on an axis along
    which all nodes have the same coordinate, every serialized coordinate
    is NaN. *)
Lemma serialize_NaN_when_flat (nodes : list Layout.Positioned) (v : Q) :
  ((forall n, In n nodes -> Layout.pos_x n == v) ->
   forall x y, In (x, y) (Layout.serialize_coordinates nodes) -> x = Layout.NaN)
  /\ ((forall n, In n nodes -> Layout.pos_y n == v) ->
      forall x y, In (x, y) (Layout.serialize_coordinates nodes) -> y = Layout.NaN).
Proof.
  unfold Layout.serialize_coordinates, Layout.bounding_box.
  split; intros Hflat x y Hin;
    apply in_map_iff in Hin as [n [E Hn]]; injection E as <- <-;
    (destruct nodes as [| n0 rest]; [destruct Hn|]).
  - assert (Hbox : exists m M,
               Layout.minX (fold_left Layout.box_step (n0 :: rest)
                              (Layout.mkBox Layout.PosInf Layout.NegInf
                                            Layout.PosInf Layout.NegInf))
               = Layout.Fin m
               /\ Layout.maxX (fold_left Layout.box_step (n0 :: rest)
                                 (Layout.mkBox Layout.PosInf Layout.NegInf
                                               Layout.PosInf Layout.NegInf))
                  = Layout.Fin M
               /\ m == v /\ M == v).
    { cbn [fold_left].
      apply (box_loop_flat_x rest); [intros k Hk; apply Hflat; right; exact Hk|].
      exists (Layout.pos_x n0), (Layout.pos_x n0).
      repeat split; apply Hflat; left; reflexivity. }
    destruct Hbox as (m & M & Em & EM & Hm & HM).
    rewrite Em, EM. apply (normalize_flat _ _ _ v); auto.
  - assert (Hbox : exists m M,
               Layout.minY (fold_left Layout.box_step (n0 :: rest)
                              (Layout.mkBox Layout.PosInf Layout.NegInf
                                            Layout.PosInf Layout.NegInf))
               = Layout.Fin m
               /\ Layout.maxY (fold_left Layout.box_step (n0 :: rest)
                                 (Layout.mkBox Layout.PosInf Layout.NegInf
                                               Layout.PosInf Layout.NegInf))
                  = Layout.Fin M
               /\ m == v /\ M == v).
    { cbn [fold_left].
      apply (box_loop_flat_y rest); [intros k Hk; apply Hflat; right; exact Hk|].
      exists (Layout.pos_y n0), (Layout.pos_y n0).
      repeat split; apply Hflat; left; reflexivity. }
    destruct Hbox as (m & M & Em & EM & Hm & HM).
    rewrite Em, EM. apply (normalize_flat _ _ _ v); auto.
Qed.

(** C3. The serializer has no guard for a zero range. A graph with a
    single node has a bounding box of width and height zero; both of its
    coordinates come out as NaN (0/0), not as the integer 0. Two nodes on
    a vertical line get NaN for x and proper integers for y. NaN is not a
    finite integer in [0, worldScale]. *)
Theorem C3_zero_range_yields_NaN :
  Layout.serialize_coordinates LayoutSamples.single = [(Layout.NaN, Layout.NaN)]
  /\ Layout.serialize_coordinates LayoutSamples.vertical
     = [(Layout.NaN, Layout.Fin (inject_Z 0)); (Layout.NaN, Layout.Fin (inject_Z 20000))]
  /\ ~ Layout.in_world Layout.NaN
  /\ Layout.serialize_coordinates LayoutSamples.spread
     = [(Layout.Fin (inject_Z 0), Layout.Fin (inject_Z 0));
        (Layout.Fin (inject_Z 10000), Layout.Fin (inject_Z 20000));
        (Layout.Fin (inject_Z 20000), Layout.Fin (inject_Z 8000))].
Proof.
  repeat split; try reflexivity.
  intros [z [H _]]. discriminate.
Qed.

(** ** Randomized layout steps *)

Section TwoGenerators.
Variables G1 G2 : Type.
Variable random1 : G1 -> Q * G1.
Variable random2 : G2 -> Q * G2.

Lemma spawn_same_draws (currentTier : nat) (parentNode : Layout.LayoutNode)
    (n k : nat) (i : Z) (g1 : G1) (g2 : G2) :
  Layout.draws G1 random1 (2 * n + k) g1 = Layout.draws G2 random2 (2 * n + k) g2 ->
  fst (Layout.spawn G1 random1 currentTier parentNode i n g1)
  = fst (Layout.spawn G2 random2 currentTier parentNode i n g2)
  /\ Layout.draws G1 random1 k (snd (Layout.spawn G1 random1 currentTier parentNode i n g1))
     = Layout.draws G2 random2 k (snd (Layout.spawn G2 random2 currentTier parentNode i n g2)).
Proof.
  revert i g1 g2. induction n as [| n IH]; intros i g1 g2 H.
  - simpl in *. auto.
  - replace (2 * S n + k)%nat with (S (S (2 * n + k))) in H by lia.
    simpl in H. simpl Layout.spawn.
    destruct (random1 g1) as [r1 g1']. destruct (random2 g2) as [s1 g2'].
    destruct (random1 g1') as [r2 g1'']. destruct (random2 g2') as [s2 g2''].
    injection H as -> -> H.
    replace (n + (n + 0) + k)%nat with (2 * n + k)%nat in H by lia.
    destruct (IH (i + 1)%Z g1'' g2'' H) as [Hfst Hsnd].
    destruct (Layout.spawn G1 random1 currentTier parentNode (i + 1) n g1'').
    destruct (Layout.spawn G2 random2 currentTier parentNode (i + 1) n g2'').
    simpl in *. subst. auto.
Qed.

Lemma spawn_length (currentTier : nat) (parentNode : Layout.LayoutNode)
    (n : nat) (i : Z) (g1 : G1) :
  length (fst (Layout.spawn G1 random1 currentTier parentNode i n g1)) = n.
Proof.
  revert i g1. induction n as [| n IH]; intros i g1; simpl; [reflexivity|].
  destruct (random1 g1) as [r1 g1']. destruct (random1 g1') as [r2 g1''].
  specialize (IH (i + 1)%Z g1'').
  destruct (Layout.spawn G1 random1 currentTier parentNode (i + 1) n g1'').
  simpl in *. congruence.
Qed.

Lemma subdivideNodes_same_draws (currentTier : nat)
    (nodesByCommunity : list (Z * list Layout.GraphNode))
    (oldNodes : list Layout.LayoutNode) (k : nat) (g1 : G1) (g2 : G2) :
  Layout.draws G1 random1
    (2 * Layout.children_count currentTier nodesByCommunity oldNodes + k) g1
  = Layout.draws G2 random2
      (2 * Layout.children_count currentTier nodesByCommunity oldNodes + k) g2 ->
  fst (Layout.subdivideNodes G1 random1 currentTier nodesByCommunity oldNodes g1)
  = fst (Layout.subdivideNodes G2 random2 currentTier nodesByCommunity oldNodes g2)
  /\ Layout.draws G1 random1 k
       (snd (Layout.subdivideNodes G1 random1 currentTier nodesByCommunity oldNodes g1))
     = Layout.draws G2 random2 k
         (snd (Layout.subdivideNodes G2 random2 currentTier nodesByCommunity oldNodes g2)).
Proof.
  revert g1 g2. induction oldNodes as [| parentNode rest IH]; intros g1 g2 H.
  - simpl in *. auto.
  - simpl in H. simpl Layout.subdivideNodes.
    set (n := Layout.subgroups currentTier
                (Layout.members_of nodesByCommunity (Layout.clusterId parentNode))) in *.
    set (c := Layout.children_count currentTier nodesByCommunity rest) in *.
    replace (n + c + (n + c + 0) + k)%nat with (2 * n + (2 * c + k))%nat in H by lia.
    destruct (spawn_same_draws currentTier parentNode n (2 * c + k) 0 g1 g2 H)
      as [Hfst Hsnd].
    destruct (Layout.spawn G1 random1 currentTier parentNode 0 n g1) as [ch1 g1'].
    destruct (Layout.spawn G2 random2 currentTier parentNode 0 n g2) as [ch2 g2'].
    simpl in Hfst, Hsnd. subst ch2.
    destruct (IH g1' g2' Hsnd) as [Hfst' Hsnd'].
    destruct (Layout.subdivideNodes G1 random1 currentTier nodesByCommunity rest g1').
    destruct (Layout.subdivideNodes G2 random2 currentTier nodesByCommunity rest g2').
    simpl in *. subst. auto.
Qed.

Lemma subdivideNodes_length (currentTier : nat)
    (nodesByCommunity : list (Z * list Layout.GraphNode))
    (oldNodes : list Layout.LayoutNode) (g1 : G1) :
  length (fst (Layout.subdivideNodes G1 random1 currentTier nodesByCommunity oldNodes g1))
  = Layout.children_count currentTier nodesByCommunity oldNodes.
Proof.
  revert g1. induction oldNodes as [| parentNode rest IH]; intro g1; simpl; [reflexivity|].
  pose proof (spawn_length currentTier parentNode
                (Layout.subgroups currentTier
                   (Layout.members_of nodesByCommunity (Layout.clusterId parentNode)))
                0 g1) as Hlen.
  destruct (Layout.spawn G1 random1 currentTier parentNode 0 _ g1) as [ch g1'].
  specialize (IH g1').
  destruct (Layout.subdivideNodes G1 random1 currentTier nodesByCommunity rest g1').
  simpl in *. rewrite length_app. congruence.
Qed.

(** C4 (as the code has it). The layout steps take no seed: the
    subdivision jitter draws from the ambient generator behind
    [Math.random()]. A subdivision creates a number of children that the
    inputs fix, draws two numbers per child, and is a function of its
    inputs and of these draws: two runs on the same inputs whose
    generators, whatever they are, return the same numbers for these
    draws produce identical nodes. *)
Theorem C4_subdivision_fixed_by_draws (currentTier : nat)
    (nodesByCommunity : list (Z * list Layout.GraphNode))
    (oldNodes : list Layout.LayoutNode) (g1 : G1) (g2 : G2) :
  Layout.draws G1 random1
    (2 * Layout.children_count currentTier nodesByCommunity oldNodes) g1
  = Layout.draws G2 random2
      (2 * Layout.children_count currentTier nodesByCommunity oldNodes) g2 ->
  fst (Layout.subdivideNodes G1 random1 currentTier nodesByCommunity oldNodes g1)
  = fst (Layout.subdivideNodes G2 random2 currentTier nodesByCommunity oldNodes g2)
  /\ length (fst (Layout.subdivideNodes G1 random1 currentTier nodesByCommunity
                                        oldNodes g1))
     = Layout.children_count currentTier nodesByCommunity oldNodes.
Proof.
  intro H. split.
  - apply (subdivideNodes_same_draws currentTier nodesByCommunity oldNodes 0).
    rewrite Nat.add_0_r. exact H.
  - apply subdivideNodes_length.
Qed.

End TwoGenerators.

Lemma C4_subdivision_fixed_by_draws_witness :
  fst (Layout.subdivideNodes Q LayoutSamples.constant_random 1
         LayoutSamples.byCommunity [LayoutSamples.parent] (1 # 4))
  = fst (Layout.subdivideNodes (list Q) LayoutSamples.tape_random 1
           LayoutSamples.byCommunity [LayoutSamples.parent] LayoutSamples.tape)
  /\ length (fst (Layout.subdivideNodes Q LayoutSamples.constant_random 1
                    LayoutSamples.byCommunity [LayoutSamples.parent] (1 # 4)))
     = Layout.children_count 1 LayoutSamples.byCommunity [LayoutSamples.parent].
Proof.
  apply (C4_subdivision_fixed_by_draws Q (list Q) LayoutSamples.constant_random
           LayoutSamples.tape_random 1 LayoutSamples.byCommunity
           [LayoutSamples.parent] (1 # 4) LayoutSamples.tape).
  reflexivity.
Defined.

(** C4 as stated fails: no step takes a seed, and two runs of the
    subdivision on the same parent nodes, the same communities and the
    same tier give different positions when the ambient generator is in a
    different state. *)
Lemma C4_same_inputs_different_layout_counterexample :
  Layout.children_count 1 LayoutSamples.byCommunity [LayoutSamples.parent] = 3%nat
  /\ map Layout.x (fst (Layout.subdivideNodes Q LayoutSamples.constant_random 1
                          LayoutSamples.byCommunity [LayoutSamples.parent] 0))
     = [100 + (0 - (1 # 2)) * 50; 100 + (0 - (1 # 2)) * 50; 100 + (0 - (1 # 2)) * 50]
  /\ fst (Layout.subdivideNodes Q LayoutSamples.constant_random 1
            LayoutSamples.byCommunity [LayoutSamples.parent] 0)
     <> fst (Layout.subdivideNodes Q LayoutSamples.constant_random 1
               LayoutSamples.byCommunity [LayoutSamples.parent] (1 # 2)).
Proof.
  split; [reflexivity|]. split; [reflexivity|].
  vm_compute. discriminate.
Qed.

(** ** Label propagation: the vote *)

Section OrderedMapFacts.
Context {K V : Type} (eqb : K -> K -> bool).
Hypothesis eqb_spec : forall x y, reflect (x = y) (eqb x y).

Lemma keys_set (m : list (K * V)) (k : K) (v : V) :
  JsMap.keys (JsMap.set eqb m k v) = JsMap.add eqb (JsMap.keys m) k.
Proof.
  unfold JsMap.add, JsMap.includes, JsMap.keys.
  induction m as [| [k' v'] m IH]; simpl; [reflexivity|].
  destruct (eqb_spec k' k) as [E | E]; simpl.
  - subst k'. destruct (eqb_spec k k); [reflexivity | congruence].
  - destruct (eqb_spec k k'); [congruence|]. simpl.
    rewrite IH. destruct (existsb (eqb k) (map fst m)); reflexivity.
Qed.

Lemma get_In_NoDup (m : list (K * V)) (k : K) (v : V) :
  NoDup (JsMap.keys m) -> In (k, v) m -> JsMap.get eqb m k = Some v.
Proof.
  induction m as [| [k' v'] m IH]; simpl; [intros _ []|].
  intros Hnd [E | Hin].
  - injection E as -> ->. destruct (eqb_spec k k); congruence.
  - inversion Hnd as [| ? ? Hnotin Hnd']; subst.
    destruct (eqb_spec k' k) as [E | E].
    + subst k'. exfalso. apply Hnotin.
      change k with (fst (k, v)). apply in_map, Hin.
    + apply IH; assumption.
Qed.

Lemma In_keys_entry (m : list (K * V)) (k : K) :
  In k (JsMap.keys m) -> exists v, In (k, v) m.
Proof.
  unfold JsMap.keys. intro H. apply in_map_iff in H as [[k' v] [E Hin]].
  simpl in E. subst k'. exists v. exact Hin.
Qed.
End OrderedMapFacts.

Section FirstOccurrences.
Context {A : Type} (eqb : A -> A -> bool).
Hypothesis eqb_spec : forall x y, reflect (x = y) (eqb x y).

Lemma fold_add_extends (l acc : list A) :
  exists ext, fold_left (JsMap.add eqb) l acc = acc ++ ext.
Proof.
  revert acc. induction l as [| x l IH]; intro acc; simpl.
  - exists []. symmetry. apply app_nil_r.
  - destruct (IH (JsMap.add eqb acc x)) as [ext Hext]. rewrite Hext.
    unfold JsMap.add. destruct (JsMap.includes eqb acc x).
    + exists ext. reflexivity.
    + exists ([x] ++ ext). rewrite app_assoc. reflexivity.
Qed.

Lemma prefix_before (acc ext pre post : list A) (b : A) :
  acc ++ ext = pre ++ b :: post -> ~ In b acc -> forall a, In a acc -> In a pre.
Proof.
  revert pre. induction acc as [| a0 acc IH]; intros pre E Hb a Ha; [destruct Ha|].
  destruct pre as [| p pre]; simpl in E; injection E as E0 E.
  - subst a0. exfalso. apply Hb. left. reflexivity.
  - subst p. destruct Ha as [<- | Ha]; [left; reflexivity|].
    right. apply (IH pre E); [intro Hin; apply Hb; right; exact Hin | exact Ha].
Qed.

(** If [b] sits in the set of first occurrences of [l], everything that
    [l] lists before the first [b] sits before [b] in the set. *)
Lemma fold_add_split (l acc pre' post' : list A) (b : A) :
  fold_left (JsMap.add eqb) l acc = pre' ++ b :: post' -> ~ In b acc ->
  exists pre post, l = pre ++ b :: post /\ forall a, In a pre -> In a pre'.
Proof.
  revert acc. induction l as [| x l IH]; intros acc E Hb; simpl in E.
  - exfalso. apply Hb. rewrite E. apply in_or_app. right. left. reflexivity.
  - destruct (eqb_spec x b) as [Exb | Exb].
    + subst x. exists [], l. split; [reflexivity | intros a []].
    + assert (Hb' : ~ In b (JsMap.add eqb acc x)).
      { intro Hin. apply (add_In eqb eqb_spec) in Hin as [Hin | Hin]; congruence. }
      destruct (IH _ E Hb') as (pre & post & -> & Hpre).
      exists (x :: pre), post. split; [reflexivity|].
      intros a [<- | Ha]; [|apply Hpre, Ha].
      destruct (fold_add_extends (pre ++ b :: post) (JsMap.add eqb acc x)) as [ext Hext].
      rewrite Hext in E.
      apply (prefix_before _ _ _ _ _ E Hb').
      apply (add_In eqb eqb_spec). right. reflexivity.
Qed.
End FirstOccurrences.

Lemma label_eqb_spec (a b : LabelPropagation.Label) :
  reflect (a = b) (LabelPropagation.label_eqb a b).
Proof.
  destruct a as [x|], b as [y|]; simpl; try (constructor; congruence).
  destruct (Z.eqb_spec x y); constructor; congruence.
Qed.

Lemma weight_or_0_set (cw : list (LabelPropagation.Label * Q))
    (k l : LabelPropagation.Label) (v : Q) :
  LabelPropagation.weight_or_0 (JsMap.set LabelPropagation.label_eqb cw k v) l
  = if LabelPropagation.label_eqb k l then v else LabelPropagation.weight_or_0 cw l.
Proof.
  unfold LabelPropagation.weight_or_0.
  destruct (label_eqb_spec k l) as [E | E].
  - subst l. rewrite (get_set_same _ label_eqb_spec). reflexivity.
  - rewrite (get_set_other _ label_eqb_spec) by exact E. reflexivity.
Qed.

Lemma count_fold_weight (communities : LabelPropagation.Communities)
    (neighbors : list LabelPropagation.Neighbor)
    (acc : list (LabelPropagation.Label * Q)) (l : LabelPropagation.Label) :
  LabelPropagation.weight_or_0
    (fold_left (LabelPropagation.count_step communities) neighbors acc) l
  == LabelPropagation.weight_or_0 acc l
     + LabelPropagation.total_weight (LabelPropagation.votes_of communities neighbors) l.
Proof.
  revert acc. induction neighbors as [| nb rest IH]; intro acc; simpl.
  - lra.
  - rewrite IH. unfold LabelPropagation.count_step at 1. rewrite weight_or_0_set.
    destruct (label_eqb_spec
                (LabelPropagation.label_of communities (LabelPropagation.nb_id nb)) l)
      as [E | E]; [subst l|]; lra.
Qed.

Lemma count_fold_keys (communities : LabelPropagation.Communities)
    (neighbors : list LabelPropagation.Neighbor)
    (acc : list (LabelPropagation.Label * Q)) :
  JsMap.keys (fold_left (LabelPropagation.count_step communities) neighbors acc)
  = fold_left (JsMap.add LabelPropagation.label_eqb)
              (map fst (LabelPropagation.votes_of communities neighbors))
              (JsMap.keys acc).
Proof.
  revert acc. induction neighbors as [| nb rest IH]; intro acc; simpl; [reflexivity|].
  rewrite IH. unfold LabelPropagation.count_step at 1.
  rewrite (keys_set _ label_eqb_spec). reflexivity.
Qed.

Lemma count_weights_keys (communities : LabelPropagation.Communities)
    (neighbors : list LabelPropagation.Neighbor) :
  JsMap.keys (LabelPropagation.count_weights communities neighbors)
  = JsMap.set_of LabelPropagation.label_eqb
      (map fst (LabelPropagation.votes_of communities neighbors)).
Proof.
  apply (count_fold_keys communities neighbors []).
Qed.

Lemma count_weights_entry (communities : LabelPropagation.Communities)
    (neighbors : list LabelPropagation.Neighbor) (l : LabelPropagation.Label) (w : Q) :
  In (l, w) (LabelPropagation.count_weights communities neighbors) ->
  w == LabelPropagation.total_weight (LabelPropagation.votes_of communities neighbors) l.
Proof.
  intro Hin.
  pose proof (count_fold_weight communities neighbors [] l) as H.
  fold (LabelPropagation.count_weights communities neighbors) in H.
  unfold LabelPropagation.weight_or_0 in H.
  rewrite (get_In_NoDup _ label_eqb_spec _ l w) in H.
  - simpl in H. lra.
  - rewrite count_weights_keys. apply (set_of_NoDup _ label_eqb_spec).
  - exact Hin.
Qed.

Lemma total_weight_absent (votes : list (LabelPropagation.Label * Q))
    (l : LabelPropagation.Label) :
  ~ In l (map fst votes) -> LabelPropagation.total_weight votes l = 0.
Proof.
  induction votes as [| [c w] rest IH]; simpl; [reflexivity|].
  intro H. destruct (label_eqb_spec c l) as [E | E].
  - exfalso. apply H. left. exact E.
  - apply IH. intro Hin. apply H. right. exact Hin.
Qed.

(** The loop that looks for the best entry: either no weight exceeds the
    starting maximum and the starting label stays, or the result is the
    first entry whose weight no other entry exceeds. *)
Lemma best_fold_spec (cw : list (LabelPropagation.Label * Q)) (m0 : Q)
    (b0 : LabelPropagation.Label) :
  let result := fold_left LabelPropagation.best_step cw (m0, b0) in
  (forall l w, In (l, w) cw -> w <= fst result)
  /\ ((result = (m0, b0) /\ forall l w, In (l, w) cw -> w <= m0)
      \/ (exists pre post,
             cw = pre ++ (snd result, fst result) :: post
             /\ m0 < fst result
             /\ forall l w, In (l, w) pre -> w < fst result)).
Proof.
  revert m0 b0. induction cw as [| [c w] rest IH]; intros m0 b0; simpl.
  - split; [intros ? ? [] | left; split; [reflexivity | intros ? ? []]].
  - destruct (Qltb m0 w) eqn:E.
    + apply Qltb_lt in E.
      destruct (IH w c) as [Hall [[Hres Hle] | (pre & post & Hcw & Hlt & Hpre)]].
      * rewrite Hres in *. simpl in *. split.
        -- intros l w' [Heq | Hin]; [injection Heq as <- <-; lra | eauto].
        -- right. exists [], rest. repeat split; [exact E | intros ? ? []].
      * split.
        -- intros l w' [Heq | Hin]; [injection Heq as <- <-; lra | eauto].
        -- right. exists ((c, w) :: pre), post. rewrite Hcw at 1.
           repeat split; [lra|].
           intros l w' [Heq | Hin]; [injection Heq as <- <-; exact Hlt | eauto].
    + apply Qltb_ge in E.
      destruct (IH m0 b0) as [Hall [[Hres Hle] | (pre & post & Hcw & Hlt & Hpre)]].
      * rewrite Hres in *. simpl in *. split.
        -- intros l w' [Heq | Hin]; [injection Heq as <- <-; exact E | eauto].
        -- left. split; [reflexivity|].
           intros l w' [Heq | Hin]; [injection Heq as <- <-; exact E | eauto].
      * split.
        -- intros l w' [Heq | Hin]; [injection Heq as <- <-; lra | eauto].
        -- right. exists ((c, w) :: pre), post. rewrite Hcw at 1.
           repeat split; [exact Hlt|].
           intros l w' [Heq | Hin]; [injection Heq as <- <-; lra | eauto].
Qed.

Lemma get_Some_In_entry {K V : Type} (eqb : K -> K -> bool)
    (eqb_spec : forall x y, reflect (x = y) (eqb x y))
    (m : list (K * V)) (k : K) (v : V) :
  JsMap.get eqb m k = Some v -> In (k, v) m.
Proof.
  induction m as [| [k' v'] m IH]; simpl; [discriminate|].
  destruct (eqb_spec k' k) as [E | E].
  - intro H. injection H as ->. subst k'. left. reflexivity.
  - intro H. right. exact (IH H).
Qed.

Lemma total_le_best (communities : LabelPropagation.Communities)
    (neighbors : list LabelPropagation.Neighbor) (m : Q) (l : LabelPropagation.Label) :
  0 <= m ->
  (forall l' w, In (l', w) (LabelPropagation.count_weights communities neighbors) ->
                w <= m) ->
  LabelPropagation.total_weight (LabelPropagation.votes_of communities neighbors) l <= m.
Proof.
  intros Hm Hall.
  pose proof (count_fold_weight communities neighbors [] l) as H.
  fold (LabelPropagation.count_weights communities neighbors) in H.
  change (LabelPropagation.weight_or_0 [] l) with 0 in H.
  unfold LabelPropagation.weight_or_0 in H.
  destruct (JsMap.get LabelPropagation.label_eqb
              (LabelPropagation.count_weights communities neighbors) l) as [w|] eqn:E.
  - apply (get_Some_In_entry _ label_eqb_spec) in E. apply Hall in E.
    simpl in H. lra.
  - simpl in H. lra.
Qed.

Lemma best_community_rule (communities : LabelPropagation.Communities)
    (neighbors : list LabelPropagation.Neighbor) (current : LabelPropagation.Label) :
  let votes := LabelPropagation.votes_of communities neighbors in
  let best := LabelPropagation.best_community communities neighbors current in
  ((exists l, 0 < LabelPropagation.total_weight votes l) ->
   exists pre post,
     map fst votes = pre ++ best :: post
     /\ (forall l, In l pre ->
           LabelPropagation.total_weight votes l < LabelPropagation.total_weight votes best)
     /\ (forall l,
           LabelPropagation.total_weight votes l <= LabelPropagation.total_weight votes best))
  /\ ((forall l, LabelPropagation.total_weight votes l <= 0) -> best = current).
Proof.
  intros votes best. subst votes best.
  unfold LabelPropagation.best_community, LabelPropagation.find_best.
  set (cw := LabelPropagation.count_weights communities neighbors).
  destruct (best_fold_spec cw 0 current)
    as [Hall [[Hres Hle] | (pre' & post' & Hcw & Hlt & Hpre)]].
  - (* no entry has a positive weight *)
    split; [|intros _; rewrite Hres; reflexivity].
    intros [l Hl]. exfalso.
    pose proof (total_le_best communities neighbors 0 l (Qle_refl 0) Hle). lra.
  - set (best := snd (fold_left LabelPropagation.best_step cw (0, current))) in *.
    set (m := fst (fold_left LabelPropagation.best_step cw (0, current))) in *.
    assert (Hbest : m == LabelPropagation.total_weight
                           (LabelPropagation.votes_of communities neighbors) best).
    { apply count_weights_entry. fold cw. rewrite Hcw.
      apply in_or_app. right. left. reflexivity. }
    split.
    + intros _.
      assert (Hkeys : fold_left (JsMap.add LabelPropagation.label_eqb)
                        (map fst (LabelPropagation.votes_of communities neighbors)) []
                      = map fst pre' ++ best :: map fst post').
      { pose proof (count_weights_keys communities neighbors) as Hk.
        fold cw in Hk. rewrite Hcw in Hk at 1.
        unfold JsMap.keys in Hk. rewrite map_app in Hk. simpl in Hk.
        unfold JsMap.set_of in Hk. symmetry. exact Hk. }
      destruct (fold_add_split _ label_eqb_spec _ _ _ _ _ Hkeys (fun H => H))
        as (pre & post & Hsplit & Hin).
      exists pre, post. split; [exact Hsplit|]. split.
      * intros l Hl. apply Hin in Hl. apply in_map_iff in Hl as [[l' w] [E Hl]].
        simpl in E. subst l'.
        assert (Hw : w == LabelPropagation.total_weight
                            (LabelPropagation.votes_of communities neighbors) l).
        { apply count_weights_entry. fold cw. rewrite Hcw.
          apply in_or_app. left. exact Hl. }
        specialize (Hpre l w Hl). lra.
      * intro l.
        pose proof (total_le_best communities neighbors m l) as Hle.
        assert (0 <= m) by lra. specialize (Hle H Hall). lra.
    + intro Hnone. exfalso. specialize (Hnone best). lra.
Qed.

(** ** Label propagation: one node, one sweep, the loop *)

Lemma update_node_spec (adjacency : LabelPropagation.Adjacency)
    (communities : LabelPropagation.Communities) (changed : bool) (node : Node) :
  let neighbors := LabelPropagation.neighbors_of adjacency (node_id node) in
  let current := LabelPropagation.label_of communities (node_id node) in
  let result := LabelPropagation.update_node adjacency (communities, changed) node in
  (neighbors = [] -> result = (communities, changed))
  /\ (neighbors <> [] ->
      LabelPropagation.label_of (fst result) (node_id node)
      = LabelPropagation.best_community communities neighbors current)
  /\ (forall id, id <> node_id node ->
      LabelPropagation.label_of (fst result) id = LabelPropagation.label_of communities id).
Proof.
  intros neighbors current result. subst result.
  unfold LabelPropagation.update_node. fold neighbors. fold current.
  destruct neighbors as [| nb rest] eqn:En; simpl length; simpl Nat.eqb; cbv iota.
  - repeat split; simpl; congruence.
  - set (best := LabelPropagation.best_community communities (nb :: rest) current).
    destruct (label_eqb_spec best current) as [E | E]; simpl.
    + split; [reflexivity|]. split; [intros _; rewrite E; reflexivity | reflexivity].
    + split; [discriminate|]. split.
      * intros _. unfold LabelPropagation.label_of.
        rewrite (get_set_same _ Z.eqb_spec). reflexivity.
      * intros id Hid. unfold LabelPropagation.label_of.
        rewrite (get_set_other _ Z.eqb_spec) by congruence. reflexivity.
Qed.

Lemma update_node_changed_stays (adjacency : LabelPropagation.Adjacency)
    (communities : LabelPropagation.Communities) (node : Node) :
  snd (LabelPropagation.update_node adjacency (communities, true) node) = true.
Proof.
  unfold LabelPropagation.update_node.
  destruct (length _ =? 0)%nat; [reflexivity|].
  destruct (negb _); reflexivity.
Qed.

Lemma update_node_unchanged (adjacency : LabelPropagation.Adjacency)
    (communities : LabelPropagation.Communities) (node : Node) :
  snd (LabelPropagation.update_node adjacency (communities, false) node) = false ->
  LabelPropagation.update_node adjacency (communities, false) node = (communities, false).
Proof.
  unfold LabelPropagation.update_node.
  destruct (length _ =? 0)%nat; [reflexivity|].
  destruct (negb _); [discriminate | reflexivity].
Qed.

Lemma sweep_fold_changed (adjacency : LabelPropagation.Adjacency) (nodes : list Node)
    (communities : LabelPropagation.Communities) :
  snd (fold_left (LabelPropagation.update_node adjacency) nodes (communities, true)) = true.
Proof.
  revert communities.
  induction nodes as [| node rest IH]; intro communities; cbn [fold_left].
  - reflexivity.
  - pose proof (update_node_changed_stays adjacency communities node) as H.
    destruct (LabelPropagation.update_node adjacency (communities, true) node) as [c ch].
    simpl in H. subst ch. apply IH.
Qed.

(** A sweep that reports no change has changed no label. *)
Lemma sweep_unchanged (adjacency : LabelPropagation.Adjacency) (nodes : list Node)
    (communities : LabelPropagation.Communities) :
  snd (LabelPropagation.sweep adjacency nodes communities) = false ->
  fst (LabelPropagation.sweep adjacency nodes communities) = communities.
Proof.
  unfold LabelPropagation.sweep.
  induction nodes as [| node rest IH]; cbn [fold_left]; [reflexivity|].
  destruct (LabelPropagation.update_node adjacency (communities, false) node)
    as [c ch] eqn:E.
  destruct ch.
  - rewrite sweep_fold_changed. discriminate.
  - assert (Hsnd : snd (LabelPropagation.update_node adjacency (communities, false) node)
                   = false) by (rewrite E; reflexivity).
    rewrite (update_node_unchanged _ _ _ Hsnd) in E. injection E as <-. exact IH.
Qed.

Lemma propagate_spec (adjacency : LabelPropagation.Adjacency) (nodes : list Node)
    (remaining : nat) (communities : LabelPropagation.Communities) (iterations : nat) :
  let final := fst (LabelPropagation.propagate adjacency nodes remaining communities
                                               iterations) in
  let n := snd (LabelPropagation.propagate adjacency nodes remaining communities
                                           iterations) in
  (remaining = 0 -> n = iterations /\ final = communities)%nat
  /\ (0 < remaining ->
      iterations < n <= iterations + remaining
      /\ final = LabelPropagation.after_sweeps adjacency nodes (n - iterations) communities
      /\ (forall j, j < n - iterations - 1 ->
            snd (LabelPropagation.sweep adjacency nodes
                   (LabelPropagation.after_sweeps adjacency nodes j communities)) = true)
      /\ (n < iterations + remaining ->
            snd (LabelPropagation.sweep adjacency nodes
                   (LabelPropagation.after_sweeps adjacency nodes (n - iterations - 1)
                                                  communities)) = false))%nat.
Proof.
  revert communities iterations.
  induction remaining as [| r IH]; intros communities iterations.
  - split; [intros _; split; reflexivity | lia].
  - split; [discriminate | intros _].
    change (LabelPropagation.propagate adjacency nodes (S r) communities iterations)
      with (let '(c', changed) := LabelPropagation.sweep adjacency nodes communities in
            if changed
            then LabelPropagation.propagate adjacency nodes r c' (S iterations)
            else (c', S iterations)).
    assert (Hstep : forall k,
               LabelPropagation.after_sweeps adjacency nodes (S k) communities
               = LabelPropagation.after_sweeps adjacency nodes k
                   (fst (LabelPropagation.sweep adjacency nodes communities)))
      by reflexivity.
    destruct (LabelPropagation.sweep adjacency nodes communities) as [c' changed] eqn:Es.
    cbn [fst] in Hstep.
    destruct changed.
    + destruct (IH c' (S iterations)) as [H0 Hpos].
      destruct r as [| r'].
      * destruct (H0 eq_refl) as [Hn Hf]. rewrite Hn, Hf.
        replace (S iterations - iterations)%nat with 1%nat by lia.
        rewrite Hstep. cbn [LabelPropagation.after_sweeps].
        repeat split; lia.
      * destruct (Hpos ltac:(lia)) as (Hn & Hf & Hbefore & Hlast).
        set (n := snd (LabelPropagation.propagate adjacency nodes (S r') c'
                                                  (S iterations))) in *.
        replace (n - iterations)%nat with (S (n - S iterations)) by lia.
        rewrite Hstep.
        split; [lia|]. split; [exact Hf|]. split.
        -- intros j Hj. destruct j as [| j].
           ++ cbn [LabelPropagation.after_sweeps]. rewrite Es. reflexivity.
           ++ rewrite Hstep. apply Hbefore. lia.
        -- intro Hlt.
           replace (S (n - S iterations) - 1)%nat with (S (n - S iterations - 1)) by lia.
           rewrite Hstep. apply Hlast. lia.
    + cbn [fst snd].
      replace (S iterations - iterations)%nat with 1%nat by lia.
      rewrite Hstep. cbn [LabelPropagation.after_sweeps].
      split; [lia|]. split; [reflexivity|]. split; [intros j Hj; lia|].
      intros _. cbn [Nat.sub LabelPropagation.after_sweeps]. rewrite Es. reflexivity.
Qed.

Lemma after_sweeps_last (adjacency : LabelPropagation.Adjacency) (nodes : list Node)
    (k : nat) (communities : LabelPropagation.Communities) :
  LabelPropagation.after_sweeps adjacency nodes (S k) communities
  = fst (LabelPropagation.sweep adjacency nodes
           (LabelPropagation.after_sweeps adjacency nodes k communities)).
Proof.
  revert communities. induction k as [| k IH]; intro communities; [reflexivity|].
  change (LabelPropagation.after_sweeps adjacency nodes (S (S k)) communities)
    with (LabelPropagation.after_sweeps adjacency nodes (S k)
            (fst (LabelPropagation.sweep adjacency nodes communities))).
  rewrite IH. reflexivity.
Qed.

(** C6 (as the code has it). An item that has neighbours takes the label
    with the highest total incident edge weight among its neighbours'
    current labels, provided some label has a positive total; among labels
    that tie for the highest total, the one met first in the item's
    neighbour list wins, whether or not the item's current label is one of
    them. The current label is kept when no label has a positive total.
    The loop makes between 1 and 10 sweeps, every sweep before the last
    changed a label, and if it stops before the tenth sweep, the last
    sweep changed no label. *)
Theorem C6_first_best_label_and_bounded_loop :
  (forall (adjacency : LabelPropagation.Adjacency)
          (communities : LabelPropagation.Communities) (changed : bool) (node : Node),
      let neighbors := LabelPropagation.neighbors_of adjacency (node_id node) in
      let votes := LabelPropagation.votes_of communities neighbors in
      let current := LabelPropagation.label_of communities (node_id node) in
      let best :=
        LabelPropagation.label_of
          (fst (LabelPropagation.update_node adjacency (communities, changed) node))
          (node_id node) in
      neighbors <> [] ->
      ((exists l, 0 < LabelPropagation.total_weight votes l) ->
       exists pre post,
         map fst votes = pre ++ best :: post
         /\ (forall l, In l pre ->
               LabelPropagation.total_weight votes l
               < LabelPropagation.total_weight votes best)
         /\ (forall l,
               LabelPropagation.total_weight votes l
               <= LabelPropagation.total_weight votes best))
      /\ ((forall l, LabelPropagation.total_weight votes l <= 0) -> best = current))
  /\ (forall (adjacency : LabelPropagation.Adjacency) (nodes : list Node)
             (communities : LabelPropagation.Communities),
         let final :=
           fst (LabelPropagation.propagate adjacency nodes LabelPropagation.maxIterations
                                           communities 0) in
         let n :=
           snd (LabelPropagation.propagate adjacency nodes LabelPropagation.maxIterations
                                           communities 0) in
         (1 <= n <= 10)%nat
         /\ final = LabelPropagation.after_sweeps adjacency nodes n communities
         /\ (forall j, (j < n - 1)%nat ->
               snd (LabelPropagation.sweep adjacency nodes
                      (LabelPropagation.after_sweeps adjacency nodes j communities))
               = true)
         /\ ((n < 10)%nat ->
               LabelPropagation.sweep adjacency nodes
                 (LabelPropagation.after_sweeps adjacency nodes (n - 1) communities)
               = (final, false))).
Proof.
  split.
  - intros adjacency communities changed node neighbors votes current best Hne.
    destruct (update_node_spec adjacency communities changed node) as (_ & Hbest & _).
    fold neighbors in Hbest. specialize (Hbest Hne).
    subst best. rewrite Hbest.
    apply (best_community_rule communities neighbors current).
  - intros adjacency nodes communities final n.
    destruct (propagate_spec adjacency nodes LabelPropagation.maxIterations
                             communities 0) as [_ H].
    unfold LabelPropagation.maxIterations in *.
    destruct (H ltac:(lia)) as (Hn & Hf & Hbefore & Hlast).
    fold LabelPropagation.maxIterations in *. fold n in Hn, Hf, Hbefore, Hlast.
    fold final in Hf.
    rewrite Nat.sub_0_r in *.
    split; [lia|]. split; [exact Hf|]. split; [exact Hbefore|].
    intro Hlt. specialize (Hlast ltac:(lia)).
    pose proof (sweep_unchanged _ _ _ Hlast) as Hsame.
    pose proof (after_sweeps_last adjacency nodes (n - 1) communities) as Hl.
    replace (S (n - 1)) with n in Hl by lia.
    rewrite <- Hf in Hl.
    destruct (LabelPropagation.sweep adjacency nodes
                (LabelPropagation.after_sweeps adjacency nodes (n - 1) communities))
      as [c ch].
    simpl in *. congruence.
Qed.

Lemma C6_first_best_label_and_bounded_loop_witness :
  (let votes := LabelPropagation.votes_of LpSamples.lp_before_node2
                  (LabelPropagation.neighbors_of LpSamples.lp_adjacency 2) in
   let best :=
     LabelPropagation.label_of
       (fst (LabelPropagation.update_node LpSamples.lp_adjacency
               (LpSamples.lp_before_node2, true) (mkNode 2 "Two" [] 0 None None)))
       2 in
   exists pre post,
     map fst votes = pre ++ best :: post
     /\ (forall l, In l pre ->
           LabelPropagation.total_weight votes l
           < LabelPropagation.total_weight votes best)
     /\ (forall l,
           LabelPropagation.total_weight votes l
           <= LabelPropagation.total_weight votes best))
  /\ LabelPropagation.sweep LpSamples.lp_adjacency LpSamples.lp_nodes
       (LabelPropagation.after_sweeps LpSamples.lp_adjacency LpSamples.lp_nodes 2
          (LabelPropagation.communities_init LpSamples.lp_nodes))
     = (fst (LabelPropagation.propagate LpSamples.lp_adjacency LpSamples.lp_nodes
               LabelPropagation.maxIterations
               (LabelPropagation.communities_init LpSamples.lp_nodes) 0),
        false).
Proof.
  split.
  - apply (proj1 (proj1 C6_first_best_label_and_bounded_loop
                    LpSamples.lp_adjacency LpSamples.lp_before_node2 true
                    (mkNode 2 "Two" [] 0 None None) ltac:(discriminate))).
    exists (Some 3%Z). reflexivity.
  - apply (proj2 (proj2 (proj2 (proj2 C6_first_best_label_and_bounded_loop
                    LpSamples.lp_adjacency LpSamples.lp_nodes
                    (LabelPropagation.communities_init LpSamples.lp_nodes))))).
    vm_compute. lia.
Defined.

(** C6 as stated fails on ties. On the path 1 - 2 - 3, when the first
    sweep reaches node 2 its label is 2, its neighbours 3 and 1 carry the
    labels 3 and 2 with weight 1/2 each: the current label ties with label
    3 for the best weight, and node 2 still moves to label 3, the label of
    the neighbour listed first. *)
Lemma C6_tie_changes_label_counterexample :
  LabelPropagation.build_adjacency LpSamples.lp_graph = Some LpSamples.lp_adjacency
  /\ LabelPropagation.label_of LpSamples.lp_before_node2 2 = Some 2%Z
  /\ LpSamples.lp_votes_node2 = [(Some 3%Z, 1 # 2); (Some 2%Z, 1 # 2)]
  /\ LabelPropagation.total_weight LpSamples.lp_votes_node2 (Some 2%Z)
     == LabelPropagation.total_weight LpSamples.lp_votes_node2 (Some 3%Z)
  /\ (forall l, LabelPropagation.total_weight LpSamples.lp_votes_node2 l
                <= LabelPropagation.total_weight LpSamples.lp_votes_node2 (Some 2%Z))
  /\ LabelPropagation.label_of
       (fst (LabelPropagation.update_node LpSamples.lp_adjacency
               (LpSamples.lp_before_node2, true) (mkNode 2 "Two" [] 0 None None)))
       2 = Some 3%Z.
Proof.
  assert (Hv : LpSamples.lp_votes_node2 = [(Some 3%Z, 1 # 2); (Some 2%Z, 1 # 2)])
    by reflexivity.
  repeat split; try reflexivity.
  intro l. rewrite Hv.
  change (LabelPropagation.total_weight [(Some 3%Z, 1 # 2); (Some 2%Z, 1 # 2)]
                                        (Some 2%Z))
    with ((1 # 2) + 0).
  destruct l as [l|]; cbn [LabelPropagation.total_weight LabelPropagation.label_eqb];
    [|lra].
  destruct (Z.eqb_spec 3 l), (Z.eqb_spec 2 l); try lia; lra.
Qed.

(** ** The embedding on the specification's scenarios *)

(** Items sharing genres, format and season year score 1. *)
Example scenario_identical_items :
  computeAnimeSimilarity Samples.drama_a Samples.drama_b == 1.
Proof. reflexivity. Qed.

(** Disjoint genres and nothing else shared: score 0, no edge at 0.25. *)
Example scenario_disjoint_genres :
  computeAnimeSimilarity Samples.prequel Samples.show_2010 == 0
  /\ computeSimilarities MIN_SIMILARITY [Samples.prequel; Samples.show_2010] = [].
Proof. split; reflexivity. Qed.

(** Ranks 80 and 70 on the shared tag, 40 and 90 on the others:
    70 / (80 + 40 + 90). *)
Example tagSimilarity_ranks :
  tagSimilarity [mkTag "Revenge" 80 false; mkTag "Swords" 40 false]
                [mkTag "Revenge" 70 false; mkTag "Time Loop" 90 false]
  == 70 # 210.
Proof. reflexivity. Qed.

(** A duplicated entry in the first list lifts the coefficient above 1,
    which is why the bound is stated for duplicate-free lists. *)
Example jaccardSimilarity_with_duplicates :
  jaccardSimilarity Z.eqb [1; 1]%Z [1]%Z == 2.
Proof. reflexivity. Qed.

(** The path 1 - 2 - 3 ends in one community after three sweeps. *)
Example label_propagation_on_path :
  snd (LabelPropagation.propagate LpSamples.lp_adjacency LpSamples.lp_nodes
         LabelPropagation.maxIterations
         (LabelPropagation.communities_init LpSamples.lp_nodes) 0) = 3%nat
  /\ option_map (map snd) (LabelPropagation.detectCommunities LpSamples.lp_graph)
     = Some [Some 0%nat; Some 0%nat; Some 0%nat].
Proof. split; reflexivity. Qed.

(** The recommendation sample keeps items 1 and 2, joined by one edge of
    weight max(1, 40/100) = 1, and drops item 3. *)
Example recommendation_graph_sample :
  option_map Recommendation.graphToJSON
    (Recommendation.buildRecommendationGraph RecSamples.rec_list)
  = Some ([Recommendation.mkJsonNode 1 (Graphology.mkAttributes "One" ["Action"%string] 100);
           Recommendation.mkJsonNode 2 (Graphology.mkAttributes "Two" ["Drama"%string] 90)],
          [mkEdge 1 2 1]).
Proof. reflexivity. Qed.

(** * Further properties of the scripts *)

(** ** Metadata similarity: more on the score *)

Lemma jaccardSimilarity_nonneg {A : Type} (eqb : A -> A -> bool) (setA setB : list A) :
  0 <= jaccardSimilarity eqb setA setB.
Proof.
  unfold jaccardSimilarity.
  destruct ((length setA =? 0)%nat && (length setB =? 0)%nat)%bool; [lra|].
  apply Qdiv_nonneg; apply QofNat_nonneg.
Qed.

Lemma add_factor_nonneg (acc : Acc) (sim w : Q) :
  0 <= sim -> 0 <= w -> 0 <= fst acc /\ 0 <= snd acc ->
  0 <= fst (add_factor acc sim w) /\ 0 <= snd (add_factor acc sim w).
Proof.
  intros Hs Hw [H1 H2]. unfold add_factor. simpl.
  assert (0 <= sim * w) by (apply Qmult_le_0_compat; assumption).
  split; lra.
Qed.

Lemma similarity_and_weights_nonneg (a b : Anime) :
  0 <= fst (similarity_and_weights a b) /\ 0 <= snd (similarity_and_weights a b).
Proof.
  unfold similarity_and_weights.
  assert (H0 : 0 <= fst ((0, 0) : Acc) /\ 0 <= snd ((0, 0) : Acc)) by (simpl; lra).
  assert (H1 : 0 <= fst (genre_block a b (0, 0)) /\ 0 <= snd (genre_block a b (0, 0))).
  { unfold genre_block. destruct (nonempty (genres a) && nonempty (genres b))%bool;
      [|exact H0].
    apply add_factor_nonneg; [apply jaccardSimilarity_nonneg | lra | exact H0]. }
  set (acc1 := genre_block a b (0, 0)) in *.
  assert (H2 : 0 <= fst (tag_block a b acc1) /\ 0 <= snd (tag_block a b acc1)).
  { unfold tag_block. destruct (nonempty (tags a) && nonempty (tags b))%bool; [|exact H1].
    match goal with |- context [if ?c then _ else _] => destruct c end; [|exact H1].
    apply add_factor_nonneg; [apply tagSimilarity_range | lra | exact H1]. }
  set (acc2 := tag_block a b acc1) in *.
  assert (H3 : 0 <= fst (studio_block a b acc2) /\ 0 <= snd (studio_block a b acc2)).
  { unfold studio_block. destruct (nonempty (studios a) && nonempty (studios b))%bool;
      [|exact H2].
    apply add_factor_nonneg; [apply jaccardSimilarity_nonneg | lra | exact H2]. }
  set (acc3 := studio_block a b acc2) in *.
  assert (H4 : 0 <= fst (staff_block a b acc3) /\ 0 <= snd (staff_block a b acc3)).
  { unfold staff_block. destruct (nonempty (staff a) && nonempty (staff b))%bool;
      [|exact H3].
    apply add_factor_nonneg; [apply jaccardSimilarity_nonneg | lra | exact H3]. }
  set (acc4 := staff_block a b acc3) in *.
  assert (H5 : 0 <= fst (format_block a b acc4) /\ 0 <= snd (format_block a b acc4)).
  { unfold format_block.
    match goal with |- context [if ?c then _ else _] => destruct c end;
      [simpl; lra | exact H4]. }
  set (acc5 := format_block a b acc4) in *.
  assert (H6 : 0 <= fst (season_block a b acc5) /\ 0 <= snd (season_block a b acc5)).
  { unfold season_block.
    destruct (seasonYear a) as [ya|]; [|exact H5].
    destruct (seasonYear b) as [yb|]; [|exact H5].
    destruct (negb (ya =? 0)%Z && negb (yb =? 0)%Z)%bool; [|exact H5].
    destruct (Z.leb_spec (Z.abs (ya - yb)) 2) as [Hd | Hd]; [|exact H5].
    assert (Hq : inject_Z (Z.abs (ya - yb)) <= 2)
      by (change 2 with (inject_Z 2); rewrite <- Zle_Qle; lia).
    apply add_factor_nonneg; [apply Qle_shift_div_l; lra | lra | exact H5]. }
  set (acc6 := season_block a b acc5) in *.
  unfold relation_block.
  destruct (JsMap.includes Z.eqb (relations a) (anime_id b)); [simpl; lra | exact H6].
Qed.

(** The score of two items is never negative, whatever their lists hold
    (duplicates included). *)
Theorem score_nonnegative (a b : Anime) : 0 <= computeAnimeSimilarity a b.
Proof.
  unfold computeAnimeSimilarity.
  destruct (similarity_and_weights_nonneg a b) as [H1 H2].
  destruct (similarity_and_weights a b) as [similarity weights]. simpl in *.
  destruct (Qltb 0 weights) eqn:E; [|lra].
  apply Qltb_lt in E. apply Qle_shift_div_l; lra.
Qed.

Lemma QofNat_pos (n : nat) : (0 < n)%nat -> 0 < QofNat n.
Proof.
  intro H. unfold QofNat. change 0 with (inject_Z 0). rewrite <- Zlt_Qlt. lia.
Qed.

Lemma QofNat_div_zero (a b : nat) : QofNat a / QofNat b == 0 -> a = 0%nat \/ b = 0%nat.
Proof.
  intro H. destruct a as [| a]; [left; reflexivity|].
  destruct b as [| b]; [right; reflexivity|]. exfalso.
  assert (Hpos : 0 < QofNat (S a) / QofNat (S b)).
  { apply Qlt_shift_div_l; [apply QofNat_pos; lia|].
    rewrite Qmult_0_l. apply QofNat_pos. lia. }
  lra.
Qed.

Lemma QofNat_div_one (a b : nat) :
  QofNat a / QofNat b == 1 -> a = b /\ (0 < b)%nat.
Proof.
  intro H. destruct b as [| b].
  - exfalso. unfold Qdiv, Qinv in H. simpl in H. rewrite Qmult_0_r in H. lra.
  - split; [|lia].
    assert (Hb : 0 < QofNat (S b)) by (apply QofNat_pos; lia).
    assert (E0 : QofNat a == QofNat a / QofNat (S b) * QofNat (S b))
      by (field; intro Hz; rewrite Hz in Hb; apply (Qlt_irrefl 0 Hb)).
    rewrite H in E0.
    assert (E : QofNat a == QofNat (S b)) by (rewrite E0; ring).
    unfold QofNat, Qeq in E. cbn [Qnum Qden inject_Z] in E. lia.
Qed.

Lemma filter_length_all {A : Type} (f : A -> bool) (l : list A) :
  length (filter f l) = length l -> forall x, In x l -> f x = true.
Proof.
  induction l as [| y l IH]; simpl; [intros _ x []|].
  destruct (f y) eqn:E; simpl; intro H.
  - intros x [<- | Hx]; [exact E | apply IH; [lia | exact Hx]].
  - pose proof (filter_length_le f l). lia.
Qed.

Lemma filter_all_true {A : Type} (f : A -> bool) (l : list A) :
  (forall x, In x l -> f x = true) -> filter f l = l.
Proof.
  induction l as [| y l IH]; simpl; intro H; [reflexivity|].
  rewrite (H y (or_introl eq_refl)), IH; [reflexivity|].
  intros x Hx. apply H. right. exact Hx.
Qed.

Section JaccardExtremes.
Context {A : Type} (eqb : A -> A -> bool).
Hypothesis eqb_spec : forall x y, reflect (x = y) (eqb x y).

(** The Jaccard coefficient is 0 exactly when the two lists share no
    element, and, for a duplicate-free first list, 1 exactly when the
    first list is non-empty and the two lists hold the same elements. *)
Theorem jaccardSimilarity_zero_and_one (setA setB : list A) :
  (jaccardSimilarity eqb setA setB == 0 <-> forall x, In x setA -> ~ In x setB)
  /\ (NoDup setA ->
      (jaccardSimilarity eqb setA setB == 1
       <-> setA <> [] /\ forall x, In x setA <-> In x setB)).
Proof.
  split.
  - unfold jaccardSimilarity.
    destruct ((length setA =? 0)%nat && (length setB =? 0)%nat)%bool eqn:Eg.
    + apply andb_true_iff in Eg as [Ea _]. apply Nat.eqb_eq in Ea.
      destruct setA; [|discriminate]. split; [intros _ x [] | reflexivity].
    + split.
      * intros H x Hx Hb. apply QofNat_div_zero in H as [H | H].
        -- assert (Hin : In x (filter (fun item => JsMap.includes eqb setB item) setA)).
           { apply filter_In. split; [exact Hx | apply (includes_In eqb eqb_spec), Hb]. }
           destruct (filter _ setA); [destruct Hin | discriminate].
        -- assert (Hin : In x (JsMap.set_of eqb (setA ++ setB))).
           { apply (set_of_In eqb eqb_spec), in_or_app. left. exact Hx. }
           destruct (JsMap.set_of eqb (setA ++ setB)); [destruct Hin | discriminate].
      * intro H.
        assert (E : filter (fun item => JsMap.includes eqb setB item) setA = []).
        { destruct (filter _ setA) as [| y l] eqn:Ef; [reflexivity|]. exfalso.
          assert (Hy : In y (filter (fun item => JsMap.includes eqb setB item) setA))
            by (rewrite Ef; left; reflexivity).
          apply filter_In in Hy as [Hy1 Hy2].
          apply (includes_In eqb eqb_spec) in Hy2. exact (H y Hy1 Hy2). }
        rewrite E. simpl. unfold Qdiv. rewrite Qmult_0_l. reflexivity.
  - intro Hnd. unfold jaccardSimilarity.
    assert (Hlen : (length setA <= length (JsMap.set_of eqb (setA ++ setB)))%nat).
    { apply NoDup_incl_length; [exact Hnd|].
      intros a Ha. apply (set_of_In eqb eqb_spec), in_or_app. left. exact Ha. }
    destruct ((length setA =? 0)%nat && (length setB =? 0)%nat)%bool eqn:Eg.
    + apply andb_true_iff in Eg as [Ea _]. apply Nat.eqb_eq in Ea.
      destruct setA; [|discriminate]. split; [intro H; lra | intros [H _]; congruence].
    + split.
      * intro H. apply QofNat_div_one in H as [E Hpos].
        pose proof (filter_length_le (fun item => JsMap.includes eqb setB item) setA)
          as Hf.
        assert (Hall : forall x, In x setA -> JsMap.includes eqb setB x = true)
          by (apply (filter_length_all (fun item => JsMap.includes eqb setB item));
              lia).
        split.
        -- intro Hnil. subst setA. simpl in *. lia.
        -- intro x. split; intro Hx.
           ++ apply (includes_In eqb eqb_spec), Hall, Hx.
           ++ apply (NoDup_length_incl Hnd (l' := JsMap.set_of eqb (setA ++ setB)));
                [lia | |].
              ** intros a Ha. apply (set_of_In eqb eqb_spec), in_or_app. left. exact Ha.
              ** apply (set_of_In eqb eqb_spec), in_or_app. right. exact Hx.
      * intros [Hne Hsame].
        rewrite filter_all_true
          by (intros x Hx; apply (includes_In eqb eqb_spec), Hsame, Hx).
        assert (E : length (JsMap.set_of eqb (setA ++ setB)) = length setA).
        { apply Permutation_length, NoDup_Permutation;
            [apply (set_of_NoDup eqb eqb_spec) | exact Hnd |].
          intro x. rewrite (set_of_In eqb eqb_spec), in_app_iff.
          specialize (Hsame x). tauto. }
        rewrite E.
        assert (Hpos : 0 < QofNat (length setA)).
        { apply QofNat_pos. destruct setA; [congruence | simpl; lia]. }
        field. lra.
Qed.
End JaccardExtremes.

Lemma jaccardSimilarity_zero_and_one_witness :
  jaccardSimilarity Z.eqb [1; 2; 3]%Z [3; 2; 1; 1]%Z == 1
  <-> [1; 2; 3]%Z <> [] /\ forall x, In x [1; 2; 3]%Z <-> In x [3; 2; 1; 1]%Z.
Proof.
  apply (proj2 (jaccardSimilarity_zero_and_one Z.eqb Z.eqb_spec
                  [1; 2; 3]%Z [3; 2; 1; 1]%Z)).
  repeat (constructor; [simpl; intuition discriminate |]); constructor.
Defined.

(** The rank-weighted tag overlap does not depend on the order of its two
    arguments and lies between 0 and 1, whatever the tag lists hold
    (repeated names and zero ranks included). *)
Theorem tagSimilarity_symmetric_and_bounded (tagsA tagsB : list Tag) :
  tagSimilarity tagsA tagsB = tagSimilarity tagsB tagsA
  /\ 0 <= tagSimilarity tagsA tagsB <= 1.
Proof.
  split; [apply tagSimilarity_sym | apply tagSimilarity_range].
Qed.

(** ** Metadata similarity: items with the same attributes *)

Lemma tag_step_same_map (m : list (string * N)) (st : N * N) (tag : string) :
  snd st = fst st -> snd (tag_step m m st tag) = fst (tag_step m m st tag).
Proof.
  destruct st as [t mt]. unfold tag_step. simpl. intros ->.
  rewrite N.max_id, N.min_id.
  destruct (N.ltb_spec 0 (rank_or_0 m tag)); simpl; [reflexivity | lia].
Qed.

Lemma tag_loop_same_map (m : list (string * N)) (l : list string) (st : N * N) :
  snd st = fst st ->
  snd (fold_left (tag_step m m) l st) = fst (fold_left (tag_step m m) l st).
Proof.
  revert st. induction l as [| tag l IH]; intros st H; simpl; [exact H|].
  apply IH, tag_step_same_map, H.
Qed.

Lemma tag_step_total_grows (mA mB : list (string * N)) (st : N * N) (tag : string) :
  (fst st + N.max (rank_or_0 mA tag) (rank_or_0 mB tag)
   = fst (tag_step mA mB st tag))%N.
Proof.
  destruct st as [t mt]. unfold tag_step.
  destruct ((0 <? rank_or_0 mA tag)%N && (0 <? rank_or_0 mB tag)%N)%bool; reflexivity.
Qed.

Lemma tag_loop_total_grows (mA mB : list (string * N)) (l : list string) (st : N * N) :
  (fst st <= fst (fold_left (tag_step mA mB) l st))%N.
Proof.
  revert st. induction l as [| tag l IH]; intro st; simpl; [lia|].
  specialize (IH (tag_step mA mB st tag)).
  pose proof (tag_step_total_grows mA mB st tag). lia.
Qed.

Lemma tag_loop_total_reaches (mA mB : list (string * N)) (l : list string)
    (st : N * N) (tag : string) :
  In tag l ->
  (N.max (rank_or_0 mA tag) (rank_or_0 mB tag)
   <= fst (fold_left (tag_step mA mB) l st))%N.
Proof.
  revert st. induction l as [| t l IH]; intros st; simpl; [intros []|].
  intros [<- | Hin].
  - pose proof (tag_loop_total_grows mA mB l (tag_step mA mB st t)).
    pose proof (tag_step_total_grows mA mB st t). lia.
  - apply IH, Hin.
Qed.

Section EntriesFacts.
Context {K V : Type} (eqb : K -> K -> bool).
Hypothesis eqb_spec : forall x y, reflect (x = y) (eqb x y).

Lemma get_set_cases (m : list (K * V)) (k k' : K) (v v' : V) :
  JsMap.get eqb (JsMap.set eqb m k v) k' = Some v' ->
  (k = k' /\ v = v') \/ JsMap.get eqb m k' = Some v'.
Proof.
  destruct (eqb_spec k k') as [E | E].
  - subst k'. rewrite (get_set_same eqb eqb_spec). intro H. injection H as ->. auto.
  - rewrite (get_set_other eqb eqb_spec) by exact E. auto.
Qed.

Lemma entries_fold_get (l : list (K * V)) (acc : list (K * V)) (k : K) (v : V) :
  JsMap.get eqb (fold_left (fun m kv => JsMap.set eqb m (fst kv) (snd kv)) l acc) k
  = Some v ->
  In (k, v) l \/ JsMap.get eqb acc k = Some v.
Proof.
  revert acc. induction l as [| [k0 v0] l IH]; intros acc H; simpl in *; [auto|].
  apply IH in H as [H | H]; [auto|].
  apply get_set_cases in H as [[-> ->] | H]; auto.
Qed.

Lemma entries_fold_keys (l : list (K * V)) (acc : list (K * V)) :
  JsMap.keys (fold_left (fun m kv => JsMap.set eqb m (fst kv) (snd kv)) l acc)
  = fold_left (JsMap.add eqb) (map fst l) (JsMap.keys acc).
Proof.
  revert acc. induction l as [| [k0 v0] l IH]; intro acc; simpl; [reflexivity|].
  rewrite IH, (keys_set eqb eqb_spec). reflexivity.
Qed.

Lemma In_keys_get (m : list (K * V)) (k : K) :
  In k (JsMap.keys m) -> exists v, JsMap.get eqb m k = Some v.
Proof.
  induction m as [| [k0 v0] m IH]; simpl; [intros []|].
  destruct (eqb_spec k0 k) as [E | E]; [eauto|].
  intros [H | H]; [contradiction | apply IH, H].
Qed.

(** [new Map(entries)] has the keys of the entries, and the value of a key
    is the value of one of its entries. *)
Lemma of_entries_get (l : list (K * V)) (k : K) :
  In k (map fst l) ->
  exists v, JsMap.get eqb (JsMap.of_entries eqb l) k = Some v /\ In (k, v) l.
Proof.
  intro Hk. unfold JsMap.of_entries.
  assert (Hkey : In k (JsMap.keys (fold_left (fun m kv => JsMap.set eqb m (fst kv) (snd kv))
                                             l []))).
  { rewrite entries_fold_keys. apply (fold_add_In eqb eqb_spec). right. exact Hk. }
  destruct (In_keys_get _ _ Hkey) as [v Hv]. exists v. split; [exact Hv|].
  apply entries_fold_get in Hv as [Hv | Hv]; [exact Hv | discriminate].
Qed.
End EntriesFacts.

Lemma tagSimilarity_same_tags (ts : list Tag) :
  ts <> [] -> (forall t, In t ts -> (0 < tag_rank t)%N) -> tagSimilarity ts ts == 1.
Proof.
  intros Hne Hpos. unfold tagSimilarity.
  set (m := JsMap.of_entries String.eqb (map (fun t => (tag_name t, tag_rank t)) ts)).
  set (allTags := JsMap.set_of String.eqb (JsMap.keys m ++ JsMap.keys m)).
  pose proof (tag_loop_same_map m allTags (0%N, 0%N) eq_refl) as Hsame.
  destruct ts as [| t0 rest]; [congruence|].
  assert (Hk : In (tag_name t0)
                  (map fst (map (fun t => (tag_name t, tag_rank t)) (t0 :: rest))))
    by (left; reflexivity).
  destruct (of_entries_get String.eqb String.eqb_spec _ _ Hk) as [r [Hget Hin]].
  fold m in Hget.
  assert (Hr : (0 < r)%N).
  { apply in_map_iff in Hin as [t [E Ht]]. injection E as _ <-. apply Hpos, Ht. }
  assert (Htag : In (tag_name t0) allTags).
  { apply (set_of_In String.eqb String.eqb_spec), in_or_app. left.
    eapply (get_Some_In_keys String.eqb String.eqb_spec), Hget. }
  pose proof (tag_loop_total_reaches m m allTags (0%N, 0%N) _ Htag) as Htot.
  unfold rank_or_0 in Htot at 1 2. rewrite Hget, N.max_id in Htot.
  destruct (fold_left (tag_step m m) allTags (0%N, 0%N)) as [totalWeight matchWeight].
  simpl in *. subst matchWeight.
  destruct (N.ltb_spec 0 totalWeight); [|lia].
  assert (0 < QofN totalWeight)
    by (unfold QofN; change 0 with (inject_Z 0); rewrite <- Zlt_Qlt; lia).
  field. lra.
Qed.

Lemma jaccardSimilarity_same_list {A : Type} (eqb : A -> A -> bool)
    (eqb_spec : forall x y, reflect (x = y) (eqb x y)) (l : list A) :
  NoDup l -> nonempty l = true -> jaccardSimilarity eqb l l == 1.
Proof.
  intros Hnd Hne. unfold jaccardSimilarity.
  unfold nonempty in Hne. apply Nat.ltb_lt in Hne.
  destruct (Nat.eqb_spec (length l) 0) as [E | _]; [lia|]. simpl.
  rewrite filter_all_true by (intros x Hx; apply (includes_In eqb eqb_spec), Hx).
  assert (E : length (JsMap.set_of eqb (l ++ l)) = length l).
  { apply Permutation_length, NoDup_Permutation;
      [apply (set_of_NoDup eqb eqb_spec) | exact Hnd |].
    intro x. rewrite (set_of_In eqb eqb_spec), in_app_iff. tauto. }
  rewrite E.
  assert (0 < QofNat (length l)) by (apply QofNat_pos; exact Hne).
  field. lra.
Qed.

Lemma balanced_add_one (acc : Acc) (sim w : Q) :
  sim == 1 -> fst acc == snd acc ->
  fst (add_factor acc sim w) == snd (add_factor acc sim w).
Proof.
  intros Hs Hb. unfold add_factor. simpl. rewrite Hs, Hb. ring.
Qed.

Lemma weights_grow (a b : Anime) :
  snd (genre_block a b (0, 0)) <= snd (similarity_and_weights a b).
Proof.
  unfold similarity_and_weights.
  set (acc1 := genre_block a b (0, 0)).
  assert (H2 : snd acc1 <= snd (tag_block a b acc1)).
  { unfold tag_block. destruct (nonempty (tags a) && nonempty (tags b))%bool; [|lra].
    match goal with |- context [if ?c then _ else _] => destruct c end; simpl; lra. }
  set (acc2 := tag_block a b acc1) in *.
  assert (H3 : snd acc2 <= snd (studio_block a b acc2)).
  { unfold studio_block. destruct (nonempty (studios a) && nonempty (studios b))%bool;
      simpl; lra. }
  set (acc3 := studio_block a b acc2) in *.
  assert (H4 : snd acc3 <= snd (staff_block a b acc3)).
  { unfold staff_block. destruct (nonempty (staff a) && nonempty (staff b))%bool;
      simpl; lra. }
  set (acc4 := staff_block a b acc3) in *.
  assert (H5 : snd acc4 <= snd (format_block a b acc4)).
  { unfold format_block.
    match goal with |- context [if ?c then _ else _] => destruct c end; simpl; lra. }
  set (acc5 := format_block a b acc4) in *.
  assert (H6 : snd acc5 <= snd (season_block a b acc5)).
  { unfold season_block.
    destruct (seasonYear a) as [ya|]; [|lra].
    destruct (seasonYear b) as [yb|]; [|lra].
    destruct (negb (ya =? 0)%Z && negb (yb =? 0)%Z)%bool; [|lra].
    destruct (Z.abs (ya - yb) <=? 2)%Z; simpl; lra. }
  set (acc6 := season_block a b acc5) in *.
  assert (H7 : snd acc6 <= snd (relation_block a b acc6)).
  { unfold relation_block.
    destruct (JsMap.includes Z.eqb (relations a) (anime_id b)); simpl; lra. }
  lra.
Qed.

(** Two items with the same attributes, whose genre, studio and staff
    lists have no duplicates and whose non-spoiler tags have positive
    ranks, get every applicable factor at its full value: the accumulated
    similarity equals the accumulated weight, and the score is 1 as soon
    as one factor applies (for instance when they have a genre). *)
Theorem same_attributes_score_one (a b : Anime) :
  same_attributes a b ->
  NoDup (genres a) -> NoDup (studios a) -> NoDup (staff a) -> positive_ranks a ->
  fst (similarity_and_weights a b) == snd (similarity_and_weights a b)
  /\ (0 < snd (similarity_and_weights a b) -> computeAnimeSimilarity a b == 1)
  /\ (genres a <> [] -> computeAnimeSimilarity a b == 1).
Proof.
  intros (Eg & Et & Es & Ef & Efo & Ey) Hg Hs Hf Hpos.
  assert (Hbal : fst (similarity_and_weights a b) == snd (similarity_and_weights a b)).
  { unfold similarity_and_weights.
    assert (H1 : fst (genre_block a b (0, 0)) == snd (genre_block a b (0, 0))).
    { unfold genre_block. rewrite <- Eg.
      destruct (nonempty (genres a)) eqn:En; cbn [andb]; [|reflexivity].
      apply balanced_add_one; [|reflexivity].
      apply (jaccardSimilarity_same_list String.eqb String.eqb_spec); assumption. }
    set (acc1 := genre_block a b (0, 0)) in *.
    assert (H2 : fst (tag_block a b acc1) == snd (tag_block a b acc1)).
    { unfold tag_block. rewrite <- Et.
      destruct (nonempty (tags a) && nonempty (tags a))%bool; [|exact H1].
      destruct (nonempty (filter (fun t => negb (isMediaSpoiler t)) (tags a))) eqn:En;
        cbn [andb]; [|exact H1].
      apply balanced_add_one; [|exact H1].
      apply tagSimilarity_same_tags.
      - intro E. rewrite E in En. discriminate.
      - intros t Ht. apply filter_In in Ht as [Ht Hsp].
        apply Hpos; [exact Ht | apply negb_true_iff, Hsp]. }
    set (acc2 := tag_block a b acc1) in *.
    assert (H3 : fst (studio_block a b acc2) == snd (studio_block a b acc2)).
    { unfold studio_block. rewrite <- Es.
      destruct (nonempty (studios a)) eqn:En; cbn [andb]; [|exact H2].
      apply balanced_add_one; [|exact H2].
      apply (jaccardSimilarity_same_list Z.eqb Z.eqb_spec); assumption. }
    set (acc3 := studio_block a b acc2) in *.
    assert (H4 : fst (staff_block a b acc3) == snd (staff_block a b acc3)).
    { unfold staff_block. rewrite <- Ef.
      destruct (nonempty (staff a)) eqn:En; cbn [andb]; [|exact H3].
      apply balanced_add_one; [|exact H3].
      apply (jaccardSimilarity_same_list Z.eqb Z.eqb_spec); assumption. }
    set (acc4 := staff_block a b acc3) in *.
    assert (H5 : fst (format_block a b acc4) == snd (format_block a b acc4)).
    { unfold format_block.
      match goal with |- context [if ?c then _ else _] => destruct c end;
        simpl; [rewrite H4; reflexivity | exact H4]. }
    set (acc5 := format_block a b acc4) in *.
    assert (H6 : fst (season_block a b acc5) == snd (season_block a b acc5)).
    { unfold season_block. rewrite <- Ey.
      destruct (seasonYear a) as [ya|]; [|exact H5].
      destruct (negb (ya =? 0)%Z && negb (ya =? 0)%Z)%bool; [|exact H5].
      rewrite Z.sub_diag. simpl Z.abs. simpl Z.leb. cbv iota.
      apply balanced_add_one; [|exact H5]. reflexivity. }
    set (acc6 := season_block a b acc5) in *.
    unfold relation_block.
    destruct (JsMap.includes Z.eqb (relations a) (anime_id b));
      simpl; [rewrite H6; reflexivity | exact H6]. }
  assert (Hone : 0 < snd (similarity_and_weights a b) -> computeAnimeSimilarity a b == 1).
  { intro Hw. unfold computeAnimeSimilarity.
    destruct (similarity_and_weights a b) as [similarity weights]. simpl in *.
    destruct (Qltb 0 weights) eqn:E; [|apply Qltb_ge in E; lra].
    rewrite Hbal. field. lra. }
  split; [exact Hbal|]. split; [exact Hone|].
  intro Hne. apply Hone.
  pose proof (weights_grow a b) as Hgrow.
  unfold genre_block in Hgrow. rewrite <- Eg in Hgrow.
  assert (En : nonempty (genres a) = true) by (destruct (genres a); [congruence | reflexivity]).
  rewrite En in Hgrow. simpl in Hgrow. lra.
Qed.

Lemma same_attributes_score_one_witness :
  fst (similarity_and_weights Samples.drama_a Samples.drama_b)
  == snd (similarity_and_weights Samples.drama_a Samples.drama_b)
  /\ (0 < snd (similarity_and_weights Samples.drama_a Samples.drama_b) ->
      computeAnimeSimilarity Samples.drama_a Samples.drama_b == 1)
  /\ (genres Samples.drama_a <> [] ->
      computeAnimeSimilarity Samples.drama_a Samples.drama_b == 1).
Proof.
  apply (same_attributes_score_one Samples.drama_a Samples.drama_b).
  - repeat split; reflexivity.
  - simpl. solve_NoDup.
  - constructor.
  - constructor.
  - intros t [].
Defined.

(** ** Metadata similarity: which pairs become edges *)

Lemma similarities_from_In (threshold : Q) (a : Anime) (rest : list Anime) (e : Edge) :
  In e (similarities_from threshold a rest)
  <-> exists mid b post,
        rest = mid ++ b :: post
        /\ threshold <= computeAnimeSimilarity a b
        /\ e = mkEdge (anime_id a) (anime_id b) (computeAnimeSimilarity a b).
Proof.
  induction rest as [| b rest IH]; simpl.
  - split; [intros [] | intros (mid & b & post & E & _)].
    destruct mid; discriminate.
  - split.
    + intro H.
      assert (Hrest : In e (similarities_from threshold a rest) ->
                      exists mid b0 post,
                        b :: rest = mid ++ b0 :: post
                        /\ threshold <= computeAnimeSimilarity a b0
                        /\ e = mkEdge (anime_id a) (anime_id b0)
                                      (computeAnimeSimilarity a b0)).
      { intro Hin. apply IH in Hin as (mid & b0 & post & -> & Hle & He).
        exists (b :: mid), b0, post. auto. }
      destruct (Qle_bool threshold (computeAnimeSimilarity a b)) eqn:E; [|auto].
      destruct H as [<- | H]; [|auto].
      exists [], b, rest. apply Qle_bool_iff in E. auto.
    + intros (mid & b0 & post & E & Hle & He).
      destruct mid as [| m mid]; simpl in E; injection E as <- E.
      * subst. apply Qle_bool_iff in Hle. rewrite Hle. left. reflexivity.
      * assert (Hin : In e (similarities_from threshold a rest))
          by (apply IH; exists mid, b0, post; auto).
        destruct (Qle_bool threshold (computeAnimeSimilarity a b)); [right|]; exact Hin.
Qed.

Lemma similarities_from_length (threshold : Q) (a : Anime) (rest : list Anime) :
  (length (similarities_from threshold a rest) <= length rest)%nat.
Proof.
  induction rest as [| b rest IH]; simpl; [lia|].
  destruct (Qle_bool threshold (computeAnimeSimilarity a b)); simpl; lia.
Qed.

(** [computeSimilarities] emits exactly one edge for every pair of items
    [a], [b] with [a] before [b] in the list whose score reaches the
    threshold: its source is [a], its target [b] and its weight their
    score. A list of [n] items gives at most [n (n - 1) / 2] edges. *)
Theorem computeSimilarities_pairs (threshold : Q) (animeList : list Anime) :
  (forall e,
      In e (computeSimilarities threshold animeList)
      <-> exists pre a mid b post,
            animeList = pre ++ a :: mid ++ b :: post
            /\ threshold <= computeAnimeSimilarity a b
            /\ e = mkEdge (anime_id a) (anime_id b) (computeAnimeSimilarity a b))
  /\ (2 * length (computeSimilarities threshold animeList)
      <= length animeList * (length animeList - 1))%nat.
Proof.
  split.
  - induction animeList as [| a rest IH]; intro e; simpl.
    + split; [intros [] | intros (pre & a & mid & b & post & E & _)].
      destruct pre; discriminate.
    + rewrite in_app_iff, similarities_from_In, IH. split.
      * intros [(mid & b & post & -> & Hle & He) | (pre & a0 & mid & b & post & -> & Hle & He)].
        -- exists [], a, mid, b, post. auto.
        -- exists (a :: pre), a0, mid, b, post. auto.
      * intros (pre & a0 & mid & b & post & E & Hle & He).
        destruct pre as [| p pre]; simpl in E; injection E as <- E.
        -- left. exists mid, b, post. auto.
        -- right. exists pre, a0, mid, b, post. auto.
  - induction animeList as [| a rest IH]; simpl; [lia|].
    rewrite length_app. pose proof (similarities_from_length threshold a rest).
    rewrite Nat.sub_0_r. destruct (length rest) as [| n]; simpl in *; nia.
Qed.

Lemma similarities_from_ends (threshold : Q) (a : Anime) (rest : list Anime) :
  (forall e, In e (similarities_from threshold a rest) ->
             source e = anime_id a /\ In (target e) (map anime_id rest))
  /\ (NoDup (map anime_id rest) ->
      NoDup (map endpoints (similarities_from threshold a rest))).
Proof.
  induction rest as [| b rest [IH1 IH2]]; simpl.
  - split; [intros e [] | intros _; constructor].
  - destruct (Qle_bool threshold (computeAnimeSimilarity a b)).
    + split.
      * intros e [<- | He]; [simpl; auto|].
        destruct (IH1 e He). auto.
      * intro Hnd. inversion Hnd as [| ? ? Hnotin Hnd']; subst. simpl.
        constructor; [|apply IH2, Hnd'].
        intro Hin. apply in_map_iff in Hin as [e [Ee He]].
        destruct (IH1 e He) as [_ Ht]. unfold endpoints in Ee.
        injection Ee as _ Et. simpl in Et. rewrite Et in Ht. contradiction.
    + split.
      * intros e He. destruct (IH1 e He). auto.
      * intro Hnd. inversion Hnd; subst. auto.
Qed.

Lemma computeSimilarities_ends (threshold : Q) (animeList : list Anime) (e : Edge) :
  In e (computeSimilarities threshold animeList) ->
  In (source e) (map anime_id animeList) /\ In (target e) (map anime_id animeList).
Proof.
  induction animeList as [| a rest IH]; simpl; [intros []|].
  rewrite in_app_iff. intros [H | H].
  - destruct (proj1 (similarities_from_ends threshold a rest) e H) as [-> Ht]. auto.
  - destruct (IH H). auto.
Qed.

(** When the items have pairwise different ids, no edge joins an item to
    itself, no pair of ids is emitted twice, and no pair is emitted in both
    orientations. *)
Theorem computeSimilarities_unique_pairs (threshold : Q) (animeList : list Anime) :
  NoDup (map anime_id animeList) ->
  NoDup (map endpoints (computeSimilarities threshold animeList))
  /\ (forall e1 e2,
         In e1 (computeSimilarities threshold animeList) ->
         In e2 (computeSimilarities threshold animeList) ->
         ~ (source e1 = target e2 /\ target e1 = source e2)).
Proof.
  induction animeList as [| a rest IH]; simpl; intro Hnd.
  - split; [constructor | intros e1 e2 []].
  - inversion Hnd as [| ? ? Hnotin Hnd']; subst.
    destruct (IH Hnd') as [IHa IHb].
    destruct (similarities_from_ends threshold a rest) as [Hfrom Hfrom_nd].
    split.
    + rewrite map_app. apply NoDup_app; [apply Hfrom_nd, Hnd' | exact IHa |].
      intros p Hp1 Hp2.
      apply in_map_iff in Hp1 as [e1 [<- He1]]. apply in_map_iff in Hp2 as [e2 [E He2]].
      destruct (Hfrom e1 He1) as [Hs _].
      destruct (computeSimilarities_ends _ _ _ He2) as [Hs2 _].
      unfold endpoints in E. injection E as Es _. congruence.
    + intros e1 e2 H1 H2 [Hst Hts].
      apply in_app_iff in H1 as [H1 | H1]; apply in_app_iff in H2 as [H2 | H2].
      * destruct (Hfrom e1 H1) as [Hs1 Ht1]. destruct (Hfrom e2 H2) as [Hs2 Ht2]. congruence.
      * destruct (Hfrom e1 H1) as [Hs1 _].
        destruct (computeSimilarities_ends _ _ _ H2) as [_ Ht2]. congruence.
      * destruct (Hfrom e2 H2) as [Hs2 _].
        destruct (computeSimilarities_ends _ _ _ H1) as [_ Ht1]. congruence.
      * exact (IHb e1 e2 H1 H2 (conj Hst Hts)).
Qed.

Lemma computeSimilarities_unique_pairs_witness :
  NoDup (map endpoints (computeSimilarities MIN_SIMILARITY RecSamples.meta_list))
  /\ (forall e1 e2,
         In e1 (computeSimilarities MIN_SIMILARITY RecSamples.meta_list) ->
         In e2 (computeSimilarities MIN_SIMILARITY RecSamples.meta_list) ->
         ~ (source e1 = target e2 /\ target e1 = source e2)).
Proof.
  apply (computeSimilarities_unique_pairs MIN_SIMILARITY RecSamples.meta_list).
  simpl. repeat (constructor; [simpl; intuition discriminate |]); constructor.
Defined.

(** ** Metadata graph: which items become nodes *)

(** [buildGraph] passes the edges through unchanged and keeps, in list
    order, exactly the items whose id is the source or the target of an
    edge. Built from the edges of [computeSimilarities] on the same list,
    the graph has no dangling edge: both ends of every edge are nodes. *)
Theorem buildGraph_nodes_and_edges (animeList : list Anime) (es : list Edge) :
  edges (buildGraph animeList es) = es
  /\ map node_id (nodes (buildGraph animeList es))
     = filter (fun k => existsb (fun e => (source e =? k)%Z || (target e =? k)%Z) es)
              (map anime_id animeList)
  /\ (forall threshold e,
         In e (edges (buildGraph animeList (computeSimilarities threshold animeList))) ->
         In (source e)
            (map node_id
               (nodes (buildGraph animeList (computeSimilarities threshold animeList))))
         /\ In (target e)
              (map node_id
                 (nodes (buildGraph animeList (computeSimilarities threshold animeList))))).
Proof.
  assert (Hkeep : forall es' k,
             JsMap.includes Z.eqb
               (fold_left (fun s edge =>
                             JsMap.add Z.eqb (JsMap.add Z.eqb s (source edge)) (target edge))
                          es' []) k
             = existsb (fun e => (source e =? k)%Z || (target e =? k)%Z) es').
  { intros es' k. apply eq_true_iff_eq.
    rewrite (includes_In Z.eqb Z.eqb_spec), nodeIds_In, existsb_exists. split.
    - intros [[] | [e [He Hk]]]. exists e. split; [exact He|].
      apply orb_true_iff. destruct Hk as [<- | <-]; [left | right]; apply Z.eqb_refl.
    - intros [e [He Hk]]. right. exists e. split; [exact He|].
      apply orb_true_iff in Hk as [Hk | Hk]; apply Z.eqb_eq in Hk; auto. }
  assert (Hnodes : forall es',
             map node_id (nodes (buildGraph animeList es'))
             = filter (fun k => existsb (fun e => (source e =? k)%Z || (target e =? k)%Z) es')
                      (map anime_id animeList)).
  { intro es'. unfold buildGraph. cbn [nodes].
    induction animeList as [| a rest IH]; [reflexivity|].
    cbn [map filter node_id]. rewrite Hkeep.
    destruct (existsb _ es'); cbn [map node_id]; rewrite IH; reflexivity. }
  split; [reflexivity|]. split; [apply Hnodes|].
  intros threshold e He. cbn [edges buildGraph] in He.
  rewrite Hnodes.
  destruct (computeSimilarities_ends _ _ _ He) as [Hs Ht].
  split; apply filter_In; (split; [assumption|]); apply existsb_exists; exists e;
    (split; [exact He|]); apply orb_true_iff; [left | right]; apply Z.eqb_refl.
Qed.

(** ** Genre communities: the community names a genre of the item *)

Lemma genreToCommunity_entry (g : string) (k : nat) :
  JsMap.get String.eqb GenreCommunities.genreToCommunity g = Some k ->
  nth_error GenreCommunities.primaryGenres k = Some g.
Proof.
  intro H.
  assert (Hin : In g GenreCommunities.primaryGenres).
  { rewrite <- genreToCommunity_keys.
    eapply (get_Some_In_keys String.eqb String.eqb_spec), H. }
  unfold GenreCommunities.primaryGenres in Hin.
  repeat (destruct Hin as [<- | Hin];
          [vm_compute in H; injection H as <-; reflexivity |]).
  destruct Hin.
Qed.

Lemma first_matching_sound (node_genres : list string) (k : nat) :
  GenreCommunities.first_matching node_genres = Some k ->
  exists g, In g node_genres /\ nth_error GenreCommunities.primaryGenres k = Some g.
Proof.
  induction node_genres as [| g rest IH]; [discriminate|].
  change (GenreCommunities.first_matching (g :: rest))
    with (if JsMap.has String.eqb GenreCommunities.genreToCommunity g
          then JsMap.get String.eqb GenreCommunities.genreToCommunity g
          else GenreCommunities.first_matching rest).
  destruct (JsMap.has String.eqb GenreCommunities.genreToCommunity g).
  - intro H. exists g. split; [left; reflexivity | apply genreToCommunity_entry, H].
  - intro H. destruct (IH H) as [g' [Hin Hk]]. exists g'. split; [right|]; assumption.
Qed.

(** [detectCommunities] gives every item one community between 0 and 15. A
    community below 15 is the position, in the canonical list, of a genre
    the item has; community 15 means that none of the item's genres is
    canonical. *)
Theorem community_of_names_own_genre (node_genres : list string) :
  (GenreCommunities.community_of node_genres <= 15)%nat
  /\ ((GenreCommunities.community_of node_genres < 15)%nat ->
      exists g, In g node_genres
                /\ nth_error GenreCommunities.primaryGenres
                     (GenreCommunities.community_of node_genres) = Some g)
  /\ (GenreCommunities.community_of node_genres = 15%nat ->
      forall g, In g node_genres -> ~ In g GenreCommunities.primaryGenres).
Proof.
  unfold GenreCommunities.community_of.
  change GenreCommunities.defaultCommunity with 15%nat.
  destruct (nonempty node_genres) eqn:En.
  - destruct (GenreCommunities.first_matching node_genres) as [k|] eqn:Ef.
    + destruct (first_matching_sound _ _ Ef) as [g [Hin Hk]].
      assert (Hlt : (k < 15)%nat).
      { assert (Hs : nth_error GenreCommunities.primaryGenres k <> None) by congruence.
        apply nth_error_Some in Hs. exact Hs. }
      split; [lia|]. split; [intros _; exists g; auto | lia].
    + split; [lia|]. split; [lia|]. intros _ g Hg Hprim.
      assert (Hex : exists pre' g' post',
                 node_genres = pre' ++ g' :: post'
                 /\ (forall h, In h pre' -> ~ In h GenreCommunities.primaryGenres)
                 /\ In g' GenreCommunities.primaryGenres).
      { clear - Hg Hprim. induction node_genres as [| h rest IH]; [destruct Hg|].
        destruct (in_dec string_dec h GenreCommunities.primaryGenres) as [Hh | Hh].
        - exists [], h, rest. split; [reflexivity|]. split; [intros ? []|exact Hh].
        - destruct Hg as [-> | Hg]; [contradiction|].
          destruct (IH Hg) as (pre' & g' & post' & -> & Hpre & Hg').
          exists (h :: pre'), g', post'. split; [reflexivity|]. split; [|exact Hg'].
          intros x [<- | Hx]; [exact Hh | apply Hpre, Hx]. }
      destruct Hex as (pre' & g' & post' & E' & Hpre & Hg').
      destruct (In_nth_error _ _ Hg') as [k' Hk'].
      rewrite E', (first_matching_skips pre' (g' :: post') Hpre) in Ef.
      change (GenreCommunities.first_matching (g' :: post'))
        with (if JsMap.has String.eqb GenreCommunities.genreToCommunity g'
              then JsMap.get String.eqb GenreCommunities.genreToCommunity g'
              else GenreCommunities.first_matching post') in Ef.
      unfold JsMap.has in Ef. rewrite (genreToCommunity_index k' g' Hk') in Ef.
      discriminate.
  - split; [lia|]. split; [lia|]. intros _ g Hg.
    destruct node_genres; [destruct Hg | discriminate].
Qed.

(** ** Label propagation: the adjacency lists *)

Lemma neighbors_of_set (adj : LabelPropagation.Adjacency) (k k' : Z)
    (l : list LabelPropagation.Neighbor) :
  LabelPropagation.neighbors_of (JsMap.set Z.eqb adj k l) k'
  = if (k =? k')%Z then l else LabelPropagation.neighbors_of adj k'.
Proof.
  unfold LabelPropagation.neighbors_of.
  destruct (Z.eqb_spec k k') as [E | E].
  - subst k'. rewrite (get_set_same Z.eqb Z.eqb_spec). reflexivity.
  - rewrite (get_set_other Z.eqb Z.eqb_spec) by exact E. reflexivity.
Qed.

Lemma keys_set_present {V : Type} (m : list (Z * V)) (k : Z) (v : V) :
  In k (JsMap.keys m) -> JsMap.keys (JsMap.set Z.eqb m k v) = JsMap.keys m.
Proof.
  intro H. rewrite (keys_set Z.eqb Z.eqb_spec). unfold JsMap.add.
  apply (includes_In Z.eqb Z.eqb_spec) in H. rewrite H. reflexivity.
Qed.

Lemma adjacency_init_fold (nodes : list Node) (acc : LabelPropagation.Adjacency) :
  (forall k, LabelPropagation.neighbors_of acc k = []) ->
  (forall k, LabelPropagation.neighbors_of
               (fold_left (fun adjacency node => JsMap.set Z.eqb adjacency (node_id node) [])
                          nodes acc) k = [])
  /\ (forall k, In k (JsMap.keys
                        (fold_left (fun adjacency node =>
                                      JsMap.set Z.eqb adjacency (node_id node) [])
                                   nodes acc))
                <-> In k (JsMap.keys acc) \/ In k (map node_id nodes)).
Proof.
  revert acc. induction nodes as [| node rest IH]; intros acc Hacc; simpl.
  - split; [exact Hacc | intro k; tauto].
  - destruct (IH (JsMap.set Z.eqb acc (node_id node) [])) as [IH1 IH2].
    + intro k. rewrite neighbors_of_set. destruct (node_id node =? k)%Z; auto.
    + split; [exact IH1|]. intro k. rewrite IH2, (keys_set Z.eqb Z.eqb_spec),
        (add_In Z.eqb Z.eqb_spec). intuition congruence.
Qed.

Lemma adjacency_init_spec (nodes : list Node) :
  (forall k, LabelPropagation.neighbors_of (LabelPropagation.adjacency_init nodes) k = [])
  /\ (forall k, In k (JsMap.keys (LabelPropagation.adjacency_init nodes))
                <-> In k (map node_id nodes)).
Proof.
  destruct (adjacency_init_fold nodes []) as [H1 H2]; [reflexivity|].
  split; [exact H1|]. intro k. unfold LabelPropagation.adjacency_init.
  rewrite H2. simpl. tauto.
Qed.

Lemma push_spec (adj : LabelPropagation.Adjacency) (k : Z) (x : LabelPropagation.Neighbor) :
  (In k (JsMap.keys adj) ->
   exists adj', LabelPropagation.push adj k x = Some adj'
                /\ JsMap.keys adj' = JsMap.keys adj
                /\ forall k', LabelPropagation.neighbors_of adj' k'
                              = LabelPropagation.neighbors_of adj k'
                                ++ (if (k =? k')%Z then [x] else []))
  /\ (~ In k (JsMap.keys adj) -> LabelPropagation.push adj k x = None).
Proof.
  unfold LabelPropagation.push. split; intro H.
  - destruct (In_keys_get Z.eqb Z.eqb_spec adj k H) as [l Hl]. rewrite Hl.
    eexists. split; [reflexivity|]. split; [apply keys_set_present, H|].
    intro k'. rewrite neighbors_of_set.
    destruct (Z.eqb_spec k k') as [<- | E].
    + unfold LabelPropagation.neighbors_of. rewrite Hl. reflexivity.
    + rewrite app_nil_r. reflexivity.
  - destruct (JsMap.get Z.eqb adj k) as [l|] eqn:Hl; [|reflexivity].
    exfalso. apply H. eapply (get_Some_In_keys Z.eqb Z.eqb_spec), Hl.
Qed.

Lemma add_edge_spec (adj : LabelPropagation.Adjacency) (e : Edge) :
  (In (source e) (JsMap.keys adj) /\ In (target e) (JsMap.keys adj) ->
   exists adj', LabelPropagation.add_edge (Some adj) e = Some adj'
                /\ JsMap.keys adj' = JsMap.keys adj
                /\ forall k, LabelPropagation.neighbors_of adj' k
                             = LabelPropagation.neighbors_of adj k ++ incident k e)
  /\ (~ (In (source e) (JsMap.keys adj) /\ In (target e) (JsMap.keys adj)) ->
      LabelPropagation.add_edge (Some adj) e = None).
Proof.
  unfold LabelPropagation.add_edge. split.
  - intros [Hs Ht].
    destruct (proj1 (push_spec adj (source e)
                       (LabelPropagation.mkNeighbor (target e) (weight e)) ) Hs)
      as (adj1 & -> & Hk1 & Hn1).
    rewrite <- Hk1 in Ht.
    destruct (proj1 (push_spec adj1 (target e)
                       (LabelPropagation.mkNeighbor (source e) (weight e))) Ht)
      as (adj2 & -> & Hk2 & Hn2).
    exists adj2. split; [reflexivity|]. split; [congruence|].
    intro k. rewrite Hn2, Hn1, <- app_assoc. reflexivity.
  - intro H.
    destruct (in_dec Z.eq_dec (source e) (JsMap.keys adj)) as [Hs | Hs].
    + destruct (proj1 (push_spec adj (source e)
                         (LabelPropagation.mkNeighbor (target e) (weight e))) Hs)
        as (adj1 & -> & Hk1 & _).
      apply push_spec. rewrite Hk1. tauto.
    + rewrite (proj2 (push_spec adj (source e) _) Hs). reflexivity.
Qed.

Lemma add_edge_None (es : list Edge) :
  fold_left LabelPropagation.add_edge es None = None.
Proof.
  induction es as [| e es IH]; [reflexivity | exact IH].
Qed.

Lemma build_adjacency_fold (es : list Edge) (adj : LabelPropagation.Adjacency) :
  ((forall e, In e es -> In (source e) (JsMap.keys adj) /\ In (target e) (JsMap.keys adj)) ->
   exists adj', fold_left LabelPropagation.add_edge es (Some adj) = Some adj'
                /\ JsMap.keys adj' = JsMap.keys adj
                /\ forall k, LabelPropagation.neighbors_of adj' k
                             = LabelPropagation.neighbors_of adj k
                               ++ flat_map (incident k) es)
  /\ (forall adj', fold_left LabelPropagation.add_edge es (Some adj) = Some adj' ->
      forall e, In e es -> In (source e) (JsMap.keys adj) /\ In (target e) (JsMap.keys adj)).
Proof.
  revert adj. induction es as [| e es IH]; intro adj.
  - split.
    + intros _. exists adj. split; [reflexivity|]. split; [reflexivity|].
      intro k. simpl. rewrite app_nil_r. reflexivity.
    + intros adj' _ e [].
  - cbn [fold_left]. split.
    + intro Hall.
      destruct (proj1 (add_edge_spec adj e) (Hall e (or_introl eq_refl)))
        as (adj1 & -> & Hk1 & Hn1).
      destruct (proj1 (IH adj1)) as (adj2 & E2 & Hk2 & Hn2).
      { intros e' He'. rewrite Hk1. apply Hall. right. exact He'. }
      exists adj2. split; [exact E2|]. split; [congruence|].
      intro k. rewrite Hn2, Hn1, <- app_assoc. reflexivity.
    + intros adj' Hfold e' He'.
      destruct (in_dec Z.eq_dec (source e) (JsMap.keys adj)) as [Hs | Hs];
        [destruct (in_dec Z.eq_dec (target e) (JsMap.keys adj)) as [Ht | Ht]|].
      * destruct (proj1 (add_edge_spec adj e) (conj Hs Ht)) as (adj1 & E1 & Hk1 & _).
        rewrite E1 in Hfold.
        destruct He' as [<- | He']; [auto|].
        rewrite <- Hk1. exact (proj2 (IH adj1) adj' Hfold e' He').
      * rewrite (proj2 (add_edge_spec adj e)), add_edge_None in Hfold by tauto.
        discriminate.
      * rewrite (proj2 (add_edge_spec adj e)), add_edge_None in Hfold by tauto.
        discriminate.
Qed.

(** The adjacency lists can be built exactly when every edge joins two
    nodes of the graph (otherwise the script throws); the list of a node
    then holds, in edge order, the far end and the weight of every edge at
    that node, a loop twice. *)
Theorem build_adjacency_lists (graph : Graph) :
  ((exists adjacency, LabelPropagation.build_adjacency graph = Some adjacency)
   <-> edges_closed graph)
  /\ (forall adjacency k,
         LabelPropagation.build_adjacency graph = Some adjacency ->
         LabelPropagation.neighbors_of adjacency k = flat_map (incident k) (edges graph)).
Proof.
  unfold LabelPropagation.build_adjacency, edges_closed.
  destruct (adjacency_init_spec (nodes graph)) as [Hempty Hkeys].
  destruct (build_adjacency_fold (edges graph)
              (LabelPropagation.adjacency_init (nodes graph))) as [Hok Hback].
  split; [split|].
  - intros [adjacency H] e He. rewrite <- !Hkeys. exact (Hback adjacency H e He).
  - intro Hall. destruct Hok as (adj' & E & _).
    + intros e He. rewrite !Hkeys. apply Hall, He.
    + exists adj'. exact E.
  - intros adjacency k H.
    destruct Hok as (adj' & E & _ & Hn); [exact (Hback adjacency H)|].
    rewrite E in H. injection H as <-. rewrite Hn, Hempty. reflexivity.
Qed.

(** ** Label propagation: labels stay node ids *)

Lemma neighbors_closed (graph : Graph) (adjacency : LabelPropagation.Adjacency)
    (k : Z) (nb : LabelPropagation.Neighbor) :
  LabelPropagation.build_adjacency graph = Some adjacency ->
  In nb (LabelPropagation.neighbors_of adjacency k) ->
  In (LabelPropagation.nb_id nb) (map node_id (nodes graph)).
Proof.
  unfold LabelPropagation.build_adjacency. intros H Hnb.
  destruct (adjacency_init_spec (nodes graph)) as [Hempty Hkeys].
  destruct (build_adjacency_fold (edges graph)
              (LabelPropagation.adjacency_init (nodes graph))) as [Hok Hback].
  pose proof (Hback adjacency H) as Hclosed.
  destruct (Hok Hclosed) as (adj' & E & _ & Hn).
  rewrite E in H. injection H as <-.
  rewrite Hn, Hempty in Hnb. simpl in Hnb.
  apply in_flat_map in Hnb as [e [He Hin]].
  destruct (Hclosed e He) as [Hs Ht]. apply Hkeys in Hs. apply Hkeys in Ht.
  unfold incident in Hin. apply in_app_iff in Hin as [Hin | Hin].
  - destruct (source e =? k)%Z; [|destruct Hin].
    destruct Hin as [<- | []]. exact Ht.
  - destruct (target e =? k)%Z; [|destruct Hin].
    destruct Hin as [<- | []]. exact Hs.
Qed.

Lemma communities_init_fold (nodes : list Node) (acc : LabelPropagation.Communities)
    (k : Z) :
  (In k (map node_id nodes) ->
   LabelPropagation.label_of
     (fold_left (fun communities node =>
                   JsMap.set Z.eqb communities (node_id node) (Some (node_id node)))
                nodes acc) k = Some k)
  /\ (~ In k (map node_id nodes) ->
      LabelPropagation.label_of
        (fold_left (fun communities node =>
                      JsMap.set Z.eqb communities (node_id node) (Some (node_id node)))
                   nodes acc) k = LabelPropagation.label_of acc k).
Proof.
  revert acc. induction nodes as [| node rest IH]; intro acc; cbn [fold_left map In].
  - split; [intros [] | reflexivity].
  - destruct (IH (JsMap.set Z.eqb acc (node_id node) (Some (node_id node))))
      as [IH1 IH2].
    assert (Hset : LabelPropagation.label_of
                     (JsMap.set Z.eqb acc (node_id node) (Some (node_id node))) k
                   = if (node_id node =? k)%Z then Some (node_id node)
                     else LabelPropagation.label_of acc k).
    { unfold LabelPropagation.label_of. destruct (Z.eqb_spec (node_id node) k) as [E | E].
      - subst k. rewrite (get_set_same Z.eqb Z.eqb_spec). reflexivity.
      - rewrite (get_set_other Z.eqb Z.eqb_spec) by exact E. reflexivity. }
    split.
    + intros [E | Hin].
      * destruct (in_dec Z.eq_dec k (map node_id rest)) as [Hr | Hr]; [apply IH1, Hr|].
        etransitivity; [apply (IH2 Hr)|].
        rewrite Hset, E, Z.eqb_refl. reflexivity.
      * apply IH1, Hin.
    + intro Hnot. etransitivity; [apply IH2; tauto|]. rewrite Hset.
      destruct (Z.eqb_spec (node_id node) k); [tauto | reflexivity].
Qed.

Lemma best_step_source (cw : list (LabelPropagation.Label * Q)) (m0 : Q)
    (b0 : LabelPropagation.Label) :
  snd (fold_left LabelPropagation.best_step cw (m0, b0)) = b0
  \/ In (snd (fold_left LabelPropagation.best_step cw (m0, b0))) (JsMap.keys cw).
Proof.
  revert m0 b0. induction cw as [| [c w] rest IH]; intros m0 b0; [left; reflexivity|].
  cbn [fold_left].
  change (LabelPropagation.best_step (m0, b0) (c, w))
    with (if Qltb m0 w then (w, c) else (m0, b0)).
  change (JsMap.keys ((c, w) :: rest)) with (c :: JsMap.keys rest).
  destruct (Qltb m0 w).
  - destruct (IH w c) as [H | H]; right; [left; symmetry | right]; exact H.
  - destruct (IH m0 b0) as [H | H]; [left | right; right]; exact H.
Qed.

Lemma best_community_source (communities : LabelPropagation.Communities)
    (neighbors : list LabelPropagation.Neighbor) (current : LabelPropagation.Label) :
  LabelPropagation.best_community communities neighbors current = current
  \/ exists nb, In nb neighbors
                /\ LabelPropagation.best_community communities neighbors current
                   = LabelPropagation.label_of communities (LabelPropagation.nb_id nb).
Proof.
  unfold LabelPropagation.best_community, LabelPropagation.find_best.
  destruct (best_step_source (LabelPropagation.count_weights communities neighbors)
              0 current) as [H | H]; [left; exact H | right].
  rewrite count_weights_keys in H.
  apply (proj1 (set_of_In _ label_eqb_spec _ _)) in H.
  unfold LabelPropagation.votes_of in H. rewrite map_map in H.
  apply in_map_iff in H as [nb [E Hnb]]. simpl in E.
  exists nb. split; [exact Hnb | symmetry; exact E].
Qed.

Lemma update_node_labels_within (graph : Graph) (adjacency : LabelPropagation.Adjacency)
    (communities : LabelPropagation.Communities) (changed : bool) (node : Node) :
  LabelPropagation.build_adjacency graph = Some adjacency ->
  labels_within (map node_id (nodes graph)) communities ->
  In (node_id node) (map node_id (nodes graph)) ->
  labels_within (map node_id (nodes graph))
                (fst (LabelPropagation.update_node adjacency (communities, changed) node)).
Proof.
  intros Hadj Hin Hnode k Hk.
  destruct (update_node_spec adjacency communities changed node)
    as (Hnone & Hbest & Hother).
  destruct (LabelPropagation.neighbors_of adjacency (node_id node)) as [| nb0 rest] eqn:En.
  - rewrite (Hnone eq_refl). apply Hin, Hk.
  - destruct (Z.eq_dec k (node_id node)) as [-> | Hne].
    + rewrite Hbest by discriminate.
      destruct (best_community_source communities (nb0 :: rest)
                  (LabelPropagation.label_of communities (node_id node)))
        as [E | [nb [Hnb E]]]; rewrite E.
      * apply Hin, Hnode.
      * apply Hin. apply (neighbors_closed graph adjacency (node_id node) nb Hadj).
        rewrite En. exact Hnb.
    + rewrite (Hother k Hne). apply Hin, Hk.
Qed.

Lemma sweep_labels_within (graph : Graph) (adjacency : LabelPropagation.Adjacency)
    (communities : LabelPropagation.Communities) :
  LabelPropagation.build_adjacency graph = Some adjacency ->
  labels_within (map node_id (nodes graph)) communities ->
  labels_within (map node_id (nodes graph))
                (fst (LabelPropagation.sweep adjacency (nodes graph) communities)).
Proof.
  intros Hadj. unfold LabelPropagation.sweep.
  assert (Hgen : forall (l : list Node) (st : LabelPropagation.Communities * bool),
             incl (map node_id l) (map node_id (nodes graph)) ->
             labels_within (map node_id (nodes graph)) (fst st) ->
             labels_within (map node_id (nodes graph))
               (fst (fold_left (LabelPropagation.update_node adjacency) l st))).
  { induction l as [| node rest IH]; intros st Hincl Hst; [exact Hst|].
    cbn [fold_left]. apply IH.
    - intros x Hx. apply Hincl. right. exact Hx.
    - destruct st as [c ch].
      apply (update_node_labels_within graph); [exact Hadj | exact Hst|].
      apply Hincl. left. reflexivity. }
  intro H. apply Hgen; [apply incl_refl | exact H].
Qed.

Lemma propagate_labels_within (graph : Graph) (adjacency : LabelPropagation.Adjacency)
    (remaining : nat) (communities : LabelPropagation.Communities) (iterations : nat) :
  LabelPropagation.build_adjacency graph = Some adjacency ->
  labels_within (map node_id (nodes graph)) communities ->
  labels_within (map node_id (nodes graph))
    (fst (LabelPropagation.propagate adjacency (nodes graph) remaining communities
                                     iterations)).
Proof.
  intro Hadj. revert communities iterations.
  induction remaining as [| r IH]; intros communities iterations H; [exact H|].
  change (LabelPropagation.propagate adjacency (nodes graph) (S r) communities iterations)
    with (let '(c', changed) := LabelPropagation.sweep adjacency (nodes graph) communities in
          if changed
          then LabelPropagation.propagate adjacency (nodes graph) r c' (S iterations)
          else (c', S iterations)).
  pose proof (sweep_labels_within graph adjacency communities Hadj H) as Hs.
  destruct (LabelPropagation.sweep adjacency (nodes graph) communities) as [c' changed].
  destruct changed; [apply IH, Hs | exact Hs].
Qed.

(** Label propagation never invents a label: on a graph whose adjacency
    lists can be built, every node starts with its own id as label, and
    after the loop the label of every node is still the id of some node of
    the graph. *)
Theorem propagation_keeps_node_labels (graph : Graph)
    (adjacency : LabelPropagation.Adjacency) :
  LabelPropagation.build_adjacency graph = Some adjacency ->
  (forall k, In k (map node_id (nodes graph)) ->
             LabelPropagation.label_of
               (LabelPropagation.communities_init (nodes graph)) k = Some k)
  /\ (forall k, In k (map node_id (nodes graph)) ->
        exists j, In j (map node_id (nodes graph))
                  /\ LabelPropagation.label_of
                       (fst (LabelPropagation.propagate adjacency (nodes graph)
                               LabelPropagation.maxIterations
                               (LabelPropagation.communities_init (nodes graph)) 0))
                       k = Some j).
Proof.
  intro Hadj.
  assert (Hinit : forall k, In k (map node_id (nodes graph)) ->
                    LabelPropagation.label_of
                      (LabelPropagation.communities_init (nodes graph)) k = Some k).
  { intros k Hk. apply (proj1 (communities_init_fold (nodes graph) [] k)), Hk. }
  split; [exact Hinit|].
  apply (propagate_labels_within graph adjacency); [exact Hadj|].
  intros k Hk. exists k. split; [exact Hk | apply Hinit, Hk].
Qed.

Lemma propagation_keeps_node_labels_witness :
  (forall k, In k (map node_id (nodes LpSamples.lp_graph)) ->
             LabelPropagation.label_of
               (LabelPropagation.communities_init (nodes LpSamples.lp_graph)) k = Some k)
  /\ (forall k, In k (map node_id (nodes LpSamples.lp_graph)) ->
        exists j, In j (map node_id (nodes LpSamples.lp_graph))
                  /\ LabelPropagation.label_of
                       (fst (LabelPropagation.propagate LpSamples.lp_adjacency
                               (nodes LpSamples.lp_graph)
                               LabelPropagation.maxIterations
                               (LabelPropagation.communities_init
                                  (nodes LpSamples.lp_graph)) 0))
                       k = Some j).
Proof.
  apply (propagation_keeps_node_labels LpSamples.lp_graph LpSamples.lp_adjacency).
  reflexivity.
Defined.

(** ** Label propagation: renumbering the communities *)

Section AppendFacts.
Context {K V : Type} (eqb : K -> K -> bool).
Hypothesis eqb_spec : forall x y, reflect (x = y) (eqb x y).

Lemma set_absent (m : list (K * V)) (k : K) (v : V) :
  JsMap.has eqb m k = false -> JsMap.set eqb m k v = m ++ [(k, v)].
Proof.
  unfold JsMap.has. induction m as [| [k' v'] m IH]; simpl; [reflexivity|].
  destruct (eqb k' k); [discriminate|]. intro H. rewrite IH by exact H. reflexivity.
Qed.

Lemma get_app_present (m m' : list (K * V)) (k : K) :
  In k (JsMap.keys m) -> JsMap.get eqb (m ++ m') k = JsMap.get eqb m k.
Proof.
  induction m as [| [k' v'] m IH]; simpl; [intros []|].
  destruct (eqb_spec k' k) as [E | E]; [reflexivity|].
  intros [H | H]; [contradiction | apply IH, H].
Qed.

Lemma has_In_keys_iff (m : list (K * V)) (k : K) :
  JsMap.has eqb m k = true <-> In k (JsMap.keys m).
Proof.
  split; [apply (has_In_keys eqb eqb_spec)|].
  intro H. unfold JsMap.has. destruct (In_keys_get eqb eqb_spec m k H) as [v ->].
  reflexivity.
Qed.
End AppendFacts.

Lemma get_seq_index {K : Type} (eqb : K -> K -> bool)
    (eqb_spec : forall x y, reflect (x = y) (eqb x y))
    (m : list (K * nat)) (s : nat) (k : K) (v : nat) :
  map snd m = seq s (length m) ->
  JsMap.get eqb m k = Some v ->
  (s <= v)%nat /\ nth_error (JsMap.keys m) (v - s) = Some k.
Proof.
  revert s. induction m as [| [k' v'] m IH]; intros s Hseq Hget; simpl in *; [discriminate|].
  injection Hseq as Hv Hseq. subst v'.
  destruct (eqb_spec k' k) as [E | E].
  - injection Hget as <-. subst k'. rewrite Nat.sub_diag. auto.
  - destruct (IH (S s) Hseq Hget) as [Hle Hnth]. split; [lia|].
    replace (v - s)%nat with (S (v - S s)) by lia. exact Hnth.
Qed.

Lemma renumber_fold (communities : LabelPropagation.Communities)
    (rest processed : list Node)
    (st : list (LabelPropagation.Label * nat) * nat * list (Node * option nat)) :
  renumbered communities processed st ->
  renumbered communities (processed ++ rest)
    (fold_left
       (fun st node =>
          let '(communityIds, communityId, assigned) := st in
          let comm := LabelPropagation.label_of communities (node_id node) in
          if JsMap.has LabelPropagation.label_eqb communityIds comm
          then (communityIds, communityId,
                assigned ++ [(node, JsMap.get LabelPropagation.label_eqb communityIds comm)])
          else (JsMap.set LabelPropagation.label_eqb communityIds comm communityId,
                S communityId,
                assigned ++ [(node, Some communityId)]))
       rest st).
Proof.
  revert processed st. induction rest as [| node rest IH]; intros processed st H.
  - rewrite app_nil_r. exact H.
  - cbn [fold_left].
    replace (processed ++ node :: rest) with ((processed ++ [node]) ++ rest)
      by (rewrite <- app_assoc; reflexivity).
    apply IH. clear IH.
    destruct st as [[communityIds communityId] assigned].
    destruct H as (Hlen & Hseq & Hkeys & Hass).
    fold (node_label communities node).
    assert (Hset : JsMap.set_of LabelPropagation.label_eqb
                     (map (node_label communities) (processed ++ [node]))
                   = JsMap.add LabelPropagation.label_eqb (JsMap.keys communityIds)
                               (node_label communities node)).
    { unfold JsMap.set_of. rewrite map_app, fold_left_app. simpl.
      unfold JsMap.set_of in Hkeys. rewrite <- Hkeys. reflexivity. }
    destruct (JsMap.has LabelPropagation.label_eqb communityIds
                        (node_label communities node)) eqn:Ehas.
    + unfold renumbered. split; [exact Hlen|]. split; [exact Hseq|]. split.
      * rewrite Hset. unfold JsMap.add.
        apply (has_In_keys_iff _ label_eqb_spec) in Ehas.
        apply (includes_In _ label_eqb_spec) in Ehas. rewrite Ehas. reflexivity.
      * rewrite map_app, Hass. reflexivity.
    + rewrite (set_absent _ _ _ _ Ehas).
      unfold renumbered. split; [rewrite length_app; simpl; lia|]. split; [|split].
      * rewrite map_app, Hseq, seq_S. reflexivity.
      * rewrite Hset. unfold JsMap.add.
        assert (Einc : JsMap.includes LabelPropagation.label_eqb (JsMap.keys communityIds)
                                      (node_label communities node) = false).
        { destruct (JsMap.includes _ _ _) eqn:Ei; [|reflexivity].
          apply (includes_In _ label_eqb_spec) in Ei.
          apply (has_In_keys_iff _ label_eqb_spec) in Ei. congruence. }
        rewrite Einc. unfold JsMap.keys. rewrite map_app. reflexivity.
      * rewrite map_app, Hass. f_equal.
        -- apply map_ext_in. intros n Hn. f_equal. symmetry.
           apply (get_app_present _ label_eqb_spec).
           rewrite Hkeys. apply (set_of_In _ label_eqb_spec).
           apply in_map. exact Hn.
        -- simpl. f_equal. f_equal.
           rewrite <- (set_absent _ _ _ communityId Ehas).
           rewrite (get_set_same _ label_eqb_spec). reflexivity.
Qed.

Lemma renumber_state (communities : LabelPropagation.Communities) (nodes : list Node) :
  exists communityIds,
    map snd communityIds = seq 0 (length communityIds)
    /\ JsMap.keys communityIds
       = JsMap.set_of LabelPropagation.label_eqb (map (node_label communities) nodes)
    /\ LabelPropagation.renumber communities nodes
       = map (fun node => (node, JsMap.get LabelPropagation.label_eqb communityIds
                                           (node_label communities node)))
             nodes.
Proof.
  unfold LabelPropagation.renumber.
  pose proof (renumber_fold communities nodes [] ([], 0%nat, [])) as H.
  simpl app in H.
  match type of H with _ -> renumbered _ _ ?st => destruct st as [[ids cid] assigned] end.
  destruct H as (Hlen & Hseq & Hkeys & Hass).
  { unfold renumbered. simpl. auto. }
  exists ids. subst cid. auto.
Qed.

(** The renumbering gives every node a community number: the rank of its
    label among the labels in order of first occurrence over the node
    list (so the first node is in community 0 and the numbers are the
    consecutive integers below the number of distinct labels). Two nodes
    get the same number exactly when they carry the same label. *)
Theorem renumber_by_first_occurrence (communities : LabelPropagation.Communities)
    (nodes : list Node) :
  map fst (LabelPropagation.renumber communities nodes) = nodes
  /\ (forall node c,
         In (node, c) (LabelPropagation.renumber communities nodes) ->
         exists v, c = Some v
                   /\ nth_error (JsMap.set_of LabelPropagation.label_eqb
                                   (map (node_label communities) nodes)) v
                      = Some (node_label communities node))
  /\ (forall n1 c1 n2 c2,
         In (n1, c1) (LabelPropagation.renumber communities nodes) ->
         In (n2, c2) (LabelPropagation.renumber communities nodes) ->
         (c1 = c2 <-> node_label communities n1 = node_label communities n2)).
Proof.
  destruct (renumber_state communities nodes) as (ids & Hseq & Hkeys & ->).
  assert (Hrank : forall node, In node nodes ->
             exists v, JsMap.get LabelPropagation.label_eqb ids (node_label communities node)
                       = Some v
                       /\ nth_error (JsMap.set_of LabelPropagation.label_eqb
                                       (map (node_label communities) nodes)) v
                          = Some (node_label communities node)).
  { intros node Hn.
    assert (Hk : In (node_label communities node) (JsMap.keys ids)).
    { rewrite Hkeys. apply (set_of_In _ label_eqb_spec), in_map, Hn. }
    destruct (In_keys_get _ label_eqb_spec ids _ Hk) as [v Hv].
    exists v. split; [exact Hv|].
    destruct (get_seq_index _ label_eqb_spec ids 0 _ v Hseq Hv) as [_ Hnth].
    rewrite Nat.sub_0_r, Hkeys in Hnth. exact Hnth. }
  split; [|split].
  - rewrite map_map. simpl. apply map_id.
  - intros node c Hin. apply in_map_iff in Hin as [n [E Hn]]. injection E as -> <-.
    apply Hrank, Hn.
  - intros n1 c1 n2 c2 H1 H2.
    apply in_map_iff in H1 as [m1 [E1 Hm1]]. injection E1 as -> <-.
    apply in_map_iff in H2 as [m2 [E2 Hm2]]. injection E2 as -> <-.
    split; [|intros ->; reflexivity].
    destruct (Hrank n1 Hm1) as (v1 & -> & Hn1). destruct (Hrank n2 Hm2) as (v2 & -> & Hn2).
    intro E. injection E as ->. congruence.
Qed.

(** ** User-overlap similarity and its graph *)

Lemma overlap_from_spec (a : UserOverlap.AnimeUsers) (rest : list UserOverlap.AnimeUsers)
    (oe : UserOverlap.OverlapEdge) :
  In oe (UserOverlap.similarities_from a rest) ->
  exists b,
    In b rest
    /\ (20 <= length (UserOverlap.users b))%nat
    /\ source (UserOverlap.edge_of oe) = UserOverlap.au_id a
    /\ target (UserOverlap.edge_of oe) = UserOverlap.au_id b
    /\ UserOverlap.sharedUsers oe
       = length (filter (fun u => JsMap.includes Z.eqb (UserOverlap.users b) u)
                        (UserOverlap.users a))
    /\ (10 <= UserOverlap.sharedUsers oe)%nat
    /\ UserOverlap.jaccardSimilarity (UserOverlap.users a) (UserOverlap.users b)
       = Some (weight (UserOverlap.edge_of oe))
    /\ 1 # 20 <= weight (UserOverlap.edge_of oe).
Proof.
  induction rest as [| b rest IH]; [intros []|].
  cbn [UserOverlap.similarities_from].
  match goal with |- _ -> ?G =>
    assert (Hrest : In oe (UserOverlap.similarities_from a rest) -> G) end.
  { intro H. destruct (IH H) as [b0 [Hb0 Hrest]]. exists b0. split; [right; exact Hb0|].
    exact Hrest. }
  destruct (Nat.ltb_spec (length (UserOverlap.users b)) 20) as [Hlt | Hge]; [exact Hrest|].
  destruct (UserOverlap.reaches _ && _)%bool eqn:E; [|exact Hrest].
  intros [<- | H]; [|exact (Hrest H)].
  apply andb_true_iff in E as [Er Es]. apply Nat.leb_le in Es.
  exists b. split; [left; reflexivity|]. cbn [UserOverlap.edge_of UserOverlap.sharedUsers
                                               source target weight].
  destruct (UserOverlap.jaccardSimilarity (UserOverlap.users a) (UserOverlap.users b))
    as [s|]; [|discriminate].
  simpl in Er. apply Qle_bool_iff in Er.
  repeat split; auto.
Qed.

(** Every edge of the user-overlap graph joins two listed items with at
    least 20 users each that share at least 10 users, and its weight, the
    Jaccard coefficient of the two user lists, is at least 0.05. An item
    with fewer than 20 users is on no edge. *)
Theorem overlap_edges_meet_thresholds (animeUsers : list UserOverlap.AnimeUsers)
    (oe : UserOverlap.OverlapEdge) :
  In oe (UserOverlap.computeSimilarities animeUsers) ->
  exists a b,
    In a animeUsers /\ In b animeUsers
    /\ source (UserOverlap.edge_of oe) = UserOverlap.au_id a
    /\ target (UserOverlap.edge_of oe) = UserOverlap.au_id b
    /\ (20 <= length (UserOverlap.users a))%nat
    /\ (20 <= length (UserOverlap.users b))%nat
    /\ UserOverlap.sharedUsers oe
       = length (filter (fun u => JsMap.includes Z.eqb (UserOverlap.users b) u)
                        (UserOverlap.users a))
    /\ (10 <= UserOverlap.sharedUsers oe)%nat
    /\ UserOverlap.jaccardSimilarity (UserOverlap.users a) (UserOverlap.users b)
       = Some (weight (UserOverlap.edge_of oe))
    /\ 1 # 20 <= weight (UserOverlap.edge_of oe).
Proof.
  induction animeUsers as [| a rest IH]; [intros []|].
  cbn [UserOverlap.computeSimilarities].
  match goal with |- _ -> ?G =>
    assert (Hrest : In oe (UserOverlap.computeSimilarities rest) -> G) end.
  { intro H. destruct (IH H) as (a0 & b & Ha0 & Hb & Hmore).
    exists a0, b. split; [right; exact Ha0|]. split; [right; exact Hb|]. exact Hmore. }
  destruct (Nat.ltb_spec (length (UserOverlap.users a)) 20) as [Hlt | Hge]; [exact Hrest|].
  rewrite in_app_iff. intros [H | H]; [|exact (Hrest H)].
  destruct (overlap_from_spec a rest oe H) as (b & Hb & H20 & Hs & Ht & Hsh & H10 & Hj & Hw).
  exists a, b. split; [left; reflexivity|]. split; [right; exact Hb|].
  repeat split; assumption.
Qed.

Lemma overlap_edges_meet_thresholds_witness :
  exists a b,
    In a OverlapSamples.overlap_list /\ In b OverlapSamples.overlap_list
    /\ source (UserOverlap.edge_of OverlapSamples.overlap_edge) = UserOverlap.au_id a
    /\ target (UserOverlap.edge_of OverlapSamples.overlap_edge) = UserOverlap.au_id b
    /\ (20 <= length (UserOverlap.users a))%nat
    /\ (20 <= length (UserOverlap.users b))%nat
    /\ UserOverlap.sharedUsers OverlapSamples.overlap_edge
       = length (filter (fun u => JsMap.includes Z.eqb (UserOverlap.users b) u)
                        (UserOverlap.users a))
    /\ (10 <= UserOverlap.sharedUsers OverlapSamples.overlap_edge)%nat
    /\ UserOverlap.jaccardSimilarity (UserOverlap.users a) (UserOverlap.users b)
       = Some (weight (UserOverlap.edge_of OverlapSamples.overlap_edge))
    /\ 1 # 20 <= weight (UserOverlap.edge_of OverlapSamples.overlap_edge).
Proof.
  apply (overlap_edges_meet_thresholds OverlapSamples.overlap_list
           OverlapSamples.overlap_edge).
  vm_compute. left. reflexivity.
Defined.

Lemma overlap_edges_ends (animeUsers : list UserOverlap.AnimeUsers)
    (oe : UserOverlap.OverlapEdge) :
  In oe (UserOverlap.computeSimilarities animeUsers) ->
  In (source (UserOverlap.edge_of oe)) (map UserOverlap.au_id animeUsers)
  /\ In (target (UserOverlap.edge_of oe)) (map UserOverlap.au_id animeUsers).
Proof.
  induction animeUsers as [| a rest IH]; [intros []|].
  cbn [UserOverlap.computeSimilarities map].
  assert (Hrest : In oe (UserOverlap.computeSimilarities rest) ->
                  In (source (UserOverlap.edge_of oe))
                     (UserOverlap.au_id a :: map UserOverlap.au_id rest)
                  /\ In (target (UserOverlap.edge_of oe))
                        (UserOverlap.au_id a :: map UserOverlap.au_id rest)).
  { intro H. destruct (IH H). split; right; assumption. }
  destruct (length (UserOverlap.users a) <? 20)%nat; [exact Hrest|].
  rewrite in_app_iff. intros [H | H]; [|exact (Hrest H)].
  destruct (overlap_from_spec a rest oe H) as (b & Hb & _ & Hs & Ht & _).
  rewrite Hs, Ht. split; [left; reflexivity | right; apply in_map, Hb].
Qed.

Lemma build_adjacency_closed (graph : Graph) :
  edges_closed graph ->
  exists adjacency, LabelPropagation.build_adjacency graph = Some adjacency.
Proof.
  intro Hclosed. unfold LabelPropagation.build_adjacency.
  destruct (adjacency_init_spec (nodes graph)) as [_ Hkeys].
  destruct (proj1 (build_adjacency_fold (edges graph)
                     (LabelPropagation.adjacency_init (nodes graph))))
    as (adj & E & _).
  - intros e He. rewrite !Hkeys. apply Hclosed, He.
  - exists adj. exact E.
Qed.

Lemma detectCommunities_closed (graph : Graph) :
  edges_closed graph ->
  exists assigned,
    LabelPropagation.detectCommunities graph = Some assigned
    /\ map fst assigned = nodes graph
    /\ forall node c, In (node, c) assigned -> exists v, c = Some v.
Proof.
  intro Hclosed. unfold LabelPropagation.detectCommunities.
  destruct (build_adjacency_closed graph Hclosed) as [adjacency ->].
  destruct (LabelPropagation.propagate adjacency (nodes graph)
              LabelPropagation.maxIterations
              (LabelPropagation.communities_init (nodes graph)) 0) as [communities n].
  eexists. split; [reflexivity|].
  destruct (renumber_state communities (nodes graph)) as (ids & _ & Hkeys & ->).
  split.
  - rewrite map_map. simpl. apply map_id.
  - intros node c Hin. apply in_map_iff in Hin as [m [E Hm]]. injection E as -> <-.
    apply (In_keys_get _ label_eqb_spec). rewrite Hkeys.
    apply (set_of_In _ label_eqb_spec), in_map, Hm.
Qed.

(** The user-overlap pipeline cannot throw in label propagation: the graph
    built from the script's own edges has both ends of every edge among
    its nodes, so [detectCommunities] returns, and it gives every node of
    the graph a community number. *)
Theorem overlap_pipeline_labels_every_node (animeUsers : list UserOverlap.AnimeUsers) :
  edges_closed (UserOverlap.buildGraph animeUsers
                  (UserOverlap.computeSimilarities animeUsers))
  /\ exists assigned,
       LabelPropagation.detectCommunities
         (UserOverlap.buildGraph animeUsers (UserOverlap.computeSimilarities animeUsers))
       = Some assigned
       /\ map fst assigned
          = nodes (UserOverlap.buildGraph animeUsers
                     (UserOverlap.computeSimilarities animeUsers))
       /\ forall node c, In (node, c) assigned -> exists v, c = Some v.
Proof.
  assert (Hclosed : edges_closed (UserOverlap.buildGraph animeUsers
                                    (UserOverlap.computeSimilarities animeUsers))).
  { intros e He. unfold UserOverlap.buildGraph in *. cbn [edges nodes] in *.
    assert (Hkept : forall k,
               In k (map UserOverlap.au_id animeUsers) ->
               (source e = k \/ target e = k) ->
               In k (map node_id
                       (filter (fun node =>
                                  JsMap.includes Z.eqb
                                    (fold_left (fun s edge =>
                                                  JsMap.add Z.eqb
                                                    (JsMap.add Z.eqb s (source edge))
                                                    (target edge))
                                               (map UserOverlap.edge_of
                                                    (UserOverlap.computeSimilarities
                                                       animeUsers)) [])
                                    (node_id node))
                               (map (fun anime =>
                                       mkNode (UserOverlap.au_id anime)
                                              (UserOverlap.au_title anime)
                                              (UserOverlap.au_genres anime)
                                              (UserOverlap.au_popularity anime) None None)
                                    animeUsers)))).
    { intros k Hk Hend. apply in_map_iff in Hk as [a [<- Ha]].
      apply in_map_iff.
      exists (mkNode (UserOverlap.au_id a) (UserOverlap.au_title a)
                     (UserOverlap.au_genres a) (UserOverlap.au_popularity a) None None).
      split; [reflexivity|]. apply filter_In. split.
      - apply in_map_iff. exists a. auto.
      - apply (includes_In Z.eqb Z.eqb_spec), nodeIds_In. right. exists e. auto. }
    pose proof He as He'. apply in_map_iff in He' as [oe [<- Hoe]].
    destruct (overlap_edges_ends animeUsers oe Hoe) as [Hs Ht].
    split; apply Hkept; auto. }
  split; [exact Hclosed | apply detectCommunities_closed, Hclosed].
Qed.

(** ** Recommendation graph: nodes *)

Lemma hasNode_In (g : Graphology.UGraph) (k : Z) :
  Graphology.hasNode g k = true <-> In k (map fst (Graphology.g_nodes g)).
Proof.
  unfold Graphology.hasNode. rewrite existsb_exists. split.
  - intros [n [Hn Hk]]. apply Z.eqb_eq in Hk. subst k. apply in_map, Hn.
  - intro H. apply in_map_iff in H as [n [<- Hn]]. exists n. split; [exact Hn|].
    apply Z.eqb_refl.
Qed.

Lemma add_nodes_fold (l : list Recommendation.RecAnime) (g0 : Graphology.UGraph) :
  (NoDup (map fst (Graphology.g_nodes g0) ++ map Recommendation.rec_id l) ->
   fold_left (fun graph anime =>
                match graph with
                | None => None
                | Some g => Graphology.addNode g (Recommendation.rec_id anime)
                                               (Recommendation.rec_attributes anime)
                end) l (Some g0)
   = Some (Graphology.mkUGraph
             (Graphology.g_nodes g0
              ++ map (fun a => (Recommendation.rec_id a, Recommendation.rec_attributes a)) l)
             (Graphology.g_edges g0)))
  /\ (~ NoDup (map fst (Graphology.g_nodes g0) ++ map Recommendation.rec_id l) ->
      NoDup (map fst (Graphology.g_nodes g0)) ->
      fold_left (fun graph anime =>
                   match graph with
                   | None => None
                   | Some g => Graphology.addNode g (Recommendation.rec_id anime)
                                                  (Recommendation.rec_attributes anime)
                   end) l (Some g0)
      = None).
Proof.
  revert g0. induction l as [| a rest IH]; intro g0; cbn [fold_left map].
  - split.
    + intros _. rewrite app_nil_r. destruct g0; reflexivity.
    + intros Hnot Hnd. rewrite app_nil_r in Hnot. contradiction.
  - destruct (Graphology.addNode g0 (Recommendation.rec_id a)
                (Recommendation.rec_attributes a)) as [g1 |] eqn:Ea;
      unfold Graphology.addNode in Ea;
      destruct (Graphology.hasNode g0 (Recommendation.rec_id a)) eqn:Eh;
      try discriminate Ea.
    + injection Ea as <-.
      assert (Hnot : ~ In (Recommendation.rec_id a) (map fst (Graphology.g_nodes g0))).
      { intro H. apply hasNode_In in H. congruence. }
      destruct (IH (Graphology.mkUGraph
                      (Graphology.g_nodes g0
                       ++ [(Recommendation.rec_id a, Recommendation.rec_attributes a)])
                      (Graphology.g_edges g0))) as [IH1 IH2].
      cbn [Graphology.g_nodes Graphology.g_edges] in IH1, IH2.
      rewrite map_app in IH1, IH2. cbn [map fst] in IH1, IH2.
      rewrite <- !app_assoc in IH1, IH2. cbn [app] in IH1, IH2.
      split.
      * intro Hnd. rewrite IH1 by exact Hnd. rewrite <- app_assoc. reflexivity.
      * intros Hdup Hnd. apply IH2; [exact Hdup|].
        apply NoDup_app; [exact Hnd | constructor; [intros [] | constructor] |].
        intros x Hx [<- | []]. contradiction.
    + apply hasNode_In in Eh. split.
      * intro Hnd. exfalso. apply NoDup_remove_2 in Hnd. apply Hnd.
        apply in_or_app. left. exact Eh.
      * intros _ _. clear. induction rest as [| b rest IH]; [reflexivity | exact IH].
Qed.

(** The recommendation graph cannot be built exactly when two items of
    the list have the same id (the library refuses the second node and the
    script stops); otherwise every listed item becomes a node before the
    edges are added. *)
Theorem recommendation_graph_needs_unique_ids (l : list Recommendation.RecAnime) :
  (Recommendation.buildRecommendationGraph l = None
   <-> ~ NoDup (map Recommendation.rec_id l))
  /\ (NoDup (map Recommendation.rec_id l) ->
      Recommendation.add_all_nodes l
      = Some (Graphology.mkUGraph
                (map (fun a => (Recommendation.rec_id a, Recommendation.rec_attributes a)) l)
                [])).
Proof.
  destruct (add_nodes_fold l Graphology.empty) as [Hok Hfail].
  cbn [Graphology.empty Graphology.g_nodes Graphology.g_edges map app] in Hok, Hfail.
  fold (Recommendation.add_all_nodes l) in Hok, Hfail.
  split; [|exact Hok].
  unfold Recommendation.buildRecommendationGraph. split.
  - intros H Hnd. rewrite (Hok Hnd) in H. discriminate.
  - intro Hdup. rewrite (Hfail Hdup (NoDup_nil _)). reflexivity.
Qed.

Lemma recommendation_graph_needs_unique_ids_witness :
  Recommendation.add_all_nodes RecSamples.rec_list
  = Some (Graphology.mkUGraph
            (map (fun a => (Recommendation.rec_id a, Recommendation.rec_attributes a))
                 RecSamples.rec_list)
            []).
Proof.
  apply (proj2 (recommendation_graph_needs_unique_ids RecSamples.rec_list)).
  simpl. repeat (constructor; [simpl; intuition discriminate |]); constructor.
Defined.

(** ** Recommendation graph: edges *)

Lemma joins_sym (a b s t : Z) (w w' : Q) :
  Graphology.joins a b (s, t, w) = Graphology.joins s t (a, b, w').
Proof.
  unfold Graphology.joins.
  destruct (Z.eqb_spec s a), (Z.eqb_spec t b), (Z.eqb_spec s b), (Z.eqb_spec t a),
    (Z.eqb_spec a s), (Z.eqb_spec b t), (Z.eqb_spec a t), (Z.eqb_spec b s);
    simpl; try reflexivity; congruence.
Qed.

Lemma joins_same_pair (a b : Z) (e1 e2 : Z * Z * Q) :
  Graphology.joins a b e1 = true -> Graphology.joins a b e2 = true ->
  Graphology.joins (fst (fst e1)) (snd (fst e1)) e2 = true.
Proof.
  destruct e1 as [[s1 t1] w1], e2 as [[s2 t2] w2]. unfold Graphology.joins. simpl.
  intros H1 H2.
  apply orb_true_iff in H1. apply orb_true_iff in H2. apply orb_true_iff.
  rewrite !andb_true_iff, !Z.eqb_eq in *. intuition congruence.
Qed.

Lemma rec_weight_at_least_one (r : Z) :
  1 <= Recommendation.rec_weight r
  /\ ((r <= 100)%Z -> Recommendation.rec_weight r = 1)
  /\ ((100 < r)%Z -> Recommendation.rec_weight r = inject_Z r / 100).
Proof.
  unfold Recommendation.rec_weight.
  assert (Hq : inject_Z r / 100 == inject_Z r * (1 # 100)) by reflexivity.
  destruct (Qltb 1 (inject_Z r / 100)) eqn:E.
  - apply Qltb_lt in E. split; [lra|]. split; [|reflexivity].
    intro Hle. exfalso.
    assert (inject_Z r <= 100) by (change 100 with (inject_Z 100); rewrite <- Zle_Qle; lia).
    lra.
  - apply Qltb_ge in E. split; [lra|]. split; [reflexivity|].
    intro Hlt. exfalso.
    assert (100 < inject_Z r) by (change 100 with (inject_Z 100); rewrite <- Zlt_Qlt; lia).
    lra.
Qed.

Lemma find_joins (es : list (Z * Z * Q)) (a b : Z) :
  existsb (Graphology.joins a b) es = true ->
  exists s t w, find (Graphology.joins a b) es = Some (s, t, w)
                /\ In (s, t, w) es /\ Graphology.joins a b (s, t, w) = true.
Proof.
  induction es as [| [[s t] w] es IH]; cbn [existsb find]; [discriminate|].
  destruct (Graphology.joins a b (s, t, w)) eqn:E.
  - intros _. exists s, t, w. repeat split; [left; reflexivity | exact E].
  - cbn [orb]. intro H. destruct (IH H) as (s' & t' & w' & Hf & Hin & Hj).
    exists s', t', w'. repeat split; [exact Hf | right; exact Hin | exact Hj].
Qed.

(** What one turn of the edge loop can do to the graph. *)
Lemma add_recommendation_cases (animeIds : list Z) (anime : Recommendation.RecAnime)
    (g : Graphology.UGraph) (edge : Recommendation.RecEdge) :
  let a := Recommendation.rec_id anime in
  let w := Recommendation.rec_weight (rating_or_0 edge) in
  let g' := Recommendation.add_recommendation animeIds anime g edge in
  g' = g
  \/ (exists r, Graphology.hasNode g a = true /\ Graphology.hasNode g r = true
                /\ Graphology.hasEdge g a r = false
                /\ g' = Graphology.mkUGraph (Graphology.g_nodes g)
                                            (Graphology.g_edges g ++ [(a, r, w)]))
  \/ (exists r s t existing,
         find (Graphology.joins a r) (Graphology.g_edges g) = Some (s, t, existing)
         /\ existing < w
         /\ g' = Graphology.setEdgeWeight g a r w).
Proof.
  intros a w g'. subst g'. unfold Recommendation.add_recommendation.
  fold a. fold (rating_or_0 edge). fold w.
  destruct (Recommendation.mediaRecommendation edge) as [r|]; [|auto].
  destruct (r =? 0)%Z; [auto|].
  destruct (rating_or_0 edge <? Recommendation.MIN_RATING)%Z; [auto|].
  destruct (JsMap.includes Z.eqb animeIds r); [|auto]. cbn [andb].
  destruct (Graphology.hasNode g a) eqn:Ha; [|auto]. cbn [andb].
  destruct (Graphology.hasNode g r) eqn:Hr; [|auto].
  destruct (Graphology.hasEdge g a r) eqn:He; cbn [negb].
  - unfold Graphology.getEdgeWeight.
    destruct (find (Graphology.joins a r) (Graphology.g_edges g)) as [[[s t] existing]|]
      eqn:Ef; [|auto].
    destruct (Qltb existing w) eqn:El; [|auto].
    right. right. exists r, s, t, existing. apply Qltb_lt in El. auto.
  - unfold Graphology.addEdge. rewrite Ha, Hr, He. cbn [andb negb].
    right. left. exists r. auto.
Qed.

Lemma setEdgeWeight_In (g : Graphology.UGraph) (a r : Z) (w : Q) (s t : Z) (w' : Q) :
  In (s, t, w') (Graphology.g_edges (Graphology.setEdgeWeight g a r w))
  <-> (exists w0, In (s, t, w0) (Graphology.g_edges g)
                  /\ ((Graphology.joins a r (s, t, w0) = true /\ w' = w)
                      \/ (Graphology.joins a r (s, t, w0) = false /\ w' = w0))).
Proof.
  unfold Graphology.setEdgeWeight. cbn [Graphology.g_edges]. rewrite in_map_iff. split.
  - intros [[[s0 t0] w0] [E Hin]].
    destruct (Graphology.joins a r (s0, t0, w0)) eqn:Ej; simpl in E;
      injection E as <- <- <-; exists w0; auto.
  - intros [w0 [Hin [[Ej ->] | [Ej ->]]]]; exists (s, t, w0); rewrite Ej; auto.
Qed.

Lemma simple_edges_app (es : list (Z * Z * Q)) (a r : Z) (w : Q) :
  simple_edges es -> existsb (Graphology.joins a r) es = false ->
  simple_edges (es ++ [(a, r, w)]).
Proof.
  unfold simple_edges. intros Hs Hnone.
  induction es as [| e es IH]; cbn [app].
  - constructor; constructor.
  - cbn [existsb] in Hnone. apply orb_false_iff in Hnone as [He Hrest].
    inversion Hs as [| ? ? Hall Hs']; subst.
    constructor; [|apply IH; assumption].
    apply Forall_app. split; [exact Hall|]. constructor; [|constructor].
    destruct e as [[s t] w0]. cbn [fst snd].
    rewrite <- (joins_sym a r s t w0 w). exact He.
Qed.

Lemma simple_edges_reweigh (es : list (Z * Z * Q)) (a r : Z) (w : Q) :
  simple_edges es ->
  simple_edges (map (fun e => if Graphology.joins a r e
                              then (fst (fst e), snd (fst e), w) else e) es).
Proof.
  unfold simple_edges. intro Hs.
  induction Hs as [| e es Hall Hs IH]; simpl; [constructor|].
  constructor; [|exact IH].
  apply Forall_map. eapply Forall_impl; [|exact Hall].
  intros [[s2 t2] w2] H.
  assert (Hends : forall x : Z * Z * Q,
             fst (fst (if Graphology.joins a r x then (fst (fst x), snd (fst x), w) else x))
             = fst (fst x)
             /\ snd (fst (if Graphology.joins a r x then (fst (fst x), snd (fst x), w) else x))
                = snd (fst x)).
  { intro x. destruct (Graphology.joins a r x); auto. }
  destruct (Hends e) as [-> ->]. destruct (Hends (s2, t2, w2)) as [Hf Hsn].
  destruct (if Graphology.joins a r (s2, t2, w2) then _ else _) as [[s3 t3] w3].
  simpl in Hf, Hsn. subst. exact H.
Qed.

Lemma simple_edges_unique (es : list (Z * Z * Q)) (a r : Z) (e1 e2 : Z * Z * Q) :
  simple_edges es -> In e1 es -> In e2 es ->
  Graphology.joins a r e1 = true -> Graphology.joins a r e2 = true -> e1 = e2.
Proof.
  unfold simple_edges. intro Hs.
  induction Hs as [| e es Hall Hs IH]; [intros []|].
  rewrite Forall_forall in Hall.
  intros [<- | H1] [<- | H2] J1 J2; auto.
  - pose proof (joins_same_pair a r _ _ J1 J2) as Hj. rewrite (Hall _ H2) in Hj. discriminate.
  - pose proof (joins_same_pair a r _ _ J2 J1) as Hj. rewrite (Hall _ H1) in Hj. discriminate.
Qed.

Lemma add_recommendation_invariant (l : list Recommendation.RecAnime)
    (animeIds : list Z) (anime : Recommendation.RecAnime) (g : Graphology.UGraph)
    (edge : Recommendation.RecEdge) :
  In anime l -> In edge (Recommendation.recommendations anime) ->
  rec_invariant l g ->
  rec_invariant l (Recommendation.add_recommendation animeIds anime g edge).
Proof.
  intros Hanime Hedge (Hnodes & Hclosed & Hsimple & Hweights).
  destruct (add_recommendation_cases animeIds anime g edge)
    as [-> | [(r & Ha & Hr & He & ->) | (r & s0 & t0 & existing & Hf & Hlt & ->)]].
  - exact (conj Hnodes (conj Hclosed (conj Hsimple Hweights))).
  - unfold rec_invariant. cbn [Graphology.g_nodes Graphology.g_edges].
    split; [exact Hnodes|]. split; [|split].
    + intros s t w Hin. unfold Graphology.hasNode. cbn [Graphology.g_nodes].
      apply in_app_iff in Hin as [Hin | [E | []]]; [exact (Hclosed s t w Hin)|].
      injection E as <- <- <-. auto.
    + apply simple_edges_app; assumption.
    + intros s t w Hin. apply in_app_iff in Hin as [Hin | [E | []]];
        [exact (Hweights s t w Hin)|].
      injection E as <- <- <-. exists anime, edge. auto.
  - unfold rec_invariant.
    split; [exact Hnodes|]. split; [|split].
    + intros s t w Hin. apply setEdgeWeight_In in Hin as [w0 [Hin _]].
      exact (Hclosed s t w0 Hin).
    + apply simple_edges_reweigh, Hsimple.
    + intros s t w Hin. apply setEdgeWeight_In in Hin as [w0 [Hin [[_ ->] | [_ ->]]]].
      * exists anime, edge. auto.
      * exact (Hweights s t w0 Hin).
Qed.

Lemma add_recommendation_keeps_joined (l : list Recommendation.RecAnime)
    (animeIds : list Z) (anime : Recommendation.RecAnime) (g : Graphology.UGraph)
    (edge : Recommendation.RecEdge) (a b : Z) (w0 : Q) :
  rec_invariant l g -> joined_at_least g a b w0 ->
  joined_at_least (Recommendation.add_recommendation animeIds anime g edge) a b w0.
Proof.
  intros (_ & _ & Hsimple & _) (s & t & w & Hin & Hj & Hle).
  destruct (add_recommendation_cases animeIds anime g edge)
    as [-> | [(r & _ & _ & _ & ->) | (r & s0 & t0 & existing & Hf & Hlt & ->)]].
  - exists s, t, w. auto.
  - exists s, t, w. cbn [Graphology.g_edges]. split; [apply in_or_app; left|]; auto.
  - destruct (Graphology.joins (Recommendation.rec_id anime) r (s, t, w)) eqn:Ej.
    + exists s, t, (Recommendation.rec_weight (rating_or_0 edge)).
      split; [apply setEdgeWeight_In; exists w; auto|]. split.
      * rewrite <- Hj. unfold Graphology.joins. reflexivity.
      * pose proof (find_some _ _ Hf) as [Hin0 Hj0].
        assert (E : (s0, t0, existing) = (s, t, w))
          by (eapply simple_edges_unique; eassumption).
        injection E as _ _ ->. lra.
    + exists s, t, w. split; [apply setEdgeWeight_In; exists w; auto|]. auto.
Qed.

Lemma add_recommendation_joins (l : list Recommendation.RecAnime)
    (anime : Recommendation.RecAnime) (g : Graphology.UGraph)
    (edge : Recommendation.RecEdge) (r : Z) :
  rec_invariant l g -> In anime l ->
  Recommendation.mediaRecommendation edge = Some r -> r <> 0%Z ->
  (0 <= rating_or_0 edge)%Z -> In r (map Recommendation.rec_id l) ->
  joined_at_least
    (Recommendation.add_recommendation (map Recommendation.rec_id l) anime g edge)
    (Recommendation.rec_id anime) r (Recommendation.rec_weight (rating_or_0 edge)).
Proof.
  intros (Hnodes & _) Hanime Hm Hr0 Hrating Hr.
  assert (Hhas : forall k, In k (map Recommendation.rec_id l) -> Graphology.hasNode g k = true).
  { intros k Hk. apply hasNode_In. rewrite Hnodes, map_map. exact Hk. }
  unfold Recommendation.add_recommendation. rewrite Hm.
  destruct (Z.eqb_spec r 0) as [E | _]; [contradiction|].
  fold (rating_or_0 edge).
  destruct (Z.ltb_spec (rating_or_0 edge) Recommendation.MIN_RATING) as [Hlt | _];
    [unfold Recommendation.MIN_RATING in Hlt; lia|].
  rewrite (proj2 (includes_In Z.eqb Z.eqb_spec _ _) Hr).
  rewrite (Hhas _ (in_map _ _ _ Hanime)), (Hhas r Hr). cbn [andb].
  destruct (Graphology.hasEdge g (Recommendation.rec_id anime) r) eqn:He; cbn [negb].
  - destruct (find_joins _ _ _ He) as (s & t & w & Hf & Hin & Hj).
    unfold Graphology.getEdgeWeight. rewrite Hf.
    destruct (Qltb w (Recommendation.rec_weight (rating_or_0 edge))) eqn:El.
    + exists s, t, (Recommendation.rec_weight (rating_or_0 edge)).
      split; [apply setEdgeWeight_In; exists w; auto|]. split; [|lra].
      rewrite <- Hj. unfold Graphology.joins. reflexivity.
    + apply Qltb_ge in El. exists s, t, w. auto.
  - unfold Graphology.addEdge.
    rewrite (Hhas _ (in_map _ _ _ Hanime)), (Hhas r Hr), He. cbn [andb negb].
    exists (Recommendation.rec_id anime), r, (Recommendation.rec_weight (rating_or_0 edge)).
    cbn [Graphology.g_edges]. split; [apply in_or_app; right; left; reflexivity|].
    split; [|lra]. unfold Graphology.joins. rewrite !Z.eqb_refl. reflexivity.
Qed.

Lemma inner_loop_invariant (l : list Recommendation.RecAnime) (animeIds : list Z)
    (anime : Recommendation.RecAnime) (es : list Recommendation.RecEdge)
    (g : Graphology.UGraph) :
  In anime l -> incl es (Recommendation.recommendations anime) ->
  rec_invariant l g ->
  rec_invariant l (fold_left (Recommendation.add_recommendation animeIds anime) es g).
Proof.
  intros Hanime. revert g. induction es as [| e es IH]; intros g Hincl Hinv; [exact Hinv|].
  cbn [fold_left]. apply IH; [intros x Hx; apply Hincl; right; exact Hx|].
  apply add_recommendation_invariant; [exact Hanime | apply Hincl; left; reflexivity | exact Hinv].
Qed.

Lemma outer_loop_invariant (l : list Recommendation.RecAnime) (animeIds : list Z)
    (todo : list Recommendation.RecAnime) (g : Graphology.UGraph) :
  incl todo l -> rec_invariant l g ->
  rec_invariant l
    (fold_left (fun g anime =>
                  fold_left (Recommendation.add_recommendation animeIds anime)
                            (Recommendation.recommendations anime) g)
               todo g).
Proof.
  revert g. induction todo as [| anime todo IH]; intros g Hincl Hinv; [exact Hinv|].
  cbn [fold_left]. apply IH; [intros x Hx; apply Hincl; right; exact Hx|].
  apply inner_loop_invariant; [apply Hincl; left; reflexivity | apply incl_refl | exact Hinv].
Qed.

Lemma inner_loop_joined (l : list Recommendation.RecAnime)
    (anime : Recommendation.RecAnime) (es : list Recommendation.RecEdge)
    (g : Graphology.UGraph) (a b : Z) (w0 : Q) :
  In anime l -> incl es (Recommendation.recommendations anime) ->
  rec_invariant l g ->
  joined_at_least g a b w0
  \/ (exists edge, In edge es /\ a = Recommendation.rec_id anime
                   /\ Recommendation.mediaRecommendation edge = Some b /\ b <> 0%Z
                   /\ (0 <= rating_or_0 edge)%Z /\ In b (map Recommendation.rec_id l)
                   /\ w0 = Recommendation.rec_weight (rating_or_0 edge)) ->
  joined_at_least
    (fold_left (Recommendation.add_recommendation (map Recommendation.rec_id l) anime) es g)
    a b w0.
Proof.
  intro Hanime. revert g. induction es as [| e es IH]; intros g Hincl Hinv H.
  - destruct H as [H | (edge & [] & _)]. exact H.
  - cbn [fold_left].
    assert (Hinv' : rec_invariant l
                      (Recommendation.add_recommendation (map Recommendation.rec_id l)
                                                         anime g e)).
    { apply add_recommendation_invariant;
        [exact Hanime | apply Hincl; left; reflexivity | exact Hinv]. }
    apply IH; [intros x Hx; apply Hincl; right; exact Hx | exact Hinv' |].
    destruct H as [H | (edge & [<- | Hin] & -> & Hm & Hb0 & Hr & Hb & ->)].
    + left. eapply add_recommendation_keeps_joined; eassumption.
    + left. apply add_recommendation_joins; assumption.
    + right. exists edge. auto 10.
Qed.

Lemma outer_loop_joined (l todo : list Recommendation.RecAnime)
    (g : Graphology.UGraph) (a b : Z) (w0 : Q) :
  incl todo l -> rec_invariant l g ->
  joined_at_least g a b w0
  \/ (exists anime edge,
         In anime todo /\ In edge (Recommendation.recommendations anime)
         /\ a = Recommendation.rec_id anime
         /\ Recommendation.mediaRecommendation edge = Some b /\ b <> 0%Z
         /\ (0 <= rating_or_0 edge)%Z /\ In b (map Recommendation.rec_id l)
         /\ w0 = Recommendation.rec_weight (rating_or_0 edge)) ->
  joined_at_least
    (fold_left (fun g anime =>
                  fold_left (Recommendation.add_recommendation
                               (map Recommendation.rec_id l) anime)
                            (Recommendation.recommendations anime) g)
               todo g)
    a b w0.
Proof.
  revert g. induction todo as [| anime todo IH]; intros g Hincl Hinv H.
  - destruct H as [H | (anime & edge & [] & _)]. exact H.
  - cbn [fold_left].
    assert (Hanime : In anime l) by (apply Hincl; left; reflexivity).
    apply IH; [intros x Hx; apply Hincl; right; exact Hx
              | apply inner_loop_invariant; [exact Hanime | apply incl_refl | exact Hinv] |].
    destruct H as [H | (anime' & edge & [<- | Hin] & Hedge & Hrest)].
    + left. apply inner_loop_joined; [exact Hanime | apply incl_refl | exact Hinv | left; exact H].
    + left. apply inner_loop_joined; [exact Hanime | apply incl_refl | exact Hinv |].
      right. exists edge. split; [exact Hedge | exact Hrest].
    + right. exists anime', edge. auto.
Qed.

Lemma remove_isolated_edges (g : Graphology.UGraph) (s t : Z) (w : Q) :
  In (s, t, w) (Graphology.g_edges (Recommendation.remove_isolated g))
  <-> In (s, t, w) (Graphology.g_edges g).
Proof.
  unfold Recommendation.remove_isolated.
  set (isolated := map fst (filter _ (Graphology.g_nodes g))).
  rewrite dropNodes_edges. split; [tauto|]. intro Hin.
  assert (Hiso : forall k, In k isolated -> Graphology.degree g k = 0%nat).
  { intros k Hk. apply in_map_iff in Hk as [m [<- Hm]].
    apply filter_In in Hm as [_ Hm]. apply Nat.eqb_eq, Hm. }
  split; [exact Hin|].
  split; intro Hbad; apply Hiso in Hbad;
    destruct (degree_zero_no_edge g _ s t w Hbad Hin); congruence.
Qed.

Lemma built_graph_of (l : list Recommendation.RecAnime) (g : Graphology.UGraph) :
  Recommendation.buildRecommendationGraph l = Some g ->
  exists g1, NoDup (map Recommendation.rec_id l)
             /\ rec_invariant l g1
             /\ g1 = Recommendation.add_all_edges l
                       (Graphology.mkUGraph
                          (map (fun a => (Recommendation.rec_id a,
                                          Recommendation.rec_attributes a)) l) [])
             /\ g = Recommendation.remove_isolated g1.
Proof.
  unfold Recommendation.buildRecommendationGraph. intro H.
  destruct (add_nodes_fold l Graphology.empty) as [Hok Hfail].
  cbn [Graphology.empty Graphology.g_nodes Graphology.g_edges map app] in Hok, Hfail.
  fold (Recommendation.add_all_nodes l) in Hok, Hfail.
  destruct (Recommendation.add_all_nodes l) as [g0|] eqn:E0; [|discriminate].
  injection H as <-.
  assert (Hnd : NoDup (map Recommendation.rec_id l)).
  { destruct (ListDec.NoDup_dec Z.eq_dec (map Recommendation.rec_id l)) as [Hnd | Hnd];
      [exact Hnd|]. discriminate (Hfail Hnd (NoDup_nil _)). }
  pose proof (Hok Hnd) as E1. injection E1 as ->.
  eexists. split; [exact Hnd|]. split; [|split; reflexivity].
  unfold Recommendation.add_all_edges. apply outer_loop_invariant; [apply incl_refl|].
  unfold rec_invariant. cbn [Graphology.g_nodes Graphology.g_edges].
  split; [reflexivity|]. split; [intros ? ? ? []|]. split; [constructor | intros ? ? ? []].
Qed.

Lemma simple_edges_filter (f : Z * Z * Q -> bool) (es : list (Z * Z * Q)) :
  simple_edges es -> simple_edges (filter f es).
Proof.
  unfold simple_edges. intro Hs.
  induction Hs as [| e es Hall Hs IH]; simpl; [constructor|].
  destruct (f e); [|exact IH].
  constructor; [|exact IH].
  rewrite Forall_forall in *. intros x Hx. apply filter_In in Hx as [Hx _]. auto.
Qed.

Lemma dropNodes_simple (ks : list Z) (g : Graphology.UGraph) :
  simple_edges (Graphology.g_edges g) ->
  simple_edges (Graphology.g_edges (fold_left Graphology.dropNode ks g)).
Proof.
  revert g. induction ks as [| k ks IH]; intros g H; [exact H|].
  cbn [fold_left]. apply IH. unfold Graphology.dropNode. cbn [Graphology.g_edges].
  apply simple_edges_filter, H.
Qed.

Lemma dropNode_keys (g : Graphology.UGraph) (k : Z) :
  NoDup (map fst (Graphology.g_nodes g)) ->
  NoDup (map fst (Graphology.g_nodes (Graphology.dropNode g k))).
Proof.
  unfold Graphology.dropNode. cbn [Graphology.g_nodes].
  induction (Graphology.g_nodes g) as [| n ns IH]; cbn [map filter]; [auto|].
  intro H. inversion H as [| ? ? Hnotin Hnd]; subst.
  destruct (negb (fst n =? k)%Z); [|auto]. cbn [map]. constructor; [|auto].
  intro Hin. apply Hnotin. apply in_map_iff in Hin as [m [E Hm]].
  apply filter_In in Hm as [Hm _]. rewrite <- E. apply in_map, Hm.
Qed.

Lemma dropNodes_keys (ks : list Z) (g : Graphology.UGraph) :
  NoDup (map fst (Graphology.g_nodes g)) ->
  NoDup (map fst (Graphology.g_nodes (fold_left Graphology.dropNode ks g))).
Proof.
  revert g. induction ks as [| k ks IH]; intros g H; [exact H|].
  cbn [fold_left]. apply IH, dropNode_keys, H.
Qed.

(** A built recommendation graph is a simple undirected graph on listed
    items: its nodes are items of the list, with pairwise different ids;
    both ends of every edge are nodes of the graph; and no two edges join
    the same two items, in either direction. *)
Theorem recommendation_graph_is_simple (l : list Recommendation.RecAnime)
    (g : Graphology.UGraph) :
  Recommendation.buildRecommendationGraph l = Some g ->
  NoDup (map fst (Graphology.g_nodes g))
  /\ (forall n, In n (Graphology.g_nodes g) ->
        exists a, In a l /\ n = (Recommendation.rec_id a, Recommendation.rec_attributes a))
  /\ (forall s t w, In (s, t, w) (Graphology.g_edges g) ->
        Graphology.hasNode g s = true /\ Graphology.hasNode g t = true)
  /\ simple_edges (Graphology.g_edges g).
Proof.
  intro H.
  destruct (built_graph_of l g H) as (g1 & Hnd & (Hnodes & Hclosed & Hsimple & _) & _ & ->).
  unfold Recommendation.remove_isolated.
  set (isolated := map fst (filter _ (Graphology.g_nodes g1))).
  split; [|split; [|split]].
  - apply dropNodes_keys. rewrite Hnodes, map_map. exact Hnd.
  - intros n Hn. apply dropNodes_nodes in Hn as [Hn _]. rewrite Hnodes in Hn.
    apply in_map_iff in Hn as [a [<- Ha]]. exists a. auto.
  - intros s t w Hin. apply dropNodes_edges in Hin as (Hin & Hs & Ht).
    destruct (Hclosed s t w Hin) as [Hns Hnt].
    apply hasNode_In in Hns. apply hasNode_In in Hnt.
    apply in_map_iff in Hns as [ns [Es Hns]]. apply in_map_iff in Hnt as [nt [Et Hnt]].
    split; apply hasNode_In; apply in_map_iff;
      [exists ns | exists nt]; (split; [assumption|]); apply dropNodes_nodes;
      (split; [assumption | congruence]).
  - apply dropNodes_simple, Hsimple.
Qed.

Lemma recommendation_graph_is_simple_witness :
  exists g,
    Recommendation.buildRecommendationGraph RecSamples.rec_list = Some g
    /\ NoDup (map fst (Graphology.g_nodes g))
    /\ (forall n, In n (Graphology.g_nodes g) ->
          exists a, In a RecSamples.rec_list
                    /\ n = (Recommendation.rec_id a, Recommendation.rec_attributes a))
    /\ (forall s t w, In (s, t, w) (Graphology.g_edges g) ->
          Graphology.hasNode g s = true /\ Graphology.hasNode g t = true)
    /\ simple_edges (Graphology.g_edges g).
Proof.
  eexists. split; [reflexivity|].
  apply (recommendation_graph_is_simple RecSamples.rec_list). reflexivity.
Defined.

(** Every edge weight of a built recommendation graph is
    [max(1, rating / 100)] for the rating of some listed recommendation,
    hence at least 1; when no listed rating exceeds 100, every edge has
    weight exactly 1, whatever the ratings. *)
Theorem recommendation_weights (l : list Recommendation.RecAnime)
    (g : Graphology.UGraph) :
  Recommendation.buildRecommendationGraph l = Some g ->
  (forall s t w, In (s, t, w) (Graphology.g_edges g) ->
     1 <= w
     /\ exists a e, In a l /\ In e (Recommendation.recommendations a)
                    /\ w = Recommendation.rec_weight (rating_or_0 e))
  /\ ((forall a e, In a l -> In e (Recommendation.recommendations a) ->
                   (rating_or_0 e <= 100)%Z) ->
      forall s t w, In (s, t, w) (Graphology.g_edges g) -> w = 1).
Proof.
  intro H.
  destruct (built_graph_of l g H) as (g1 & _ & (_ & _ & _ & Hweights) & _ & ->).
  split.
  - intros s t w Hin. apply (proj1 (remove_isolated_edges _ _ _ _)) in Hin.
    destruct (Hweights s t w Hin) as (a & e & Ha & He & ->).
    split; [apply rec_weight_at_least_one | exists a, e; auto].
  - intros Hall s t w Hin. apply (proj1 (remove_isolated_edges _ _ _ _)) in Hin.
    destruct (Hweights s t w Hin) as (a & e & Ha & He & ->).
    apply rec_weight_at_least_one, (Hall a e Ha He).
Qed.

Lemma recommendation_weights_witness :
  exists g,
    Recommendation.buildRecommendationGraph RecSamples.rec_list = Some g
    /\ (forall s t w, In (s, t, w) (Graphology.g_edges g) ->
          1 <= w
          /\ exists a e, In a RecSamples.rec_list
                         /\ In e (Recommendation.recommendations a)
                         /\ w = Recommendation.rec_weight (rating_or_0 e))
    /\ ((forall a e, In a RecSamples.rec_list ->
                     In e (Recommendation.recommendations a) ->
                     (rating_or_0 e <= 100)%Z) ->
        forall s t w, In (s, t, w) (Graphology.g_edges g) -> w = 1).
Proof.
  eexists. split; [reflexivity|].
  apply (recommendation_weights RecSamples.rec_list). reflexivity.
Defined.

(** No accepted recommendation is lost: if a listed item recommends
    another listed item (a non-zero id, a rating that is not negative),
    the built graph joins the two, in one direction or the other, by an
    edge whose weight is at least the weight of that recommendation. *)
Theorem recommendation_is_kept (l : list Recommendation.RecAnime)
    (g : Graphology.UGraph) (anime : Recommendation.RecAnime)
    (edge : Recommendation.RecEdge) (r : Z) :
  Recommendation.buildRecommendationGraph l = Some g ->
  In anime l -> In edge (Recommendation.recommendations anime) ->
  Recommendation.mediaRecommendation edge = Some r -> r <> 0%Z ->
  (0 <= rating_or_0 edge)%Z -> In r (map Recommendation.rec_id l) ->
  joined_at_least g (Recommendation.rec_id anime) r
                  (Recommendation.rec_weight (rating_or_0 edge))
  /\ Graphology.hasNode g (Recommendation.rec_id anime) = true
  /\ Graphology.hasNode g r = true.
Proof.
  intros H Hanime Hedge Hm Hr0 Hrating Hr.
  destruct (built_graph_of l g H) as (g1 & Hnd & Hinv & E1 & ->).
  assert (Hj : joined_at_least g1 (Recommendation.rec_id anime) r
                 (Recommendation.rec_weight (rating_or_0 edge))).
  { rewrite E1. unfold Recommendation.add_all_edges.
    apply outer_loop_joined; [apply incl_refl | |].
    - unfold rec_invariant. cbn [Graphology.g_nodes Graphology.g_edges].
      split; [reflexivity|]. split; [intros ? ? ? []|].
      split; [constructor | intros ? ? ? []].
    - right. exists anime, edge. auto 10. }
  destruct Hj as (s & t & w & Hin & Hjoin & Hle).
  assert (Hkept : In (s, t, w) (Graphology.g_edges (Recommendation.remove_isolated g1)))
    by (apply (proj2 (remove_isolated_edges _ _ _ _)), Hin).
  split; [exists s, t, w; auto|].
  assert (Hends : Graphology.hasNode (Recommendation.remove_isolated g1) s = true
                  /\ Graphology.hasNode (Recommendation.remove_isolated g1) t = true).
  { destruct Hinv as (Hnodes & Hclosed & _).
    destruct (Hclosed s t w Hin) as [Hns Hnt].
    apply hasNode_In in Hns. apply hasNode_In in Hnt.
    apply in_map_iff in Hns as [ns [Es Hns]]. apply in_map_iff in Hnt as [nt [Et Hnt]].
    unfold Recommendation.remove_isolated in *.
    apply dropNodes_edges in Hkept as (_ & Hs & Ht).
    split; apply hasNode_In; apply in_map_iff;
      [exists ns | exists nt]; (split; [assumption|]); apply dropNodes_nodes;
      (split; [assumption | congruence]). }
  unfold Graphology.joins in Hjoin.
  apply orb_true_iff in Hjoin. rewrite !andb_true_iff, !Z.eqb_eq in Hjoin.
  destruct Hends as [Hs Ht].
  destruct Hjoin as [[-> ->] | [-> ->]]; auto.
Qed.

Lemma recommendation_is_kept_witness :
  exists g,
    Recommendation.buildRecommendationGraph RecSamples.rec_list = Some g
    /\ joined_at_least g 1 2 (Recommendation.rec_weight 40)
    /\ Graphology.hasNode g 1 = true
    /\ Graphology.hasNode g 2 = true.
Proof.
  eexists. split; [reflexivity|].
  apply (recommendation_is_kept RecSamples.rec_list _
           (Recommendation.mkRecAnime 1 (Graphology.mkAttributes "One" ["Action"%string] 100)
              [Recommendation.mkRecEdge (Some 40%Z) (Some 2%Z);
               Recommendation.mkRecEdge (Some 5%Z) (Some 99%Z)])
           (Recommendation.mkRecEdge (Some 40%Z) (Some 2%Z)) 2).
  - reflexivity.
  - left. reflexivity.
  - left. reflexivity.
  - reflexivity.
  - discriminate.
  - discriminate.
  - right. left. reflexivity.
Defined.

(** ** The hierarchical layout: community map and subdivision *)

Lemma members_of_set (m : list (Z * list Layout.GraphNode)) (k c : Z)
    (v : list Layout.GraphNode) :
  Layout.members_of (JsMap.set Z.eqb m k v) c
  = if (k =? c)%Z then v else Layout.members_of m c.
Proof.
  unfold Layout.members_of. destruct (Z.eqb_spec k c) as [E | E].
  - subst c. rewrite (get_set_same Z.eqb Z.eqb_spec). reflexivity.
  - rewrite (get_set_other Z.eqb Z.eqb_spec) by exact E. reflexivity.
Qed.

Lemma push_member_members (m : list (Z * list Layout.GraphNode))
    (node : Layout.GraphNode) (c : Z) :
  Layout.members_of (Layout.push_member m node) c
  = Layout.members_of m c
    ++ (if (Layout.community node =? c)%Z then [node] else []).
Proof.
  unfold Layout.push_member.
  destruct (JsMap.get Z.eqb m (Layout.community node)) as [members |] eqn:E;
    rewrite members_of_set; destruct (Z.eqb_spec (Layout.community node) c) as [Ec | Ec];
    try (rewrite app_nil_r; reflexivity);
    subst c; unfold Layout.members_of; rewrite E; reflexivity.
Qed.

Lemma community_map_fold (graph_nodes : list Layout.GraphNode)
    (m : list (Z * list Layout.GraphNode)) (c : Z) :
  Layout.members_of (fold_left Layout.push_member graph_nodes m) c
  = Layout.members_of m c
    ++ filter (fun n => (Layout.community n =? c)%Z) graph_nodes.
Proof.
  revert m. induction graph_nodes as [| node rest IH]; intro m; cbn [fold_left filter].
  - rewrite app_nil_r. reflexivity.
  - rewrite IH, push_member_members, <- app_assoc.
    destruct (Layout.community node =? c)%Z; reflexivity.
Qed.

Lemma push_member_keys (m : list (Z * list Layout.GraphNode)) (node : Layout.GraphNode) :
  JsMap.keys (Layout.push_member m node)
  = JsMap.add Z.eqb (JsMap.keys m) (Layout.community node).
Proof.
  unfold Layout.push_member.
  destruct (JsMap.get Z.eqb m (Layout.community node)); apply (keys_set Z.eqb Z.eqb_spec).
Qed.

Lemma community_map_keys (graph_nodes : list Layout.GraphNode)
    (m : list (Z * list Layout.GraphNode)) :
  JsMap.keys (fold_left Layout.push_member graph_nodes m)
  = fold_left (JsMap.add Z.eqb) (map Layout.community graph_nodes) (JsMap.keys m).
Proof.
  revert m. induction graph_nodes as [| node rest IH]; intro m; cbn [fold_left map].
  - reflexivity.
  - rewrite IH, push_member_keys. reflexivity.
Qed.

(** [buildCommunityMap] groups the graph's nodes by community: the list
    kept for a community is exactly the nodes of that community, each
    once, in their order in the graph; a community has an entry exactly
    when some node belongs to it; and no community has two entries. *)
Theorem buildCommunityMap_groups (graph_nodes : list Layout.GraphNode) :
  (forall c, Layout.members_of (Layout.buildCommunityMap graph_nodes) c
             = filter (fun n => (Layout.community n =? c)%Z) graph_nodes)
  /\ (forall c, In c (JsMap.keys (Layout.buildCommunityMap graph_nodes))
                <-> exists n, In n graph_nodes /\ Layout.community n = c)
  /\ NoDup (JsMap.keys (Layout.buildCommunityMap graph_nodes)).
Proof.
  unfold Layout.buildCommunityMap. split; [|split].
  - intro c. rewrite community_map_fold. reflexivity.
  - intro c. rewrite community_map_keys. cbn [JsMap.keys map].
    rewrite (fold_add_In Z.eqb Z.eqb_spec). rewrite in_map_iff. split.
    + intros [[] | [n [E Hn]]]. exists n. auto.
    + intros [n [Hn E]]. right. exists n. auto.
  - rewrite community_map_keys. apply (set_of_NoDup Z.eqb Z.eqb_spec).
Qed.

Section Subdivision.
Variable G : Type.
Variable random : G -> Q * G.

Lemma spawn_ids (currentTier : nat) (parentNode : Layout.LayoutNode) (n : nat) (i : Z)
    (g : G) :
  map Layout.ln_id (fst (Layout.spawn G random currentTier parentNode i n g))
  = map (fun j => (Layout.clusterId parentNode * 1000 + (i + Z.of_nat j))%Z) (seq 0 n)
  /\ Forall (fun child => Layout.clusterId child = Layout.clusterId parentNode)
            (fst (Layout.spawn G random currentTier parentNode i n g)).
Proof.
  revert i g. induction n as [| n IH]; intros i g; cbn [Layout.spawn].
  - split; [reflexivity | constructor].
  - destruct (random g) as [r1 g1]. destruct (random g1) as [r2 g2].
    destruct (IH (i + 1)%Z g2) as [IH1 IH2].
    destruct (Layout.spawn G random currentTier parentNode (i + 1) n g2) as [rest g'].
    cbn [fst] in *. cbn [seq map Layout.ln_id]. split.
    + rewrite IH1, <- seq_shift, map_map. f_equal; [f_equal; lia|].
      apply map_ext. intro j. f_equal. lia.
    + constructor; [reflexivity | exact IH2].
Qed.

Hypothesis random_range : forall g, 0 <= fst (random g) /\ fst (random g) < 1.

Lemma spawn_children (currentTier : nat) (parentNode : Layout.LayoutNode) (n : nat)
    (i : Z) (g : G) (child : Layout.LayoutNode) :
  In child (fst (Layout.spawn G random currentTier parentNode i n g)) ->
  exists j, (i <= j < i + Z.of_nat n)%Z /\ jittered_child currentTier parentNode j child.
Proof.
  revert i g. induction n as [| n IH]; intros i g; cbn [Layout.spawn]; [intros []|].
  pose proof (random_range g) as R1.
  destruct (random g) as [r1 g1].
  pose proof (random_range g1) as R2.
  destruct (random g1) as [r2 g2].
  specialize (IH (i + 1)%Z g2).
  destruct (Layout.spawn G random currentTier parentNode (i + 1) n g2) as [rest g'].
  cbn [fst] in *. intros [<- | Hin].
  - exists i. split; [lia|]. unfold jittered_child.
    cbn [Layout.ln_id Layout.clusterId Layout.tier Layout.hue Layout.x Layout.y].
    repeat split; lra.
  - destruct (IH Hin) as [j [Hj Hc]]. exists j. split; [lia | exact Hc].
Qed.

(** Every node that [subdivideNodes] returns descends from one of the old
    nodes: it carries that parent's cluster and hue and the current tier,
    its id is the parent's cluster id times 1000 plus the turn of the
    loop (below the number of subgroups of the cluster), and, the
    generator returning numbers in [0, 1), it lies within 25 of the
    parent on each axis. *)
Theorem subdivideNodes_children (currentTier : nat)
    (nodesByCommunity : list (Z * list Layout.GraphNode))
    (oldNodes : list Layout.LayoutNode) (g : G) (child : Layout.LayoutNode) :
  In child (fst (Layout.subdivideNodes G random currentTier nodesByCommunity oldNodes g)) ->
  exists parentNode j,
    In parentNode oldNodes
    /\ (0 <= j < Z.of_nat (Layout.subgroups currentTier
                             (Layout.members_of nodesByCommunity
                                (Layout.clusterId parentNode))))%Z
    /\ jittered_child currentTier parentNode j child.
Proof.
  revert g. induction oldNodes as [| parentNode rest IH]; intro g;
    cbn [Layout.subdivideNodes]; [intros []|].
  pose proof (spawn_children currentTier parentNode
                (Layout.subgroups currentTier
                   (Layout.members_of nodesByCommunity (Layout.clusterId parentNode)))
                0 g child) as Hspawn.
  destruct (Layout.spawn G random currentTier parentNode 0 _ g) as [children g1].
  specialize (IH g1).
  destruct (Layout.subdivideNodes G random currentTier nodesByCommunity rest g1)
    as [others g2].
  cbn [fst] in *. intro Hin. apply in_app_iff in Hin as [Hin | Hin].
  - destruct (Hspawn Hin) as [j [Hj Hc]]. exists parentNode, j.
    split; [left; reflexivity | split; [lia | exact Hc]].
  - destruct (IH Hin) as (p & j & Hp & Hj & Hc). exists p, j.
    split; [right; exact Hp | split; assumption].
Qed.

End Subdivision.

Lemma subdivideNodes_children_witness :
  exists parentNode j,
    In parentNode [LayoutSamples.parent]
    /\ (0 <= j < Z.of_nat (Layout.subgroups 1
                             (Layout.members_of LayoutSamples.byCommunity
                                (Layout.clusterId parentNode))))%Z
    /\ jittered_child 1 parentNode j
         (Layout.mkLayoutNode 7000 7 1 (100 + ((1 # 4) - (1 # 2)) * 50)
            (200 + ((3 # 4) - (1 # 2)) * 50) 180).
Proof.
  refine (subdivideNodes_children bool LayoutGraphSamples.alternating_random _ 1
            LayoutSamples.byCommunity [LayoutSamples.parent] true _ _).
  - intros []; split; vm_compute; (reflexivity || (intro H; discriminate H)).
  - vm_compute. left. reflexivity.
Defined.

Lemma subgroups_zero (currentTier : nat) (members : list Layout.GraphNode) :
  Layout.subgroups currentTier members = 0%nat <-> members = [].
Proof.
  unfold Layout.subgroups. split.
  - intro H. destruct members as [| m ms]; [reflexivity | exfalso].
    assert (H1 : (0 < 2 ^ (currentTier + 1))%nat)
      by (apply Nat.neq_0_lt_0, Nat.pow_nonzero; discriminate).
    assert (H2 : (0 < (length (m :: ms) + 49) / 50)%nat)
      by (apply Nat.div_str_pos; cbn [length]; lia).
    lia.
  - intros ->. cbn [length]. change ((0 + 49) / 50)%nat with 0%nat. apply Nat.min_0_r.
Qed.

Lemma subgroups_below_1000 (currentTier : nat) (members : list Layout.GraphNode) :
  (currentTier <= 8)%nat -> (Layout.subgroups currentTier members <= 512)%nat.
Proof.
  intro H. unfold Layout.subgroups.
  etransitivity; [apply Nat.le_min_l|].
  change 512%nat with (2 ^ 9)%nat. apply Nat.pow_le_mono_r; [discriminate | lia].
Qed.

Section SubdivisionIds.
Variable G : Type.
Variable random : G -> Q * G.

Lemma subdivideNodes_origin (currentTier : nat)
    (nodesByCommunity : list (Z * list Layout.GraphNode))
    (oldNodes : list Layout.LayoutNode) (g : G) (child : Layout.LayoutNode) :
  In child (fst (Layout.subdivideNodes G random currentTier nodesByCommunity oldNodes g)) ->
  exists parentNode j,
    In parentNode oldNodes
    /\ (j < Layout.subgroups currentTier
              (Layout.members_of nodesByCommunity (Layout.clusterId parentNode)))%nat
    /\ Layout.ln_id child = (Layout.clusterId parentNode * 1000 + Z.of_nat j)%Z
    /\ Layout.clusterId child = Layout.clusterId parentNode.
Proof.
  revert g. induction oldNodes as [| parentNode rest IH]; intro g;
    cbn [Layout.subdivideNodes]; [intros []|].
  destruct (spawn_ids G random currentTier parentNode
              (Layout.subgroups currentTier
                 (Layout.members_of nodesByCommunity (Layout.clusterId parentNode)))
              0 g) as [Hids Hcl].
  destruct (Layout.spawn G random currentTier parentNode 0 _ g) as [children g1].
  specialize (IH g1).
  destruct (Layout.subdivideNodes G random currentTier nodesByCommunity rest g1)
    as [others g2].
  cbn [fst] in *. intro Hin. apply in_app_iff in Hin as [Hin | Hin].
  - assert (Hid : In (Layout.ln_id child) (map Layout.ln_id children))
      by (apply in_map, Hin).
    rewrite Hids in Hid. apply in_map_iff in Hid as [j [Ej Hj]].
    apply in_seq in Hj. rewrite Forall_forall in Hcl.
    exists parentNode, j. split; [left; reflexivity|].
    split; [lia|]. split; [rewrite <- Ej; reflexivity | exact (Hcl _ Hin)].
  - destruct (IH Hin) as (p & j & Hp & Hj & Hc). exists p, j.
    split; [right; exact Hp | split; assumption].
Qed.

(** When the nodes to subdivide have pairwise different cluster ids (as
    the top-level nodes have) and the tier is at most 8, no two of the
    nodes that [subdivideNodes] returns have the same id: a cluster yields
    fewer than 1000 nodes, so the ids [clusterId * 1000 + i] of different
    clusters do not meet. *)
Theorem subdivideNodes_distinct_ids (currentTier : nat)
    (nodesByCommunity : list (Z * list Layout.GraphNode))
    (oldNodes : list Layout.LayoutNode) (g : G) :
  NoDup (map Layout.clusterId oldNodes) -> (currentTier <= 8)%nat ->
  NoDup (map Layout.ln_id
           (fst (Layout.subdivideNodes G random currentTier nodesByCommunity oldNodes g))).
Proof.
  intros Hnd Htier. revert g.
  induction oldNodes as [| parentNode rest IH]; intro g;
    cbn [Layout.subdivideNodes]; [constructor|].
  inversion Hnd as [| ? ? Hnotin Hnd']; subst.
  pose proof (subgroups_below_1000 currentTier
                (Layout.members_of nodesByCommunity (Layout.clusterId parentNode)) Htier)
    as Hsmall.
  destruct (spawn_ids G random currentTier parentNode
              (Layout.subgroups currentTier
                 (Layout.members_of nodesByCommunity (Layout.clusterId parentNode)))
              0 g) as [Hids _].
  destruct (Layout.spawn G random currentTier parentNode 0 _ g) as [children g1].
  pose proof (subdivideNodes_origin currentTier nodesByCommunity rest g1) as Horigin.
  specialize (IH Hnd' g1).
  destruct (Layout.subdivideNodes G random currentTier nodesByCommunity rest g1)
    as [others g2].
  cbn [fst] in *. rewrite map_app. apply NoDup_app.
  - rewrite Hids. clear. generalize 0%nat.
    induction (Layout.subgroups currentTier
                 (Layout.members_of nodesByCommunity (Layout.clusterId parentNode)))
      as [| n IHn]; intro k; cbn [seq map]; constructor; [|apply IHn].
    intro Hin. apply in_map_iff in Hin as [j [Ej Hj]]. apply in_seq in Hj. lia.
  - exact IH.
  - intros id Hid Hother. rewrite Hids in Hid.
    apply in_map_iff in Hid as [j [Ej Hj]]. apply in_seq in Hj.
    apply in_map_iff in Hother as [child [Ec Hchild]].
    destruct (Horigin child Hchild) as (p & j' & Hp & Hj' & Hidc & _).
    pose proof (subgroups_below_1000 currentTier
                  (Layout.members_of nodesByCommunity (Layout.clusterId p)) Htier).
    apply Hnotin. apply in_map_iff. exists p. split; [lia | exact Hp].
Qed.

(** A cluster is present after [subdivideNodes] exactly when it was
    present before and its community has members: a populated cluster is
    never lost, and a cluster without members gets no node. *)
Theorem subdivideNodes_clusters (currentTier : nat)
    (nodesByCommunity : list (Z * list Layout.GraphNode))
    (oldNodes : list Layout.LayoutNode) (g : G) (c : Z) :
  (exists child,
      In child (fst (Layout.subdivideNodes G random currentTier nodesByCommunity oldNodes g))
      /\ Layout.clusterId child = c)
  <-> (exists parentNode,
          In parentNode oldNodes /\ Layout.clusterId parentNode = c
          /\ Layout.members_of nodesByCommunity c <> []).
Proof.
  split.
  - intros (child & Hin & <-).
    destruct (subdivideNodes_origin _ _ _ _ _ Hin) as (p & j & Hp & Hj & _ & Hc).
    exists p. split; [exact Hp|]. split; [symmetry; exact Hc|].
    rewrite Hc. intro Hempty.
    apply (subgroups_zero currentTier) in Hempty. lia.
  - intros (p & Hp & <- & Hmembers). revert g.
    induction oldNodes as [| parentNode rest IH]; intro g; [destruct Hp|].
    cbn [Layout.subdivideNodes].
    pose proof (spawn_length G random currentTier parentNode
                  (Layout.subgroups currentTier
                     (Layout.members_of nodesByCommunity (Layout.clusterId parentNode)))
                  0 g) as Hlen.
    destruct (spawn_ids G random currentTier parentNode
                (Layout.subgroups currentTier
                   (Layout.members_of nodesByCommunity (Layout.clusterId parentNode)))
                0 g) as [_ Hcl].
    destruct (Layout.spawn G random currentTier parentNode 0 _ g) as [children g1].
    pose proof (fun H => IH H g1) as IH'.
    destruct (Layout.subdivideNodes G random currentTier nodesByCommunity rest g1)
      as [others g2].
    cbn [fst] in *. destruct Hp as [-> | Hp].
    + destruct children as [| child children'].
      * exfalso. apply Hmembers. apply (subgroups_zero currentTier).
        cbn [length] in Hlen. symmetry. exact Hlen.
      * exists child. split; [left; reflexivity|].
        inversion Hcl; subst. assumption.
    + destruct (IH' Hp) as (child & Hin & Hc). exists child.
      split; [apply in_or_app; right; exact Hin | exact Hc].
Qed.

End SubdivisionIds.

Lemma subdivideNodes_distinct_ids_witness :
  NoDup (map Layout.ln_id
           (fst (Layout.subdivideNodes (list Q) LayoutSamples.tape_random 1
                   LayoutSamples.byCommunity [LayoutSamples.parent] LayoutSamples.tape))).
Proof.
  apply (subdivideNodes_distinct_ids (list Q) LayoutSamples.tape_random 1
           LayoutSamples.byCommunity [LayoutSamples.parent] LayoutSamples.tape).
  - constructor; [intros [] | constructor].
  - lia.
Defined.

(** ** The hierarchical layout: edges between layout nodes *)

Lemma filter_head_find {A : Type} (p : A -> bool) (l : list A) :
  match filter p l with
  | first :: _ => find p l = Some first
  | [] => find p l = None
  end.
Proof.
  induction l as [| a l IH]; cbn [filter find]; [reflexivity|].
  destruct (p a); [reflexivity | exact IH].
Qed.

Lemma edge_weight_nonzero (edge : LayoutGraph.InputEdge) :
  ~ LayoutGraph.edge_weight edge == 0.
Proof.
  destruct edge as [e | s t w]; cbn [LayoutGraph.edge_weight].
  - destruct (Qeq_bool (weight e) 0) eqn:E.
    + intro H. vm_compute in H. discriminate H.
    + apply Qeq_bool_neq, E.
  - intro H. vm_compute in H. discriminate H.
Qed.

(** What one turn of the edge loop of [createEdges] does. *)
Lemma createEdge_cases (graph_nodes : list Layout.GraphNode)
    (nodes : list Layout.LayoutNode) (edges : list LayoutGraph.LayoutEdge)
    (edge : LayoutGraph.InputEdge) :
  LayoutGraph.createEdge graph_nodes nodes edges edge = edges
  \/ exists sourceNode targetNode s t,
       LayoutGraph.find_node graph_nodes (fst (LayoutGraph.edge_ids edge)) = Some sourceNode
       /\ LayoutGraph.find_node graph_nodes (snd (LayoutGraph.edge_ids edge))
          = Some targetNode
       /\ Layout.community sourceNode <> Layout.community targetNode
       /\ find (fun n => (Layout.clusterId n =? Layout.community sourceNode)%Z) nodes
          = Some s
       /\ find (fun n => (Layout.clusterId n =? Layout.community targetNode)%Z) nodes
          = Some t
       /\ LayoutGraph.createEdge graph_nodes nodes edges edge
          = edges ++ [LayoutGraph.mkLayoutEdge s t (LayoutGraph.edge_weight edge)].
Proof.
  unfold LayoutGraph.createEdge.
  destruct (LayoutGraph.edge_ids edge) as [sourceComm targetComm]. cbn [fst snd].
  destruct (LayoutGraph.find_node graph_nodes sourceComm) as [sourceNode |]; [|auto].
  destruct (LayoutGraph.find_node graph_nodes targetComm) as [targetNode |]; [|auto].
  destruct (Z.eqb_spec (Layout.community sourceNode) (Layout.community targetNode))
    as [E | E]; [auto|].
  pose proof (filter_head_find
                (fun n => (Layout.clusterId n =? Layout.community sourceNode)%Z) nodes) as Hs.
  pose proof (filter_head_find
                (fun n => (Layout.clusterId n =? Layout.community targetNode)%Z) nodes) as Ht.
  destruct (filter (fun n => (Layout.clusterId n =? Layout.community sourceNode)%Z) nodes)
    as [| s ss]; [auto|].
  destruct (filter (fun n => (Layout.clusterId n =? Layout.community targetNode)%Z) nodes)
    as [| t ts]; [auto|].
  right. exists sourceNode, targetNode, s, t. auto 10.
Qed.

Lemma createEdges_fold (graph_nodes : list Layout.GraphNode)
    (nodes : list Layout.LayoutNode) (graph_edges : list LayoutGraph.InputEdge)
    (edges : list LayoutGraph.LayoutEdge) :
  exists made,
    fold_left (LayoutGraph.createEdge graph_nodes nodes) graph_edges edges = edges ++ made
    /\ (length made <= length graph_edges)%nat
    /\ forall layoutEdge, In layoutEdge made ->
         exists edge sourceNode targetNode,
           In edge graph_edges
           /\ LayoutGraph.find_node graph_nodes (fst (LayoutGraph.edge_ids edge))
              = Some sourceNode
           /\ LayoutGraph.find_node graph_nodes (snd (LayoutGraph.edge_ids edge))
              = Some targetNode
           /\ Layout.community sourceNode <> Layout.community targetNode
           /\ find (fun n => (Layout.clusterId n =? Layout.community sourceNode)%Z) nodes
              = Some (LayoutGraph.le_source layoutEdge)
           /\ find (fun n => (Layout.clusterId n =? Layout.community targetNode)%Z) nodes
              = Some (LayoutGraph.le_target layoutEdge)
           /\ LayoutGraph.le_weight layoutEdge = LayoutGraph.edge_weight edge.
Proof.
  revert edges. induction graph_edges as [| edge rest IH]; intro edges; cbn [fold_left].
  - exists []. rewrite app_nil_r. split; [reflexivity|]. split; [apply le_n | intros ? []].
  - destruct (IH (LayoutGraph.createEdge graph_nodes nodes edges edge))
      as (made & Hfold & Hlen & Hmade).
    destruct (createEdge_cases graph_nodes nodes edges edge)
      as [E | (sn & tn & s & t & Hsn & Htn & Hne & Hs & Ht & E)];
      rewrite E in Hfold |- *.
    + exists made. split; [exact Hfold|]. split; [cbn [length]; lia|].
      intros le Hle. destruct (Hmade le Hle) as (e & sn & tn & He & Hrest).
      exists e, sn, tn. split; [right; exact He | exact Hrest].
    + exists (LayoutGraph.mkLayoutEdge s t (LayoutGraph.edge_weight edge) :: made).
      split; [rewrite Hfold, <- app_assoc; reflexivity|].
      split; [cbn [length]; lia|].
      intros le [<- | Hle].
      * exists edge, sn, tn. cbn [LayoutGraph.le_source LayoutGraph.le_target
                                   LayoutGraph.le_weight].
        split; [left; reflexivity | auto 10].
      * destruct (Hmade le Hle) as (e & sn' & tn' & He & Hrest).
        exists e, sn', tn'. split; [right; exact He | exact Hrest].
Qed.

(** Every edge that [createEdges] returns comes from an edge of the graph
    whose two ends are known nodes of different communities; it joins the
    first layout node of the one community to the first layout node of
    the other, so its ends are layout nodes of different clusters; and
    its weight is the graph edge's weight, or 0.5 where that is missing
    or zero, hence never zero. *)
Theorem createEdges_links (graph_nodes : list Layout.GraphNode)
    (graph_edges : list LayoutGraph.InputEdge) (nodes : list Layout.LayoutNode)
    (layoutEdge : LayoutGraph.LayoutEdge) :
  In layoutEdge (LayoutGraph.createEdges graph_nodes graph_edges nodes) ->
  (exists edge sourceNode targetNode,
      In edge graph_edges
      /\ LayoutGraph.find_node graph_nodes (fst (LayoutGraph.edge_ids edge))
         = Some sourceNode
      /\ LayoutGraph.find_node graph_nodes (snd (LayoutGraph.edge_ids edge))
         = Some targetNode
      /\ Layout.community sourceNode <> Layout.community targetNode
      /\ find (fun n => (Layout.clusterId n =? Layout.community sourceNode)%Z) nodes
         = Some (LayoutGraph.le_source layoutEdge)
      /\ find (fun n => (Layout.clusterId n =? Layout.community targetNode)%Z) nodes
         = Some (LayoutGraph.le_target layoutEdge)
      /\ LayoutGraph.le_weight layoutEdge = LayoutGraph.edge_weight edge)
  /\ In (LayoutGraph.le_source layoutEdge) nodes
  /\ In (LayoutGraph.le_target layoutEdge) nodes
  /\ Layout.clusterId (LayoutGraph.le_source layoutEdge)
     <> Layout.clusterId (LayoutGraph.le_target layoutEdge)
  /\ ~ LayoutGraph.le_weight layoutEdge == 0.
Proof.
  unfold LayoutGraph.createEdges. intro Hin.
  destruct (createEdges_fold graph_nodes nodes graph_edges [])
    as (made & Hfold & _ & Hmade).
  rewrite Hfold in Hin. cbn [app] in Hin.
  destruct (Hmade layoutEdge Hin) as (edge & sn & tn & He & Hsn & Htn & Hne & Hs & Ht & Hw).
  split; [exists edge, sn, tn; auto 10|].
  apply find_some in Hs as Hs'. apply find_some in Ht as Ht'.
  destruct Hs' as [Hins Hcs]. destruct Ht' as [Hint Hct].
  apply Z.eqb_eq in Hcs. apply Z.eqb_eq in Hct.
  split; [exact Hins|]. split; [exact Hint|]. split; [congruence|].
  rewrite Hw. apply edge_weight_nonzero.
Qed.

Lemma createEdges_links_witness :
  In (LayoutGraph.mkLayoutEdge (Layout.mkLayoutNode 7 7 0 0 0 0)
        (Layout.mkLayoutNode 8 8 0 10 10 180) (1 # 2))
     (LayoutGraph.createEdges LayoutGraphSamples.graph_nodes
        LayoutGraphSamples.graph_edges LayoutGraphSamples.layout_nodes)
  /\ In (Layout.mkLayoutNode 7 7 0 0 0 0) LayoutGraphSamples.layout_nodes
  /\ In (Layout.mkLayoutNode 8 8 0 10 10 180) LayoutGraphSamples.layout_nodes
  /\ Layout.clusterId (Layout.mkLayoutNode 7 7 0 0 0 0)
     <> Layout.clusterId (Layout.mkLayoutNode 8 8 0 10 10 180)
  /\ ~ 1 # 2 == 0.
Proof.
  assert (Hin : In (LayoutGraph.mkLayoutEdge (Layout.mkLayoutNode 7 7 0 0 0 0)
                      (Layout.mkLayoutNode 8 8 0 10 10 180) (1 # 2))
                   (LayoutGraph.createEdges LayoutGraphSamples.graph_nodes
                      LayoutGraphSamples.graph_edges LayoutGraphSamples.layout_nodes))
    by (vm_compute; left; reflexivity).
  split; [exact Hin|].
  apply (createEdges_links LayoutGraphSamples.graph_nodes LayoutGraphSamples.graph_edges
           LayoutGraphSamples.layout_nodes _ Hin).
Defined.

(** [createEdges] returns at most one edge for each edge of the graph, the
    edges of the graph taken in order; graph edges inside one community
    give none. *)
Theorem createEdges_bounded (graph_nodes : list Layout.GraphNode)
    (graph_edges : list LayoutGraph.InputEdge) (nodes : list Layout.LayoutNode) :
  (length (LayoutGraph.createEdges graph_nodes graph_edges nodes)
   <= length graph_edges)%nat
  /\ ((forall edge sourceNode targetNode,
          In edge graph_edges ->
          LayoutGraph.find_node graph_nodes (fst (LayoutGraph.edge_ids edge))
          = Some sourceNode ->
          LayoutGraph.find_node graph_nodes (snd (LayoutGraph.edge_ids edge))
          = Some targetNode ->
          Layout.community sourceNode = Layout.community targetNode) ->
      LayoutGraph.createEdges graph_nodes graph_edges nodes = []).
Proof.
  unfold LayoutGraph.createEdges.
  destruct (createEdges_fold graph_nodes nodes graph_edges []) as (made & -> & Hlen & Hmade).
  cbn [app]. split; [exact Hlen|]. intro Hsame.
  destruct made as [| layoutEdge made']; [reflexivity | exfalso].
  destruct (Hmade layoutEdge (or_introl eq_refl))
    as (edge & sn & tn & He & Hsn & Htn & Hne & _).
  exact (Hne (Hsame edge sn tn He Hsn Htn)).
Qed.

(** ** The hierarchical layout: members given to each layout node *)

Lemma slice_app {A : Type} (a b c : nat) (l : list A) :
  (a <= b)%nat -> (b <= c)%nat ->
  LayoutGraph.slice a b l ++ LayoutGraph.slice b c l = LayoutGraph.slice a c l.
Proof.
  intros Hab Hbc. unfold LayoutGraph.slice.
  replace b with ((b - a) + a)%nat at 3 by lia.
  rewrite <- skipn_skipn.
  replace (c - a)%nat with ((b - a) + (c - b))%nat by lia.
  generalize (skipn a l) as l'. generalize (b - a)%nat as m. generalize (c - b)%nat as n.
  clear. intros n m. induction m as [| m IH]; intro l'; [reflexivity|].
  destruct l' as [| x l'']; cbn [firstn skipn Nat.add app].
  - rewrite firstn_nil. reflexivity.
  - f_equal. apply IH.
Qed.

Lemma ceil_div_covers (n k : nat) :
  (1 <= k)%nat -> (n <= k * LayoutGraph.ceil_div n k)%nat.
Proof.
  intro Hk. unfold LayoutGraph.ceil_div.
  pose proof (Nat.div_mod_eq (n + k - 1) k) as E.
  pose proof (Nat.mod_upper_bound (n + k - 1) k) as U.
  lia.
Qed.

Lemma assignments_concat (nodesByCommunity : list (Z * list Layout.GraphNode))
    (layoutNodes : list Layout.LayoutNode) (c : Z)
    (rest earlier : list Layout.LayoutNode) :
  let members := Layout.members_of nodesByCommunity c in
  let per :=
    LayoutGraph.ceil_div (length members)
      (length (filter (fun n => (Layout.clusterId n =? c)%Z) layoutNodes)) in
  let e := length (filter (fun n => (Layout.clusterId n =? c)%Z) earlier) in
  let r := length (filter (fun n => (Layout.clusterId n =? c)%Z) rest) in
  concat (map snd
            (filter (fun p => (Layout.clusterId (fst p) =? c)%Z)
                    (LayoutGraph.assignments nodesByCommunity layoutNodes earlier rest)))
  = LayoutGraph.slice (e * per) ((e + r) * per) members.
Proof.
  intros members per. revert earlier.
  induction rest as [| layoutNode rest IH]; intro earlier;
    cbn [LayoutGraph.assignments filter map concat length].
  - unfold LayoutGraph.slice. rewrite Nat.add_0_r, Nat.sub_diag. reflexivity.
  - cbn [fst]. specialize (IH (earlier ++ [layoutNode])).
    cbv zeta in IH. rewrite filter_app, length_app in IH. cbn [filter] in IH.
    destruct (Z.eqb_spec (Layout.clusterId layoutNode) c) as [E | E].
    + cbn [map snd concat length] in IH |- *. rewrite IH.
      unfold LayoutGraph.assigned_members. rewrite E. fold members. fold per.
      set (e := length (filter (fun n => (Layout.clusterId n =? c)%Z) earlier)).
      set (r := length (filter (fun n => (Layout.clusterId n =? c)%Z) rest)).
      rewrite <- (slice_app (e * per) (e * per + per) ((e + S r) * per)) by nia.
      f_equal. f_equal; nia.
    + cbn [length] in IH. rewrite IH. f_equal; nia.
Qed.

(** [finalizeLayout] deals a community's members out to the layout nodes
    of its cluster without loss or repetition: whenever the cluster has
    at least one layout node, the members assigned to its layout nodes,
    taken in the order of those nodes, are exactly the members of the
    community, each once and in their order. *)
Theorem finalizeLayout_splits_members
    (nodesByCommunity : list (Z * list Layout.GraphNode))
    (layoutNodes : list Layout.LayoutNode) (c : Z) :
  (exists layoutNode, In layoutNode layoutNodes /\ Layout.clusterId layoutNode = c) ->
  concat (map snd
            (filter (fun p => (Layout.clusterId (fst p) =? c)%Z)
                    (LayoutGraph.member_assignments nodesByCommunity layoutNodes)))
  = Layout.members_of nodesByCommunity c.
Proof.
  intros (layoutNode & Hin & Hc). unfold LayoutGraph.member_assignments.
  rewrite (assignments_concat nodesByCommunity layoutNodes c layoutNodes []).
  cbn [filter length Nat.mul Nat.add]. unfold LayoutGraph.slice.
  rewrite Nat.sub_0_r. cbn [skipn]. apply firstn_all2.
  assert (Hk : In layoutNode (filter (fun n => (Layout.clusterId n =? c)%Z) layoutNodes))
    by (apply filter_In; split; [exact Hin | apply Z.eqb_eq, Hc]).
  assert (Hpos : (1 <= length (filter (fun n => (Layout.clusterId n =? c)%Z)
                                       layoutNodes))%nat)
    by (destruct (filter (fun n => (Layout.clusterId n =? c)%Z) layoutNodes);
        [destruct Hk | cbn [length]; lia]).
  pose proof (ceil_div_covers (length (Layout.members_of nodesByCommunity c)) _ Hpos).
  lia.
Qed.

Lemma finalizeLayout_splits_members_witness :
  concat (map snd
            (filter (fun p => (Layout.clusterId (fst p) =? 7)%Z)
                    (LayoutGraph.member_assignments LayoutSamples.byCommunity
                       [LayoutSamples.parent; Layout.mkLayoutNode 8 8 0 0 0 0;
                        Layout.mkLayoutNode 7001 7 1 1 1 180])))
  = Layout.members_of LayoutSamples.byCommunity 7.
Proof.
  apply (finalizeLayout_splits_members LayoutSamples.byCommunity
           [LayoutSamples.parent; Layout.mkLayoutNode 8 8 0 0 0 0;
            Layout.mkLayoutNode 7001 7 1 1 1 180] 7).
  exists LayoutSamples.parent. split; [left; reflexivity | reflexivity].
Defined.

(** ** Normalization to world space: order and extremes *)

Lemma box_step_attained (b : Layout.Box) (seen : list Layout.Positioned)
    (node : Layout.Positioned) :
  (exists nx nX ny nY,
      In nx seen /\ In nX seen /\ In ny seen /\ In nY seen
      /\ b = Layout.mkBox (Layout.Fin (Layout.pos_x nx)) (Layout.Fin (Layout.pos_x nX))
                          (Layout.Fin (Layout.pos_y ny)) (Layout.Fin (Layout.pos_y nY))) ->
  exists nx nX ny nY,
    In nx (seen ++ [node]) /\ In nX (seen ++ [node])
    /\ In ny (seen ++ [node]) /\ In nY (seen ++ [node])
    /\ Layout.box_step b node
       = Layout.mkBox (Layout.Fin (Layout.pos_x nx)) (Layout.Fin (Layout.pos_x nX))
                      (Layout.Fin (Layout.pos_y ny)) (Layout.Fin (Layout.pos_y nY)).
Proof.
  intros (nx & nX & ny & nY & Hx & HX & Hy & HY & ->).
  unfold Layout.box_step.
  cbn [Layout.minX Layout.maxX Layout.minY Layout.maxY Layout.js_min Layout.js_max].
  destruct (Qminb_spec (Layout.pos_x nx) (Layout.pos_x node)) as [[E1 | E1] _];
    destruct (Qmaxb_spec (Layout.pos_x nX) (Layout.pos_x node)) as [[E2 | E2] _];
    destruct (Qminb_spec (Layout.pos_y ny) (Layout.pos_y node)) as [[E3 | E3] _];
    destruct (Qmaxb_spec (Layout.pos_y nY) (Layout.pos_y node)) as [[E4 | E4] _];
    rewrite E1, E2, E3, E4; do 4 eexists;
    refine (conj _ (conj _ (conj _ (conj _ eq_refl))));
    apply in_or_app; ((left; assumption) || (right; left; reflexivity)).
Qed.

Lemma box_loop_attained (rest seen : list Layout.Positioned) (b : Layout.Box) :
  (exists nx nX ny nY,
      In nx seen /\ In nX seen /\ In ny seen /\ In nY seen
      /\ b = Layout.mkBox (Layout.Fin (Layout.pos_x nx)) (Layout.Fin (Layout.pos_x nX))
                          (Layout.Fin (Layout.pos_y ny)) (Layout.Fin (Layout.pos_y nY))) ->
  exists nx nX ny nY,
    In nx (seen ++ rest) /\ In nX (seen ++ rest)
    /\ In ny (seen ++ rest) /\ In nY (seen ++ rest)
    /\ fold_left Layout.box_step rest b
       = Layout.mkBox (Layout.Fin (Layout.pos_x nx)) (Layout.Fin (Layout.pos_x nX))
                      (Layout.Fin (Layout.pos_y ny)) (Layout.Fin (Layout.pos_y nY)).
Proof.
  revert seen b. induction rest as [| node rest IH]; intros seen b H; cbn [fold_left].
  - rewrite app_nil_r. exact H.
  - replace (seen ++ node :: rest) with ((seen ++ [node]) ++ rest)
      by (rewrite <- app_assoc; reflexivity).
    apply IH, box_step_attained, H.
Qed.

(** The box that [main] computes for a non-empty graph is tight: each of
    its four bounds is a coordinate of some node, and encloses all. *)
Lemma bounding_box_tight (nodes : list Layout.Positioned) :
  nodes <> [] ->
  exists nx nX ny nY,
    In nx nodes /\ In nX nodes /\ In ny nodes /\ In nY nodes
    /\ Layout.bounding_box nodes
       = Layout.mkBox (Layout.Fin (Layout.pos_x nx)) (Layout.Fin (Layout.pos_x nX))
                      (Layout.Fin (Layout.pos_y ny)) (Layout.Fin (Layout.pos_y nY))
    /\ forall n, In n nodes ->
         Layout.pos_x nx <= Layout.pos_x n <= Layout.pos_x nX
         /\ Layout.pos_y ny <= Layout.pos_y n <= Layout.pos_y nY.
Proof.
  intro Hne. destruct (bounding_box_encloses nodes Hne) as (m & M & m' & M' & Eb & Hall).
  destruct nodes as [| node rest]; [congruence|].
  assert (Hatt : exists nx nX ny nY,
             In nx ([node] ++ rest) /\ In nX ([node] ++ rest)
             /\ In ny ([node] ++ rest) /\ In nY ([node] ++ rest)
             /\ fold_left Layout.box_step rest
                  (Layout.box_step (Layout.mkBox Layout.PosInf Layout.NegInf
                                      Layout.PosInf Layout.NegInf) node)
                = Layout.mkBox (Layout.Fin (Layout.pos_x nx)) (Layout.Fin (Layout.pos_x nX))
                               (Layout.Fin (Layout.pos_y ny)) (Layout.Fin (Layout.pos_y nY))).
  { apply box_loop_attained. exists node, node, node, node.
    repeat split; left; reflexivity. }
  destruct Hatt as (nx & nX & ny & nY & Hx & HX & Hy & HY & Ea).
  change (fold_left Layout.box_step rest
            (Layout.box_step (Layout.mkBox Layout.PosInf Layout.NegInf
                                Layout.PosInf Layout.NegInf) node))
    with (Layout.bounding_box (node :: rest)) in Ea.
  rewrite Ea in Eb. injection Eb as E1 E2 E3 E4. subst m M m' M'.
  exists nx, nX, ny, nY.
  refine (conj Hx (conj HX (conj Hy (conj HY (conj Ea Hall))))).
Qed.

Lemma normalize_value (v m M : Q) :
  ~ M - m == 0 ->
  Layout.normalize v (Layout.Fin m) (Layout.js_sub (Layout.Fin M) (Layout.Fin m))
  = Layout.Fin (inject_Z (Qfloor ((v - m) / (M - m) * Layout.scale + (1 # 2)))).
Proof.
  intro Hne.
  unfold Layout.normalize, Layout.js_round, Layout.js_mul, Layout.js_div,
    Layout.js_sub, Layout.Qzero.
  destruct (Qeq_bool (M - m) 0) eqn:E; [apply Qeq_bool_iff in E; contradiction|].
  reflexivity.
Qed.

Lemma normalize_monotone (v1 v2 m M : Q) :
  m < M -> v1 <= v2 ->
  (Qfloor ((v1 - m) / (M - m) * Layout.scale + (1 # 2))
   <= Qfloor ((v2 - m) / (M - m) * Layout.scale + (1 # 2)))%Z.
Proof.
  intros Hlt Hle. apply Qfloor_resp_le. unfold Layout.scale.
  assert (Hinv : 0 < / (M - m)) by (apply Qinv_lt_0_compat; lra).
  assert (H : (v1 - m) / (M - m) <= (v2 - m) / (M - m)).
  { unfold Qdiv. apply Qmult_le_compat_r; lra. }
  lra.
Qed.

Lemma normalize_extremes (m M : Q) :
  m < M ->
  Qfloor ((m - m) / (M - m) * Layout.scale + (1 # 2)) = 0%Z
  /\ Qfloor ((M - m) / (M - m) * Layout.scale + (1 # 2)) = 20000%Z.
Proof.
  intro Hlt. unfold Layout.scale. split.
  - assert (E : (m - m) / (M - m) * 20000 + (1 # 2) == 1 # 2) by (field; lra).
    rewrite E. reflexivity.
  - assert (E : (M - m) / (M - m) * 20000 + (1 # 2) == 20000 + (1 # 2)) by (field; lra).
    rewrite E. reflexivity.
Qed.

(** On an axis along which two nodes differ, the serialized coordinate
    keeps the order of the nodes (a node that is not to the right of
    another is not serialized to the right of it), some node is written
    at 0 and some node at 20000. *)
Theorem serialized_order_and_extremes (nodes : list Layout.Positioned) :
  Layout.serialize_coordinates nodes
  = map (fun n => (LayoutGraph.serialized_x nodes n, LayoutGraph.serialized_y nodes n)) nodes
  /\ ((exists n1 n2, In n1 nodes /\ In n2 nodes /\ ~ Layout.pos_x n1 == Layout.pos_x n2) ->
      (forall n1 n2, In n1 nodes -> In n2 nodes -> Layout.pos_x n1 <= Layout.pos_x n2 ->
         exists z1 z2,
           LayoutGraph.serialized_x nodes n1 = Layout.Fin (inject_Z z1)
           /\ LayoutGraph.serialized_x nodes n2 = Layout.Fin (inject_Z z2)
           /\ (z1 <= z2)%Z)
      /\ (exists n, In n nodes
                    /\ LayoutGraph.serialized_x nodes n = Layout.Fin (inject_Z 0))
      /\ (exists n, In n nodes
                    /\ LayoutGraph.serialized_x nodes n = Layout.Fin (inject_Z 20000)))
  /\ ((exists n1 n2, In n1 nodes /\ In n2 nodes /\ ~ Layout.pos_y n1 == Layout.pos_y n2) ->
      (forall n1 n2, In n1 nodes -> In n2 nodes -> Layout.pos_y n1 <= Layout.pos_y n2 ->
         exists z1 z2,
           LayoutGraph.serialized_y nodes n1 = Layout.Fin (inject_Z z1)
           /\ LayoutGraph.serialized_y nodes n2 = Layout.Fin (inject_Z z2)
           /\ (z1 <= z2)%Z)
      /\ (exists n, In n nodes
                    /\ LayoutGraph.serialized_y nodes n = Layout.Fin (inject_Z 0))
      /\ (exists n, In n nodes
                    /\ LayoutGraph.serialized_y nodes n = Layout.Fin (inject_Z 20000))).
Proof.
  split; [reflexivity|].
  split; intros (a & b & Ha & Hb & Hdiff);
    (assert (Hnn : nodes <> []) by (destruct nodes; [destruct Ha | discriminate]));
    destruct (bounding_box_tight nodes Hnn)
      as (nx & nX & ny & nY & Hx & HX & Hy & HY & Eb & Hall);
    unfold LayoutGraph.serialized_x, LayoutGraph.serialized_y; rewrite Eb;
    cbn [Layout.minX Layout.maxX Layout.minY Layout.maxY];
    destruct (Hall a Ha) as [Hax Hay]; destruct (Hall b Hb) as [Hbx Hby].
  - assert (Hlt : Layout.pos_x nx < Layout.pos_x nX).
    { destruct (Qlt_le_dec (Layout.pos_x nx) (Layout.pos_x nX)) as [H | H]; [exact H|].
      exfalso. apply Hdiff. lra. }
    assert (Hne : ~ Layout.pos_x nX - Layout.pos_x nx == 0) by lra.
    destruct (normalize_extremes _ _ Hlt) as [Elo Ehi].
    split; [|split].
    + intros n1 n2 _ _ Hle. do 2 eexists.
      split; [apply normalize_value, Hne|].
      split; [apply normalize_value, Hne|].
      apply normalize_monotone; assumption.
    + exists nx. split; [exact Hx|]. rewrite normalize_value by exact Hne.
      rewrite Elo. reflexivity.
    + exists nX. split; [exact HX|]. rewrite normalize_value by exact Hne.
      rewrite Ehi. reflexivity.
  - assert (Hlt : Layout.pos_y ny < Layout.pos_y nY).
    { destruct (Qlt_le_dec (Layout.pos_y ny) (Layout.pos_y nY)) as [H | H]; [exact H|].
      exfalso. apply Hdiff. lra. }
    assert (Hne : ~ Layout.pos_y nY - Layout.pos_y ny == 0) by lra.
    destruct (normalize_extremes _ _ Hlt) as [Elo Ehi].
    split; [|split].
    + intros n1 n2 _ _ Hle. do 2 eexists.
      split; [apply normalize_value, Hne|].
      split; [apply normalize_value, Hne|].
      apply normalize_monotone; assumption.
    + exists ny. split; [exact Hy|]. rewrite normalize_value by exact Hne.
      rewrite Elo. reflexivity.
    + exists nY. split; [exact HY|]. rewrite normalize_value by exact Hne.
      rewrite Ehi. reflexivity.
Qed.

(** ** A two-sided sample for the symmetry of the score *)

Lemma similarity_symmetric_when_relations_mutual_witness :
  computeAnimeSimilarity Samples.drama_a Samples.drama_b
  = computeAnimeSimilarity Samples.drama_b Samples.drama_a.
Proof.
  apply (similarity_symmetric_when_relations_mutual Samples.drama_a Samples.drama_b);
    first [reflexivity | solve_NoDup].
Defined.
